(** * CulturaLens: the audio synthesis and playback manager

    A shallow embedding of [Frontend/src/utils/AudioManager.ts] and the
    properties of its text chunker, track assembler, playback engine,
    persistence coordinator and state store.

    Conventions of the embedding.
    - A JavaScript string is a [string]; its characters are the code units
      below 256.  [String.length] is the source's [.length].
    - An optional field ([cachePath?: string]) is an [option]; [None] is
      [undefined].  Truthiness of a string is written out ([truthy]).
    - An [async] method is cut at its suspension points: the part that runs
      synchronously is one function, each continuation another.  What the
      platform answers (a remote call, a media element event) is an
      argument of the continuation. *)

From Stdlib Require Import String Ascii List Arith ZArith Lia Bool Permutation.
From Stdlib Require Import DecimalString Sorted QArith.
From stdpp Require Import base gmap.
Import ListNotations.

Open Scope string_scope.
Open Scope list_scope.
Open Scope nat_scope.

#[global] Arguments String.append !_ _ / : simpl nomatch.

(** ** JavaScript strings *)

Module Js.

Definition LF : ascii := "010"%char.

(** The separator ['\n\n']. *)
Definition blank_line : string := String LF (String LF EmptyString).

(** White space and line terminators, as [String.prototype.trim] sees them
    among the code units below 256: TAB, LF, VT, FF, CR, SP and NBSP. *)
Definition is_space (c : ascii) : bool :=
  let n := nat_of_ascii c in
  Nat.eqb n 9 || Nat.eqb n 10 || Nat.eqb n 11 || Nat.eqb n 12
  || Nat.eqb n 13 || Nat.eqb n 32 || Nat.eqb n 160.

Fixpoint trimStart (s : string) : string :=
  match s with
  | EmptyString => EmptyString
  | String c s' => if is_space c then trimStart s' else s
  end.

Definition reverse (s : string) : string :=
  string_of_list_ascii (rev (list_ascii_of_string s)).

Definition trimEnd (s : string) : string := reverse (trimStart (reverse s)).

Definition trim (s : string) : string := trimEnd (trimStart s).

Definition push_char (c : ascii) (l : list string) : list string :=
  match l with
  | [] => [String c EmptyString]
  | p :: ps => String c p :: ps
  end.

(** [s.split('\n\n')]: the pieces between the occurrences of the
    separator, found from left to right without overlap. *)
Fixpoint split_blank_line (s : string) : list string :=
  match s with
  | EmptyString => [EmptyString]
  | String c s' =>
      match s' with
      | String c' rest =>
          if Ascii.eqb c LF && Ascii.eqb c' LF
          then EmptyString :: split_blank_line rest
          else push_char c (split_blank_line s')
      | EmptyString => push_char c (split_blank_line s')
      end
  end.

(** [l.join(sep)]. *)
Definition join (sep : string) (l : list string) : string := String.concat sep l.

(** A string as a condition: [undefined] and [''] are falsy. *)
Definition truthy (o : option string) : bool :=
  match o with
  | Some s => negb (String.eqb s EmptyString)
  | None => false
  end.

(** The class [[.!?]] of the sentence pattern. *)
Definition is_terminator (c : ascii) : bool :=
  Ascii.eqb c "."%char || Ascii.eqb c "!"%char || Ascii.eqb c "?"%char.

Definition snoc (s : string) (c : ascii) : string :=
  String.append s (String c EmptyString).

(** [s.match(/[^.!?]+[.!?]+/g)]: the matcher reads [s] once.  [body] is the
    run of non-terminators of the match being read and [marks] the run of
    terminators that follows it.  A terminator with no body before it
    cannot start a match and is skipped; a body that reaches the end of the
    string without a terminator is no match. *)
Fixpoint match_sentences (s body marks : string) : list string :=
  match s with
  | EmptyString =>
      match marks with
      | EmptyString => []
      | _ => [String.append body marks]
      end
  | String c s' =>
      if is_terminator c then
        match body with
        | EmptyString => match_sentences s' EmptyString EmptyString
        | _ => match_sentences s' body (snoc marks c)
        end
      else
        match marks with
        | EmptyString => match_sentences s' (snoc body c) EmptyString
        | _ => String.append body marks
                 :: match_sentences s' (String c EmptyString) EmptyString
        end
  end.

(** [paragraph.match(...) || [paragraph]]: [match] answers [null] when
    nothing matches. *)
Definition sentences_or_self (paragraph : string) : list string :=
  match match_sentences paragraph EmptyString EmptyString with
  | [] => [paragraph]
  | l => l
  end.

(** White-space normalisation: the words of a text, and the text with every
    run of white space collapsed to one blank and none at either end. *)
Fixpoint chop (s : string) : list string :=
  match s with
  | EmptyString => [EmptyString]
  | String c s' =>
      if is_space c then EmptyString :: chop s' else push_char c (chop s')
  end.

Definition nonempty (s : string) : bool := negb (String.eqb s EmptyString).

Definition words (s : string) : list string := List.filter nonempty (chop s).

Definition normalize_space (s : string) : string := join " " (words s).

Fixpoint replicate_char (n : nat) (c : ascii) : string :=
  match n with
  | 0 => EmptyString
  | S k => String c (replicate_char k c)
  end.

End Js.

(** ** Text chunker *)

Module Chunker.
Import Js.

Definition MAX_CHUNK_SIZE : nat := 2900.
Definition MAX_PARAGRAPH_LENGTH : nat := 500.

(** [text.split('\n\n').filter(p => p.trim() !== '')] *)
Definition paragraphs (text : string) : list string :=
  List.filter (fun p => negb (String.eqb (trim p) EmptyString))
    (split_blank_line text).

(** [Math.ceil(a / b)] for [b > 0]. *)
Definition ceil_div (a b : nat) : nat := (a + b - 1) / b.

(** [Math.min(Math.ceil(totalLength / targetChunkCount), MAX_CHUNK_SIZE)].
    With no paragraph the source divides by zero; the value is not read
    then, since the loop over the paragraphs does not run. *)
Definition adjustedChunkSize (totalLength paragraphCount : nat) : nat :=
  let targetChunkCount := Nat.min 4 paragraphCount in
  match targetChunkCount with
  | 0 => MAX_CHUNK_SIZE
  | _ => Nat.min (ceil_div totalLength targetChunkCount) MAX_CHUNK_SIZE
  end.

(** The loop [for (const paragraph of paragraphs)] of
    [createOptimizedChunks], on the two variables it updates. *)
Fixpoint pack (limit : nat) (ps : list string)
    (chunks : list string) (currentChunk : string) : list string * string :=
  match ps with
  | [] => (chunks, currentChunk)
  | paragraph :: rest =>
      if (limit <? String.length currentChunk + String.length paragraph + 2)
         && (0 <? String.length currentChunk)
      then pack limit rest (chunks ++ [currentChunk]) paragraph
      else if 0 <? String.length currentChunk
      then pack limit rest chunks
             (String.append currentChunk (String.append blank_line paragraph))
      else pack limit rest chunks paragraph
  end.

(** [if (currentChunk.length > 0) chunks.push(currentChunk)] *)
Definition push_last (r : list string * string) : list string :=
  if 0 <? String.length (snd r) then fst r ++ [snd r] else fst r.

Definition createOptimizedChunks (text : string) : list string :=
  let ps := paragraphs text in
  let limit := adjustedChunkSize (String.length text) (List.length ps) in
  push_last (pack limit ps [] EmptyString).

(** The loop [sentences.forEach] of [splitTextIntoParagraphs]. *)
Fixpoint accumulate (ss : list string)
    (result : list string) (currentChunk : string) : list string * string :=
  match ss with
  | [] => (result, currentChunk)
  | sentence :: rest =>
      if String.length currentChunk + String.length sentence
         <=? MAX_PARAGRAPH_LENGTH
      then accumulate rest result (String.append currentChunk sentence)
      else accumulate rest
             (if nonempty currentChunk then result ++ [currentChunk] else result)
             sentence
  end.

(** One turn of [paragraphs.forEach]: what it pushes on [result]. *)
Definition split_paragraph (paragraph : string) : list string :=
  if String.length paragraph <=? MAX_PARAGRAPH_LENGTH then [paragraph]
  else
    push_last (accumulate (sentences_or_self paragraph) [] EmptyString).

Definition splitTextIntoParagraphs (text : string) : list string :=
  List.flat_map split_paragraph (paragraphs text).

(** The units [createAudio] sends to synthesis for a text given to
    [initialize]: the stored paragraphs are joined and split again. *)
Definition narration_units (text : string) : list string :=
  createOptimizedChunks (join blank_line (splitTextIntoParagraphs text)).

End Chunker.

(** ** Data model *)

Module Model.
Import Js.

(** [AudioBuffer]: decoded PCM samples.  The platform has no buffer of
    length zero, so a buffer is its first sample and the others. *)
Record AudioBuffer := {
  ab_first : Z;
  ab_rest : list Z
}.

Definition ab_data (b : AudioBuffer) : list Z := ab_first b :: ab_rest b.
Definition ab_length (b : AudioBuffer) : nat := List.length (ab_data b).

Inductive ChunkStatus := Pending | Processing | Complete | Failed.

Definition is_complete (s : ChunkStatus) : bool :=
  match s with Complete => true | _ => false end.

(** [interface AudioChunk]; [Failed] is the status ['error']. *)
Record AudioChunk := {
  index : nat;
  text : string;
  audioBuffer : option AudioBuffer;
  status : ChunkStatus;
  error : option string
}.

Inductive AudioStatus := NotCreated | Creating | Ready | Error.

Definition is_ready (s : AudioStatus) : bool :=
  match s with Ready => true | _ => false end.

(** [interface AudioManagerState] *)
Record AudioManagerState := {
  isPlaying : bool;
  currentChunkIndex : nat;
  chunks : list AudioChunk;
  cachePath : option string;
  s3Path : option string;
  audioStatus : AudioStatus;
  audioError : option string;
  useSystemVoice : bool
}.

(** An object literal [{...this.state, k: v}] is the state with one field
    replaced; these are the replacements the source writes. *)
Definition with_isPlaying (v : bool) (s : AudioManagerState) :=
  {| isPlaying := v; currentChunkIndex := currentChunkIndex s;
     chunks := chunks s; cachePath := cachePath s; s3Path := s3Path s;
     audioStatus := audioStatus s; audioError := audioError s;
     useSystemVoice := useSystemVoice s |}.
Definition with_currentChunkIndex (v : nat) (s : AudioManagerState) :=
  {| isPlaying := isPlaying s; currentChunkIndex := v;
     chunks := chunks s; cachePath := cachePath s; s3Path := s3Path s;
     audioStatus := audioStatus s; audioError := audioError s;
     useSystemVoice := useSystemVoice s |}.
Definition with_chunks (v : list AudioChunk) (s : AudioManagerState) :=
  {| isPlaying := isPlaying s; currentChunkIndex := currentChunkIndex s;
     chunks := v; cachePath := cachePath s; s3Path := s3Path s;
     audioStatus := audioStatus s; audioError := audioError s;
     useSystemVoice := useSystemVoice s |}.
Definition with_cachePath (v : option string) (s : AudioManagerState) :=
  {| isPlaying := isPlaying s; currentChunkIndex := currentChunkIndex s;
     chunks := chunks s; cachePath := v; s3Path := s3Path s;
     audioStatus := audioStatus s; audioError := audioError s;
     useSystemVoice := useSystemVoice s |}.
Definition with_s3Path (v : option string) (s : AudioManagerState) :=
  {| isPlaying := isPlaying s; currentChunkIndex := currentChunkIndex s;
     chunks := chunks s; cachePath := cachePath s; s3Path := v;
     audioStatus := audioStatus s; audioError := audioError s;
     useSystemVoice := useSystemVoice s |}.
Definition with_audioStatus (v : AudioStatus) (s : AudioManagerState) :=
  {| isPlaying := isPlaying s; currentChunkIndex := currentChunkIndex s;
     chunks := chunks s; cachePath := cachePath s; s3Path := s3Path s;
     audioStatus := v; audioError := audioError s;
     useSystemVoice := useSystemVoice s |}.
Definition with_audioError (v : option string) (s : AudioManagerState) :=
  {| isPlaying := isPlaying s; currentChunkIndex := currentChunkIndex s;
     chunks := chunks s; cachePath := cachePath s; s3Path := s3Path s;
     audioStatus := audioStatus s; audioError := v;
     useSystemVoice := useSystemVoice s |}.
Definition with_useSystemVoice (v : bool) (s : AudioManagerState) :=
  {| isPlaying := isPlaying s; currentChunkIndex := currentChunkIndex s;
     chunks := chunks s; cachePath := cachePath s; s3Path := s3Path s;
     audioStatus := audioStatus s; audioError := audioError s;
     useSystemVoice := v |}.

(** The argument of [setState]: an object that has some of the keys of the
    state.  [None] is a key the object does not have; for an optional
    field, [Some None] is the key set to [undefined]. *)
Record StateUpdate := {
  u_isPlaying : option bool;
  u_currentChunkIndex : option nat;
  u_chunks : option (list AudioChunk);
  u_cachePath : option (option string);
  u_s3Path : option (option string);
  u_audioStatus : option AudioStatus;
  u_audioError : option (option string);
  u_useSystemVoice : option bool
}.

(** [{...s}] as the argument of [setState]: every key is there. *)
Definition spread (s : AudioManagerState) : StateUpdate :=
  {| u_isPlaying := Some (isPlaying s);
     u_currentChunkIndex := Some (currentChunkIndex s);
     u_chunks := Some (chunks s);
     u_cachePath := Some (cachePath s);
     u_s3Path := Some (s3Path s);
     u_audioStatus := Some (audioStatus s);
     u_audioError := Some (audioError s);
     u_useSystemVoice := Some (useSystemVoice s) |}.

Definition override {A : Type} (old : A) (new : option A) : A :=
  match new with Some v => v | None => old end.

(** [{ ...this.state, ...newState }] *)
Definition merge (s : AudioManagerState) (u : StateUpdate) : AudioManagerState :=
  {| isPlaying := override (isPlaying s) (u_isPlaying u);
     currentChunkIndex := override (currentChunkIndex s) (u_currentChunkIndex u);
     chunks := override (chunks s) (u_chunks u);
     cachePath := override (cachePath s) (u_cachePath u);
     s3Path := override (s3Path s) (u_s3Path u);
     audioStatus := override (audioStatus s) (u_audioStatus u);
     audioError := override (audioError s) (u_audioError u);
     useSystemVoice := override (useSystemVoice s) (u_useSystemVoice u) |}.

(** [interface AudioManagerConfig]; of the callback [updateStoryAudio] only
    its presence matters. *)
Record AudioManagerConfig := {
  userId : string;
  artifactId : string;
  storyIndex : nat;
  language : string;
  voiceId : string;
  updateStoryAudio : bool
}.

(** A state listener is known by its identity. *)
Definition Listener := nat.

(** *** The page: what the manager creates and drives *)

(** An [HTMLAudioElement] made by [new Audio()].  [el_onended] and
    [el_onerror] tell whether the handler is set.  [el_failed] is set when
    the element has fired [error]: it plays nothing from then on.
    [el_awaited] is set while the [playFromCache] that made the element has
    yet to call [play()] on it. *)
Record AudioElement := {
  el_src : string;
  el_paused : bool;
  el_muted : bool;
  el_currentTime : nat;
  el_onended : bool;
  el_onerror : bool;
  el_failed : bool;
  el_awaited : bool
}.

(** [window.speechSynthesis] *)
Record SpeechEngine := {
  speaking : bool;
  pending : bool;
  engine_paused : bool
}.

(** An [AudioBufferSourceNode]. *)
Record BufferSource := {
  bs_started : bool;
  bs_connected : bool
}.

(** A [Blob] of audio. *)
Record Blob := {
  blob_type : string;
  blob_samples : list Z
}.

(** An [async] method that waits. *)
Inductive Suspended :=
| AwaitingStorage (s3Path : string) (* [playFromS3], before its answer *)
| AwaitingUpload.                   (* [saveAudioToS3InBackground] *)

Record Page := {
  elements : list AudioElement;
  sources : list BufferSource;
  speech : SpeechEngine;
  objects : list Blob;
  suspended : list Suspended
}.

(** What the manager has done to the outside, in order of time, latest
    first: the snapshots handed to listeners and the synthesis requests. *)
Record Journal := {
  delivered : list (Listener * AudioManagerState);
  requests : list AudioChunk
}.

(** The fields of [class AudioManager]. *)
Record Manager := {
  state : AudioManagerState;
  stateListeners : list Listener;
  isDestroyed : bool;
  manualStop : bool;
  currentSource : option nat;
  currentAudioElement : option nat;
  needsUserInteraction : bool;
  speechSynthesis : bool;
  speechUtterance : option string
}.

Record World := {
  this : Manager;
  page : Page;
  journal : Journal
}.

(** Assignments to one field. *)
Definition set_state (v : AudioManagerState) (m : Manager) : Manager :=
  {| state := v; stateListeners := stateListeners m;
     isDestroyed := isDestroyed m; manualStop := manualStop m;
     currentSource := currentSource m;
     currentAudioElement := currentAudioElement m;
     needsUserInteraction := needsUserInteraction m;
     speechSynthesis := speechSynthesis m;
     speechUtterance := speechUtterance m |}.
Definition set_stateListeners (v : list Listener) (m : Manager) : Manager :=
  {| state := state m; stateListeners := v;
     isDestroyed := isDestroyed m; manualStop := manualStop m;
     currentSource := currentSource m;
     currentAudioElement := currentAudioElement m;
     needsUserInteraction := needsUserInteraction m;
     speechSynthesis := speechSynthesis m;
     speechUtterance := speechUtterance m |}.
Definition set_isDestroyed (v : bool) (m : Manager) : Manager :=
  {| state := state m; stateListeners := stateListeners m;
     isDestroyed := v; manualStop := manualStop m;
     currentSource := currentSource m;
     currentAudioElement := currentAudioElement m;
     needsUserInteraction := needsUserInteraction m;
     speechSynthesis := speechSynthesis m;
     speechUtterance := speechUtterance m |}.
Definition set_manualStop (v : bool) (m : Manager) : Manager :=
  {| state := state m; stateListeners := stateListeners m;
     isDestroyed := isDestroyed m; manualStop := v;
     currentSource := currentSource m;
     currentAudioElement := currentAudioElement m;
     needsUserInteraction := needsUserInteraction m;
     speechSynthesis := speechSynthesis m;
     speechUtterance := speechUtterance m |}.
Definition set_currentSource (v : option nat) (m : Manager) : Manager :=
  {| state := state m; stateListeners := stateListeners m;
     isDestroyed := isDestroyed m; manualStop := manualStop m;
     currentSource := v;
     currentAudioElement := currentAudioElement m;
     needsUserInteraction := needsUserInteraction m;
     speechSynthesis := speechSynthesis m;
     speechUtterance := speechUtterance m |}.
Definition set_currentAudioElement (v : option nat) (m : Manager) : Manager :=
  {| state := state m; stateListeners := stateListeners m;
     isDestroyed := isDestroyed m; manualStop := manualStop m;
     currentSource := currentSource m;
     currentAudioElement := v;
     needsUserInteraction := needsUserInteraction m;
     speechSynthesis := speechSynthesis m;
     speechUtterance := speechUtterance m |}.
Definition set_needsUserInteraction (v : bool) (m : Manager) : Manager :=
  {| state := state m; stateListeners := stateListeners m;
     isDestroyed := isDestroyed m; manualStop := manualStop m;
     currentSource := currentSource m;
     currentAudioElement := currentAudioElement m;
     needsUserInteraction := v;
     speechSynthesis := speechSynthesis m;
     speechUtterance := speechUtterance m |}.
Definition set_speechUtterance (v : option string) (m : Manager) : Manager :=
  {| state := state m; stateListeners := stateListeners m;
     isDestroyed := isDestroyed m; manualStop := manualStop m;
     currentSource := currentSource m;
     currentAudioElement := currentAudioElement m;
     needsUserInteraction := needsUserInteraction m;
     speechSynthesis := speechSynthesis m;
     speechUtterance := v |}.

Definition set_elements (v : list AudioElement) (p : Page) : Page :=
  {| elements := v; sources := sources p; speech := speech p;
     objects := objects p; suspended := suspended p |}.
Definition set_sources (v : list BufferSource) (p : Page) : Page :=
  {| elements := elements p; sources := v; speech := speech p;
     objects := objects p; suspended := suspended p |}.
Definition set_speech (v : SpeechEngine) (p : Page) : Page :=
  {| elements := elements p; sources := sources p; speech := v;
     objects := objects p; suspended := suspended p |}.
Definition set_objects (v : list Blob) (p : Page) : Page :=
  {| elements := elements p; sources := sources p; speech := speech p;
     objects := v; suspended := suspended p |}.
Definition set_suspended (v : list Suspended) (p : Page) : Page :=
  {| elements := elements p; sources := sources p; speech := speech p;
     objects := objects p; suspended := v |}.

Definition on_this (f : Manager -> Manager) (w : World) : World :=
  {| this := f (this w); page := page w; journal := journal w |}.
Definition on_page (f : Page -> Page) (w : World) : World :=
  {| this := this w; page := f (page w); journal := journal w |}.
Definition on_journal (f : Journal -> Journal) (w : World) : World :=
  {| this := this w; page := page w; journal := f (journal w) |}.

Definition deliver (listener : Listener) (snapshot : AudioManagerState)
    (j : Journal) : Journal :=
  {| delivered := (listener, snapshot) :: delivered j; requests := requests j |}.

Definition request (chunk : AudioChunk) (j : Journal) : Journal :=
  {| delivered := delivered j; requests := chunk :: requests j |}.

End Model.

(** ** Track assembler *)

Module Assembler.
Import Model.

(** What a call gives: a value, or the exception it throws, as
    [String(error)] shows it. *)
Inductive Outcome (A : Type) :=
| Returned (a : A)
| Thrown (shown : string).
Arguments Returned {A} a.
Arguments Thrown {A} shown.

Definition has_buffer (c : AudioChunk) : bool :=
  match audioBuffer c with Some _ => true | None => false end.

(** [chunks.filter(c => c.status === 'complete' && c.audioBuffer)] *)
Definition completeChunks (cs : list AudioChunk) : list AudioChunk :=
  List.filter (fun c => is_complete (status c) && has_buffer c) cs.

(** [sort((a, b) => a.index - b.index)]; the sort is stable. *)
Fixpoint insert_by_index (c : AudioChunk) (l : list AudioChunk)
    : list AudioChunk :=
  match l with
  | [] => [c]
  | d :: l' => if index c <=? index d then c :: l else d :: insert_by_index c l'
  end.

Definition sort_by_index (l : list AudioChunk) : list AudioChunk :=
  List.fold_right insert_by_index [] l.

(** [chunk.audioBuffer?.length || 0] *)
Definition buffer_length (c : AudioChunk) : nat :=
  match audioBuffer c with Some b => ab_length b | None => 0 end.

Definition totalLength (l : list AudioChunk) : nat :=
  List.fold_left (fun total c => total + buffer_length c) l 0.

(** The loop that starts one source per chunk: the frame at which each
    source starts, and its samples.  [source.start] takes seconds,
    [currentOffset / sampleRate]; the context counts them back in frames. *)
Fixpoint schedule (l : list AudioChunk) (currentOffset : nat)
    : list (nat * list Z) :=
  match l with
  | [] => []
  | c :: l' =>
      match audioBuffer c with
      | None => schedule l' currentOffset
      | Some b =>
          (currentOffset, ab_data b)
            :: schedule l' (currentOffset + ab_length b)
      end
  end.

(** A source playing into the destination of an [OfflineAudioContext]:
    its samples are added to the output from frame [start] on, up to the
    length of the output. *)
Fixpoint mix (out : list Z) (start : nat) (src : list Z) : list Z :=
  match out with
  | [] => []
  | o :: out' =>
      match start with
      | S k => o :: mix out' k src
      | 0 =>
          match src with
          | [] => out
          | x :: src' => (o + x)%Z :: mix out' 0 src'
          end
      end
  end.

(** [offlineCtx.startRendering()] on a context of [len] frames. *)
Definition startRendering (len : nat) (srcs : list (nat * list Z)) : list Z :=
  List.fold_left (fun out s => mix out (fst s) (snd s)) srcs (List.repeat 0%Z len).

(** [audioBufferToWav]: the container is not opened here; the blob keeps
    the samples it was made from. *)
Definition audioBufferToWav (rendered : list Z) : Blob :=
  {| blob_type := "audio/wav"; blob_samples := rendered |}.

(** The samples of the chunks that have a buffer, one chunk after the
    other. *)
Definition samples_of (l : list AudioChunk) : list Z :=
  List.flat_map
    (fun c => match audioBuffer c with Some b => ab_data b | None => [] end) l.

Definition by_index (a b : AudioChunk) : Prop := index a <= index b.

(** The body of [saveAudioForPlayback] up to the rendered buffer.
    [new OfflineAudioContext(1, 0, rate)] throws. *)
Definition render (cs : list AudioChunk) : Outcome (list Z) :=
  let complete := completeChunks cs in
  if List.length complete =? 0
  then Thrown "Error: No complete audio chunks for playback"
  else
    let sorted := sort_by_index complete in
    let total := totalLength sorted in
    if total =? 0
    then Thrown "NotSupportedError: The number of frames provided (0) is not supported"
    else Returned (startRendering total (schedule sorted 0)).

End Assembler.

(** ** The WAV container

    The bytes of the blob that [Assembler.audioBufferToWav] leaves
    unopened: the 44-byte header and the sixteen-bit samples. *)

Module Wav.

(** An element of a [Float32Array]: a number, an infinity or [NaN].
    Every number of single precision is a rational, and the two products
    of the encoder, by [0x8000] and by [0x7FFF], are exact in double
    precision for such a number, so they are written as products of
    rationals. *)
Inductive Sample :=
| Finite (q : Q)
| PlusInfinity
| MinusInfinity
| NotANumber.

(** What [audioBufferToWav] reads of an [AudioBuffer]; [buffer.length] is
    the length of a channel, a buffer has a channel at least, and its rate
    is a whole number of hertz. *)
Record AudioBuffer := {
  numberOfChannels : positive;
  sampleRate : Z;
  channel0 : list Sample
}.

(** A [DataView] on an [ArrayBuffer]: its bytes. *)
Definition DataView := list Z.

(** The bytes [offset], ..., [offset + n - 1] of the view are given the
    values [bytes]; every write of [audioBufferToWav] is within the view. *)
Definition set_bytes (offset : nat) (bytes : list Z) (view : DataView) : DataView :=
  List.firstn offset view ++ bytes
  ++ List.skipn (offset + List.length bytes) view.

(** Byte [k] of an integer in two's complement. *)
Definition byte (k : Z) (v : Z) : Z := (v / 256 ^ k) mod 256.

(** [view.setUint8(offset, v)] *)
Definition setUint8 (offset : nat) (v : Z) (view : DataView) : DataView :=
  set_bytes offset [byte 0 v] view.

(** [view.setUint16(offset, v, true)] and [view.setInt16(offset, v, true)]
    for an integer [v]: the low sixteen bits, the low byte first. *)
Definition setUint16 (offset : nat) (v : Z) (view : DataView) : DataView :=
  set_bytes offset [byte 0 v; byte 1 v] view.

(** [view.setUint32(offset, v, true)] *)
Definition setUint32 (offset : nat) (v : Z) (view : DataView) : DataView :=
  set_bytes offset [byte 0 v; byte 1 v; byte 2 v; byte 3 v] view.

(** [writeString]: one [setUint8] for each character code. *)
Fixpoint writeString (offset : nat) (s : string) (view : DataView) : DataView :=
  match s with
  | EmptyString => view
  | String c s' =>
      writeString (S offset) s' (setUint8 offset (Z.of_nat (nat_of_ascii c)) view)
  end.

(** [Math.max(-1, Math.min(1, x))] *)
Definition clamp (x : Sample) : Sample :=
  match x with
  | Finite q =>
      if Qle_bool 1 q then Finite 1
      else if Qle_bool q (-1) then Finite (-1)
      else Finite q
  | PlusInfinity => Finite 1
  | MinusInfinity => Finite (-1)
  | NotANumber => NotANumber
  end.

(** [sample < 0 ? sample * 0x8000 : sample * 0x7FFF] *)
Definition scale (sample : Sample) : Sample :=
  match sample with
  | Finite q =>
      if negb (Qle_bool 0 q) then Finite (q * 32768) else Finite (q * 32767)
  | other => other
  end.

(** The conversion [setInt16] makes of its argument: [NaN] and the
    infinities give 0, a number is cut to its integral part. *)
Definition to_integer (value : Sample) : Z :=
  match value with
  | Finite q => Z.quot (Qnum q) (Z.pos (Qden q))
  | _ => 0
  end.

(** The loop over the samples of the first channel. *)
Fixpoint write_samples (offset : nat) (data : list Sample) (view : DataView)
    : DataView :=
  match data with
  | [] => view
  | x :: rest =>
      let sample := clamp x in
      let value := scale sample in
      write_samples (offset + 2) rest (setUint16 offset (to_integer value) view)
  end.

(** [audioBufferToWav], up to the bytes of the [Blob]. *)
Definition audioBufferToWav (buffer : AudioBuffer) : DataView :=
  let numOfChan := Z.pos (numberOfChannels buffer) in
  let length := (Z.of_nat (List.length (channel0 buffer)) * numOfChan * 2)%Z in
  let sampleRate := sampleRate buffer in
  let view := List.repeat 0%Z (44 + Z.to_nat length) in
  let view := writeString 0 "RIFF" view in
  let view := setUint32 4 (32 + length) view in
  let view := writeString 8 "WAVE" view in
  let view := writeString 12 "fmt " view in
  let view := setUint32 16 16 view in
  let view := setUint16 20 1 view in
  let view := setUint16 22 numOfChan view in
  let view := setUint32 24 sampleRate view in
  let view := setUint32 28 (sampleRate * 2 * numOfChan) view in
  let view := setUint16 32 (numOfChan * 2) view in
  let view := setUint16 34 16 view in
  let view := writeString 36 "data" view in
  let view := setUint32 40 length view in
  write_samples 44 (channel0 buffer) view.

(** *** Reading a view *)

Definition getUint8 (view : DataView) (offset : nat) : Z :=
  List.nth offset view 0%Z.

(** [view.getUint16(offset, true)] *)
Definition getUint16 (view : DataView) (offset : nat) : Z :=
  (getUint8 view offset + 256 * getUint8 view (offset + 1))%Z.

(** [view.getInt16(offset, true)] *)
Definition getInt16 (view : DataView) (offset : nat) : Z :=
  let u := getUint16 view offset in
  (if u <? 32768 then u else u - 65536)%Z.

(** [view.getUint32(offset, true)] *)
Definition getUint32 (view : DataView) (offset : nat) : Z :=
  (getUint8 view offset + 256 * getUint8 view (offset + 1)
   + 65536 * getUint8 view (offset + 2)
   + 16777216 * getUint8 view (offset + 3))%Z.

(** The character codes of a string. *)
Definition codes (s : string) : list Z :=
  List.map (fun c => Z.of_nat (nat_of_ascii c)) (list_ascii_of_string s).

(** The bytes [offset], ..., [offset + n - 1] of a view. *)
Definition slice (offset n : nat) (view : DataView) : list Z :=
  List.firstn n (List.skipn offset view).

(** The sixteen-bit sample written for an element of the channel. *)
Definition pcm16 (x : Sample) : Z := to_integer (scale (clamp x)).

(** The two bytes written for an element of the channel. *)
Definition sample_bytes (x : Sample) : list Z :=
  [byte 0 (pcm16 x); byte 1 (pcm16 x)].

End Wav.

(** ** The manager *)

Module Manager.
Import Js Model Chunker Assembler.

Definition string_of_nat (n : nat) : string :=
  NilEmpty.string_of_uint (Nat.to_uint n).

(** [URL.createObjectURL]: the address of the [n]th object of the page. *)
Definition object_url (n : nat) : string := String.append "blob:" (string_of_nat n).

(** [play(options?: { forceUseFile?: boolean })] *)
Record PlayOptions := { forceUseFile : option bool }.

Definition wants_file (options : option PlayOptions) : bool :=
  match options with
  | Some o => match forceUseFile o with Some b => b | None => false end
  | None => false
  end.

(** What the remote synthesis of a chunk comes to ([processChunk]). *)
Definition Synthesis := AudioChunk -> Outcome AudioBuffer.

Definition succeeded {A : Type} (o : Outcome A) : bool :=
  match o with Returned _ => true | Thrown _ => false end.

(** What [audio.play()] comes to. *)
Inductive PlayAnswer := PlayStarted | PlayNotAllowed | PlayRejected.

(** What the storage answers [playFromS3]. *)
Inductive StorageAnswer :=
| StorageMissing                (* [enhancedStorage.get] throws *)
| StorageNoUrl                  (* no address comes back *)
| StorageDirect (url : string)  (* on a mobile device: play the address *)
| StorageDownloaded (b : Blob)  (* the file is fetched *)
| StorageDownloadFailed.

Definition suspended_eqb (a b : Suspended) : bool :=
  match a, b with
  | AwaitingStorage p, AwaitingStorage q => String.eqb p q
  | AwaitingUpload, AwaitingUpload => true
  | _, _ => false
  end.

Definition is_suspended (t : Suspended) (w : World) : bool :=
  List.existsb (suspended_eqb t) (suspended (page w)).

Definition suspend (t : Suspended) (w : World) : World :=
  on_page (fun p => set_suspended (t :: suspended p) p) w.

Fixpoint remove_first (t : Suspended) (l : list Suspended) : list Suspended :=
  match l with
  | [] => []
  | x :: l' => if suspended_eqb t x then l' else x :: remove_first t l'
  end.

Definition resume (t : Suspended) (w : World) : World :=
  on_page (fun p => set_suspended (remove_first t (suspended p)) p) w.

Section WithConfig.

Variable config : AudioManagerConfig.

(** [constructor]; [engine] tells whether the page has
    [window.speechSynthesis]. *)
Definition constructor (engine : bool) : World :=
  let system := String.eqb (voiceId config) "system" in
  {| this :=
       {| state :=
            {| isPlaying := false; currentChunkIndex := 0; chunks := [];
               cachePath := None; s3Path := None;
               audioStatus := if system then Ready else NotCreated;
               audioError := None; useSystemVoice := system |};
          stateListeners := []; isDestroyed := false; manualStop := false;
          currentSource := None; currentAudioElement := None;
          needsUserInteraction := false; speechSynthesis := engine;
          speechUtterance := None |};
     page :=
       {| elements := []; sources := [];
          speech := {| speaking := false; pending := false;
                       engine_paused := false |};
          objects := []; suspended := [] |};
     journal := {| delivered := []; requests := [] |} |}.

(** *** State store and subscription hub *)

(** [this.stateListeners.forEach(listener => listener(stateCopy))] *)
Definition notify (ls : list Listener) (stateCopy : AudioManagerState)
    (j : Journal) : Journal :=
  List.fold_left (fun j listener => deliver listener stateCopy j) ls j.

Definition setState (newState : StateUpdate) (w : World) : World :=
  let w := on_this (fun m => set_state (merge (state m) newState) m) w in
  if isDestroyed (this w) then w
  else on_journal (notify (stateListeners (this w)) (state (this w))) w.

(** [this.setState({ ...this.state, k: v, ... })] *)
Definition update (change : AudioManagerState -> AudioManagerState)
    (w : World) : World :=
  setState (spread (change (state (this w)))) w.

Definition getState (w : World) : AudioManagerState := state (this w).

Definition subscribe (listener : Listener) (w : World) : World :=
  let w := on_this (fun m => set_stateListeners (stateListeners m ++ [listener]) m) w in
  on_journal (deliver listener (state (this w))) w.

(** The function [subscribe] returns. *)
Definition unsubscribe (listener : Listener) (w : World) : World :=
  on_this (fun m =>
    set_stateListeners
      (List.filter (fun l => negb (Nat.eqb l listener)) (stateListeners m)) m) w.

(** *** Stopping *)

Definition idle_engine (e : SpeechEngine) : bool :=
  negb (speaking e || pending e).

(** [pause()], [currentTime = 0], [muted = true], [onended = null],
    [onerror = null] *)
Definition silence (e : AudioElement) : AudioElement :=
  {| el_src := el_src e; el_paused := true; el_muted := true;
     el_currentTime := 0; el_onended := false; el_onerror := false;
     el_failed := el_failed e; el_awaited := el_awaited e |}.

(** [stop()] then [disconnect()] *)
Definition halt (b : BufferSource) : BufferSource :=
  {| bs_started := false; bs_connected := false |}.

(** [speechSynthesis.pause()] then [speechSynthesis.cancel()] *)
Definition cancel (e : SpeechEngine) : SpeechEngine :=
  {| speaking := false; pending := false; engine_paused := true |}.

(** [if (this.currentSource) { ... }]: [stop()] throws on a source that
    was not started; the exception is caught and the reference stays. *)
Definition stop_source (w : World) : World :=
  match currentSource (this w) with
  | Some id =>
      match sources (page w) !! id with
      | Some b =>
          if bs_started b
          then on_this (set_currentSource None)
                 (on_page (fun p => set_sources (alter halt id (sources p)) p) w)
          else w
      | None => w
      end
  | None => w
  end.

(** [if (this.currentAudioElement) { ... }] *)
Definition stop_element (w : World) : World :=
  match currentAudioElement (this w) with
  | Some id =>
      on_this (set_currentAudioElement None)
        (on_page (fun p => set_elements (alter silence id (elements p)) p) w)
  | None => w
  end.

(** [if (this.speechSynthesis) { if (speaking || pending) { ... } }] *)
Definition stop_voice (w : World) : World :=
  if speechSynthesis (this w) && negb (idle_engine (speech (page w)))
  then on_this (set_speechUtterance None)
         (on_page (fun p => set_speech (cancel (speech p)) p) w)
  else w.

Definition stopAnyExistingAudio (w : World) : World :=
  let w := if isPlaying (state (this w))
           then update (with_isPlaying false) w else w in
  let w := stop_source w in
  let w := stop_element w in
  stop_voice w.

(** [stop]; the timer it sets is [manual_stop_expired]. *)
Definition stop (w : World) : World :=
  let w := on_this (set_manualStop true) w in
  let w := stopAnyExistingAudio w in
  update (with_isPlaying false) w.

(** [setTimeout(() => { this.manualStop = false }, 300)] *)
Definition manual_stop_expired (w : World) : World :=
  on_this (set_manualStop false) w.

(** [destroy]; the audio context it closes is not part of the model. *)
Definition destroy (w : World) : World :=
  let w := on_this (set_isDestroyed true) w in
  let w := stop w in
  on_this (set_stateListeners []) w.

(** *** Playback *)

(** [new Audio()] with the handlers and the source [playFromCache] gives
    it, before it is played. *)
Definition new_audio (src : string) : AudioElement :=
  {| el_src := src; el_paused := true; el_muted := false;
     el_currentTime := 0; el_onended := true; el_onerror := true;
     el_failed := false; el_awaited := true |}.

(** [playFromCache] up to [await audio.load()]. *)
Definition playFromCache (cachePath : string) (w : World) : World :=
  let w := stopAnyExistingAudio w in
  let id := List.length (elements (page w)) in
  let w := on_page (fun p => set_elements (elements p ++ [new_audio cachePath]) p) w in
  on_this (set_currentAudioElement (Some id)) w.

(** The call [audio.play()] is made: the element is awaited no more. *)
Definition called (e : AudioElement) : AudioElement :=
  {| el_src := el_src e; el_paused := el_paused e; el_muted := el_muted e;
     el_currentTime := el_currentTime e; el_onended := el_onended e;
     el_onerror := el_onerror e; el_failed := el_failed e;
     el_awaited := false |}.

Definition start_playing (e : AudioElement) : AudioElement :=
  {| el_src := el_src e; el_paused := false; el_muted := el_muted e;
     el_currentTime := el_currentTime e; el_onended := el_onended e;
     el_onerror := el_onerror e; el_failed := el_failed e;
     el_awaited := el_awaited e |}.

(** [playFromCache] from [audio.play()] on, for the element it made.  An
    element that has failed rejects [play()]. *)
Definition playFromCache_played (id : nat) (answer : PlayAnswer) (w : World)
    : World :=
  match elements (page w) !! id with
  | Some e =>
      if negb (el_awaited e) then w
      else
        let w := on_page (fun p =>
                   set_elements (alter called id (elements p)) p) w in
        match (if el_failed e then PlayRejected else answer) with
        | PlayStarted =>
            let w := on_page (fun p =>
                       set_elements (alter start_playing id (elements p)) p) w in
            update (with_isPlaying true) w
        | PlayNotAllowed =>
            let w := on_this (set_needsUserInteraction true) w in
            update (fun s => with_cachePath None (with_isPlaying false s)) w
        | PlayRejected => w
        end
  | None => w
  end.

Definition mark_paused (e : AudioElement) : AudioElement :=
  {| el_src := el_src e; el_paused := true; el_muted := el_muted e;
     el_currentTime := el_currentTime e; el_onended := el_onended e;
     el_onerror := el_onerror e; el_failed := el_failed e;
     el_awaited := el_awaited e |}.

Definition mark_failed (e : AudioElement) : AudioElement :=
  {| el_src := el_src e; el_paused := el_paused e; el_muted := el_muted e;
     el_currentTime := el_currentTime e; el_onended := el_onended e;
     el_onerror := el_onerror e; el_failed := true;
     el_awaited := el_awaited e |}.

(** An element that plays reaches its end; [audio.onended] runs if set. *)
Definition element_ended (id : nat) (w : World) : World :=
  match elements (page w) !! id with
  | Some e =>
      if el_paused e || el_failed e then w
      else
        let w := on_page (fun p =>
                   set_elements (alter mark_paused id (elements p)) p) w in
        if el_onended e then
          let w := if manualStop (this w) then w
                   else update (with_isPlaying false) w in
          on_this (set_currentAudioElement None) w
        else w
  | None => w
  end.

(** An element that loads or plays fails, once; [audio.onerror] runs if
    set. *)
Definition element_error (id : nat) (w : World) : World :=
  match elements (page w) !! id with
  | Some e =>
      if el_failed e || (el_paused e && negb (el_awaited e)) then w
      else
        let w := on_page (fun p =>
                   set_elements (alter mark_failed id (elements p)) p) w in
        if el_onerror e then
          let w := update (fun s => with_cachePath None (with_isPlaying false s)) w in
          on_this (set_currentAudioElement None) w
        else w
  | None => w
  end.

(** [audio.onpause], which no one takes off an element. *)
Definition element_pause_event (id : nat) (w : World) : World :=
  match elements (page w) !! id with
  | Some _ => update (with_isPlaying false) w
  | None => w
  end.

(** [speechSynthesis.speak(utterance)] *)
Definition speak (e : SpeechEngine) : SpeechEngine :=
  if speaking e
  then {| speaking := true; pending := true; engine_paused := engine_paused e |}
  else {| speaking := true; pending := false; engine_paused := engine_paused e |}.

(** [playWithSystemVoice]; the timer it sets is [speech_check]. *)
Definition playWithSystemVoice (w : World) : World :=
  if negb (speechSynthesis (this w)) then
    update (fun s =>
      with_audioError (Some "Speech synthesis not available")
        (with_audioStatus Error (with_isPlaying false s))) w
  else
    let w := stopAnyExistingAudio w in
    let fullText := join " " (List.map text (chunks (state (this w)))) in
    let w := on_this (set_speechUtterance (Some fullText)) w in
    let w := update (with_isPlaying true) w in
    on_page (fun p => set_speech (speak (speech p)) p) w.

Definition isSpeechSynthesisSpeaking (w : World) : bool :=
  if speechSynthesis (this w)
  then speaking (speech (page w)) || pending (speech (page w))
  else false.

(** The check [playWithSystemVoice] sets for half a second later. *)
Definition speech_check (w : World) : World :=
  if speechSynthesis (this w) then
    let isSpeaking := speaking (speech (page w)) || pending (speech (page w)) in
    if Bool.eqb isSpeaking (isPlaying (state (this w))) then w
    else update (with_isPlaying isSpeaking) w
  else w.

(** The engine is done with the utterance it speaks, and goes on with the
    one that waits, if any. *)
Definition next_utterance (e : SpeechEngine) : SpeechEngine :=
  {| speaking := pending e; pending := false; engine_paused := engine_paused e |}.

(** [utterance.onend]; [spoken] tells the end of the utterance that is
    spoken from the late event of one that was cancelled. *)
Definition utterance_end (spoken : bool) (w : World) : World :=
  let w := if spoken then on_page (fun p => set_speech (next_utterance (speech p)) p) w
           else w in
  let w := if manualStop (this w) then w
           else update (with_isPlaying false) w in
  on_this (set_speechUtterance None) w.

(** [utterance.onerror] *)
Definition utterance_error (spoken : bool) (w : World) : World :=
  let w := if spoken then on_page (fun p => set_speech (next_utterance (speech p)) p) w
           else w in
  let w := update (fun s =>
             with_audioError (Some "Error with system voice playback")
               (with_isPlaying false s)) w in
  on_this (set_speechUtterance None) w.

(** [playFromS3] waits for the storage before anything else. *)
Definition playFromS3 (s3Path : string) (w : World) : World :=
  suspend (AwaitingStorage s3Path) w.

Definition storage_failure (message : string) (w : World) : World :=
  update (fun s =>
    with_audioError (Some message)
      (with_audioStatus Error (with_isPlaying false (with_s3Path None s)))) w.

Definition createObjectURL (b : Blob) (w : World) : string * World :=
  (object_url (List.length (objects (page w))),
   on_page (fun p => set_objects (objects p ++ [b]) p) w).

(** [playFromS3] once the storage has answered. *)
Definition playFromS3_answered (s3Path : string) (answer : StorageAnswer)
    (w : World) : World :=
  if negb (is_suspended (AwaitingStorage s3Path) w) then w
  else
    let w := resume (AwaitingStorage s3Path) w in
    match answer with
    | StorageMissing => storage_failure "Audio file not found in storage" w
    | StorageNoUrl =>
        storage_failure "Error: Failed to get a valid URL for the audio file" w
    | StorageDirect url =>
        let w := update (with_cachePath (Some url)) w in
        playFromCache url w
    | StorageDownloaded b =>
        let '(blobUrl, w) := createObjectURL b w in
        let w := update (with_cachePath (Some blobUrl)) w in
        playFromCache blobUrl w
    | StorageDownloadFailed =>
        storage_failure "Failed to play audio from storage" w
    end.

(** The string of a field that was found truthy. *)
Definition the (o : option string) : string :=
  match o with Some v => v | None => EmptyString end.

(** [play] after the block [if (useExistingFile) { ... }]. *)
Definition play_otherwise (useExistingFile : bool) (w : World) : World :=
  let s := state (this w) in
  if useSystemVoice s && negb useExistingFile then playWithSystemVoice w
  else if negb (is_ready (audioStatus s)) then update (with_isPlaying false) w
  else if truthy (cachePath s) then playFromCache (the (cachePath s)) w
  else if truthy (s3Path s) then playFromS3 (the (s3Path s)) w
  else
    update (fun s =>
      with_audioError (Some "No audio path available for playback")
        (with_audioStatus Error (with_isPlaying false s))) w.

(** [play], up to the first point where it waits. *)
Definition play (options : option PlayOptions) (w : World) : World :=
  if isPlaying (state (this w)) then w
  else
    let w := update (with_isPlaying true) w in
    let s := state (this w) in
    let useExistingFile :=
      wants_file options && (truthy (cachePath s) || truthy (s3Path s)) in
    if useExistingFile && truthy (cachePath s)
    then playFromCache (the (cachePath s)) w
    else if useExistingFile && truthy (s3Path s)
    then playFromS3 (the (s3Path s)) w
    else play_otherwise useExistingFile w.

Definition togglePlayback (options : option PlayOptions) (w : World) : World :=
  if useSystemVoice (state (this w)) && negb (wants_file options) then
    let isSpeaking := isSpeechSynthesisSpeaking w in
    let w := if Bool.eqb isSpeaking (isPlaying (state (this w))) then w
             else update (with_isPlaying isSpeaking) w in
    if isPlaying (state (this w)) then stop w else play options w
  else
    if isPlaying (state (this w)) then stop w else play options w.

Definition resetAudioState (w : World) : World :=
  if useSystemVoice (state (this w)) then
    update (fun s => with_audioError None (with_audioStatus Ready s)) w
  else
    update (fun s =>
      with_audioError None
        (with_audioStatus NotCreated
           (with_cachePath None (with_s3Path None s)))) w.

Definition updateS3Path (path : string) (w : World) : World :=
  update (fun s => with_audioStatus Ready (with_s3Path (Some path) s)) w.

(** *** Synthesis *)

Definition make_chunk (index : nat) (text : string) : AudioChunk :=
  {| index := index; text := text; audioBuffer := None;
     status := Pending; error := None |}.

Definition with_status (v : ChunkStatus) (c : AudioChunk) : AudioChunk :=
  {| index := index c; text := text c; audioBuffer := audioBuffer c;
     status := v; error := error c |}.
Definition with_audioBuffer (v : option AudioBuffer) (c : AudioChunk) : AudioChunk :=
  {| index := index c; text := text c; audioBuffer := v;
     status := status c; error := error c |}.
Definition with_error (v : option string) (c : AudioChunk) : AudioChunk :=
  {| index := index c; text := text c; audioBuffer := audioBuffer c;
     status := status c; error := v |}.

(** [`${userId}/${artifactId}/story_audio_${storyIndex + 1}.mp3`] *)
Definition audioFilename : string :=
  String.append "story_audio_"
    (String.append (string_of_nat (storyIndex config + 1)) ".mp3").

Definition audioPath : string :=
  String.append (userId config)
    (String.append "/" (String.append (artifactId config)
       (String.append "/" audioFilename))).

(** [initialize]; [existing] is what [checkExistingAudio] finds. *)
Definition initialize (narration : string) (existing : bool) (w : World) : World :=
  let chunks := imap make_chunk (splitTextIntoParagraphs narration) in
  if String.eqb (voiceId config) "system" then
    update (fun s =>
      with_useSystemVoice true
        (with_audioStatus Ready
           (with_currentChunkIndex 0 (with_chunks chunks s)))) w
  else
    let w := update (fun s =>
               with_useSystemVoice false
                 (with_audioStatus NotCreated
                    (with_currentChunkIndex 0 (with_chunks chunks s)))) w in
    if existing then
      let w := update (with_s3Path (Some audioPath)) w in
      update (with_audioStatus Ready) w
    else update (with_audioStatus NotCreated) w.

(** [copy[chunk.index] = { ...copy[chunk.index], k: v }] on a copy of
    [this.state.chunks], then [setState] with the copy.  The index is
    within the array whenever [createAudio] writes (the array is the one it
    has just stored); beyond it the source would lengthen the array, which
    [alter] does not. *)
Definition update_chunk (i : nat) (change : AudioChunk -> AudioChunk)
    (w : World) : World :=
  update (fun s => with_chunks (alter change i (chunks s)) s) w.

(** The callback of [optimizedChunks.map], up to the remote call. *)
Definition begin_chunk (chunk : AudioChunk) (w : World) : World :=
  let w := update_chunk (index chunk) (with_status Processing) w in
  on_journal (request chunk) w.

(** The same callback, once the remote call has come back. *)
Definition settle_chunk (chunk : AudioChunk) (result : Outcome AudioBuffer)
    (w : World) : World :=
  match result with
  | Returned buffer =>
      update_chunk (index chunk)
        (fun c => with_status Complete (with_audioBuffer (Some buffer) c)) w
  | Thrown shown =>
      update_chunk (index chunk)
        (fun c => with_error (Some shown) (with_status Failed c)) w
  end.

Definition saveAudioForPlayback (w : World) : Outcome World :=
  match render (chunks (state (this w))) with
  | Thrown shown => Thrown shown
  | Returned rendered =>
      let wavBlob := audioBufferToWav rendered in
      let '(audioUrl, w) := createObjectURL wavBlob w in
      Returned
        (update (fun s =>
           with_audioStatus Ready (with_cachePath (Some audioUrl) s)) w)
  end.

(** [Promise.allSettled] goes on when each of the [n] calls has come back:
    [order] names each of them, once. *)
Definition all_settled (order : list nat) (n : nat) : bool :=
  Nat.eqb (List.length order) n
  && List.forallb (fun i => List.existsb (Nat.eqb i) order) (List.seq 0 n).

(** [optimizedChunks]: the stored texts, joined and split again. *)
Definition optimizedChunks (s : AudioManagerState) : list AudioChunk :=
  let fullText := join blank_line (List.map text (chunks s)) in
  let optimizedTextChunks := createOptimizedChunks fullText in
  imap make_chunk optimizedTextChunks.

(** [createAudio] from the status ['creating'] up to the remote calls. *)
Definition start_synthesis (w : World) : World :=
  let w := update (fun s =>
             with_audioError None (with_audioStatus Creating s)) w in
  let optimizedChunks := optimizedChunks (state (this w)) in
  let w := update (with_chunks optimizedChunks) w in
  List.fold_left (fun w chunk => begin_chunk chunk w) optimizedChunks w.

(** The remote calls come back, in [order]. *)
Definition settle_all (synthesis : Synthesis) (order : list nat)
    (optimizedChunks : list AudioChunk) (w : World) : World :=
  List.fold_left
    (fun w i =>
       match optimizedChunks !! i with
       | Some chunk => settle_chunk chunk (synthesis chunk) w
       | None => w
       end) order w.

(** [createAudio] after [await Promise.allSettled(processingPromises)]. *)
Definition finish_synthesis (synthesis : Synthesis)
    (optimizedChunks : list AudioChunk) (w : World) : World :=
  let successfulChunks :=
    List.length
      (List.filter (fun chunk => succeeded (synthesis chunk)) optimizedChunks) in
  let failed shown w :=
    update (fun s =>
      with_audioError (Some shown) (with_audioStatus Error s)) w in
  if 0 <? successfulChunks then
    match saveAudioForPlayback w with
    | Returned w => suspend AwaitingUpload w
    | Thrown shown => failed shown w
    end
  else failed "Error: No chunks were processed successfully" w.

(** [createAudio].  [synthesis] is what the remote calls come to and
    [order] the order in which they come back.  The upload is started and
    left to itself ([AwaitingUpload]). *)
Definition createAudio (synthesis : Synthesis) (order : list nat) (w : World)
    : World :=
  if useSystemVoice (state (this w)) then update (with_audioStatus Ready) w
  else
    match audioStatus (state (this w)) with
    | Creating | Ready => w
    | NotCreated | Error =>
        let optimizedChunks := optimizedChunks (state (this w)) in
        let w := start_synthesis w in
        if negb (all_settled order (List.length optimizedChunks)) then w
        else
          finish_synthesis synthesis optimizedChunks
            (settle_all synthesis order optimizedChunks w)
    end.

(** *** Persistence *)

Inductive Encoding := AsArrayBuffer | AsBlob.

(** What the upload does to the outside, in order of time. *)
Inductive StorageEvent :=
| Fetched (url : string)
| Put (key : string) (encoding : Encoding)
| Settled (milliseconds : nat)
| Resolved (key : string)
| Assigned (storyIndex : nat) (filename : string)
| SideRecord (storyIndex : nat) (filename : string).

(** How the outside answers the upload. *)
Record Storage := {
  first_fetch : bool;
  first_put : bool;
  second_fetch : bool;
  second_put : bool;
  resolve : Outcome bool
}.

(** [if (this.config.updateStoryAudio) ...] then
    [updateArtifactStoriesJson], which throws nothing. *)
Definition assign_audio : list StorageEvent :=
  (if updateStoryAudio config
   then [Assigned (storyIndex config) audioFilename] else [])
  ++ [SideRecord (storyIndex config) audioFilename].

(** The timer [setTimeout(..., 2000)] of the first attempt. *)
Definition verify_upload (storage : Storage) : list StorageEvent :=
  Settled 2000 :: Resolved audioPath ::
  match resolve storage with
  | Returned true => assign_audio
  | Returned false => []
  | Thrown _ => []
  end.

(** The [try] block of [saveAudioToS3InBackground]. *)
Definition first_attempt (storage : Storage) (w : World)
    : list StorageEvent * Outcome World :=
  if negb (truthy (cachePath (state (this w)))) then
    ([], Thrown "Error: No cache path available for upload")
  else
    let url := the (cachePath (state (this w))) in
    if negb (first_fetch storage) then
      ([Fetched url], Thrown "TypeError: Failed to fetch")
    else if negb (first_put storage) then
      ([Fetched url; Put audioPath AsArrayBuffer], Thrown "Error: upload failed")
    else
      let w := update (with_s3Path (Some audioPath)) w in
      ([Fetched url; Put audioPath AsArrayBuffer] ++ verify_upload storage,
       Returned w).

(** The [try] block inside its [catch]. *)
Definition second_attempt (storage : Storage) (w : World)
    : list StorageEvent * Outcome World :=
  if negb (truthy (cachePath (state (this w)))) then
    ([], Thrown "Error: No cache path available for upload")
  else
    let url := the (cachePath (state (this w))) in
    if negb (second_fetch storage) then
      ([Fetched url], Thrown "TypeError: Failed to fetch")
    else if negb (second_put storage) then
      ([Fetched url; Put audioPath AsBlob], Thrown "Error: upload failed")
    else
      let w := update (with_s3Path (Some audioPath)) w in
      ([Fetched url; Put audioPath AsBlob] ++ assign_audio, Returned w).

Definition saveAudioToS3InBackground (storage : Storage) (w : World)
    : list StorageEvent * Outcome World :=
  match first_attempt storage w with
  | (events, Returned w') => (events, Returned w')
  | (events, Thrown _) =>
      match second_attempt storage w with
      | (more, Returned w') => (events ++ more, Returned w')
      | (more, Thrown _) => (events ++ more, Returned w)
      end
  end.

(** The upload [createAudio] started, as one step, taken when what the
    storage answers is known.  The source tests and reads [cachePath] for
    the first attempt before [createAudio] returns, and for the second
    attempt when the first has failed; here both are read from the state
    at this step.  The two agree in every run in which [cachePath] is not
    changed between the end of [createAudio] and this step. *)
Definition upload (storage : Storage) (w : World) : World :=
  if negb (is_suspended AwaitingUpload w) then w
  else
    match snd (saveAudioToS3InBackground storage (resume AwaitingUpload w)) with
    | Returned w' => w'
    | Thrown _ => resume AwaitingUpload w
    end.

(** *** What can happen to a manager *)

Inductive Op :=
| Initialize (narration : string) (existing : bool)
| CreateAudio (synthesis : Synthesis) (order : list nat)
| Play (options : option PlayOptions)
| Stop
| TogglePlayback (options : option PlayOptions)
| ResetAudioState
| UpdateS3Path (path : string)
| Subscribe (listener : Listener)
| Unsubscribe (listener : Listener)
| Destroy
| Played (element : nat) (answer : PlayAnswer)
| StorageAnswered (s3Path : string) (answer : StorageAnswer)
| Uploaded (storage : Storage)
| ElementEnded (element : nat)
| ElementError (element : nat)
| ElementPaused (element : nat)
| UtteranceEnd (spoken : bool)
| UtteranceError (spoken : bool)
| SpeechCheck
| ManualStopExpired
| LateSetState (newState : StateUpdate).

(** The calls of the interface, the continuations of the methods that
    wait, the events of the page, and a [setState] made by a method that
    was resumed later than the model cuts it. *)
Definition step (op : Op) (w : World) : World :=
  match op with
  | Initialize narration existing => initialize narration existing w
  | CreateAudio synthesis order => createAudio synthesis order w
  | Play options => play options w
  | Stop => stop w
  | TogglePlayback options => togglePlayback options w
  | ResetAudioState => resetAudioState w
  | UpdateS3Path path => updateS3Path path w
  | Subscribe listener => subscribe listener w
  | Unsubscribe listener => unsubscribe listener w
  | Destroy => destroy w
  | Played element answer => playFromCache_played element answer w
  | StorageAnswered s3Path answer => playFromS3_answered s3Path answer w
  | Uploaded storage => upload storage w
  | ElementEnded element => element_ended element w
  | ElementError element => element_error element w
  | ElementPaused element => element_pause_event element w
  | UtteranceEnd spoken =>
      if spoken && negb (speaking (speech (page w))) then w
      else utterance_end spoken w
  | UtteranceError spoken =>
      if spoken && negb (speaking (speech (page w))) then w
      else utterance_error spoken w
  | SpeechCheck => speech_check w
  | ManualStopExpired => manual_stop_expired w
  | LateSetState newState => setState newState w
  end.

Definition run (ops : list Op) (w : World) : World :=
  List.fold_left (fun w op => step op w) ops w.

(** *** What is heard *)

Inductive Source :=
| ElementSource (id : nat)
| BufferNode (id : nat)
| Voice.

Definition audible (src : Source) (w : World) : bool :=
  match src with
  | ElementSource id =>
      match elements (page w) !! id with
      | Some e => negb (el_paused e) && negb (el_muted e) && negb (el_failed e)
      | None => false
      end
  | BufferNode id =>
      match sources (page w) !! id with
      | Some b => bs_started b && bs_connected b
      | None => false
      end
  | Voice => speaking (speech (page w))
  end.

End WithConfig.

End Manager.

(** ** The record of the stories *)

Module Stories.
Import Js Model Assembler Manager.

(** A value of [JSON.parse]; an object is the list of its properties in
    the order of their insertion, no key twice. *)
#[warnings="-register-all"]
Inductive Json :=
| JNull
| JBool (b : bool)
| JNumber (q : Q)
| JString (s : string)
| JArray (items : list Json)
| JObject (fields : list (string * Json)).

(** [object[key]] *)
Fixpoint get_field (key : string) (fields : list (string * Json))
    : option Json :=
  match fields with
  | [] => None
  | (k, v) :: rest => if String.eqb k key then Some v else get_field key rest
  end.

(** [object[key] = v]: a property the object has keeps its place, a new
    one comes last. *)
Fixpoint set_field (key : string) (v : Json) (fields : list (string * Json))
    : list (string * Json) :=
  match fields with
  | [] => [(key, v)]
  | (k, old) :: rest =>
      if String.eqb k key then (k, v) :: rest
      else (k, old) :: set_field key v rest
  end.

(** [target.story_audio = v] in the body of a class, which is strict
    code, as far as [JSON.stringify] shows it afterwards: an object takes
    the property, an array takes it as a property that is not an element,
    [null] and the primitive values throw a [TypeError]. *)
Definition set_story_audio (v : Json) (target : Json) : Outcome Json :=
  match target with
  | JObject fields => Returned (JObject (set_field "story_audio" v fields))
  | JArray items => Returned (JArray items)
  | _ => Thrown "TypeError"
  end.

(** [stories[storyIndex].story_audio = audioFilename]; the index is within
    the array where the source makes the assignment. *)
Definition assign (storyIndex : nat) (audioFilename : string)
    (stories : list Json) : Outcome (list Json) :=
  match stories !! storyIndex with
  | None => Thrown "TypeError"
  | Some story =>
      match set_story_audio (JString audioFilename) story with
      | Returned story' => Returned (<[storyIndex := story']> stories)
      | Thrown shown => Thrown shown
      end
  end.

(** The story [updateArtifactStoriesJson] makes up for a place. *)
Definition default_story (index : nat) : Json :=
  JObject [("culture", JString (String.append "Story " (string_of_nat (index + 1))));
           ("view", JString "");
           ("culture_story", JString "");
           ("story_audio", JString "")].

(** [[...Array(Math.max(storyIndex + 1, 3))].map(...)] *)
Definition default_stories (storyIndex : nat) : list Json :=
  List.map default_story (List.seq 0 (Nat.max (storyIndex + 1) 3)).

(** [this.config.artifactDescription?.stories], for a description that is
    plain data or is missing. *)
Definition described_stories (artifactDescription : option Json)
    : option Json :=
  match artifactDescription with
  | Some (JObject fields) => get_field "stories" fields
  | _ => None
  end.

(** How the storage answers: [stored] is what [enhancedStorage.get], the
    decoding of its body and [JSON.parse] come to; the two flags tell
    whether the [put] of the updated file and the [put] of the new file
    go through. *)
Record StoryStorage := {
  stored : Outcome Json;
  put_updated : bool;
  put_new : bool
}.

(** A call of [enhancedStorage.put], with what is written, before
    [JSON.stringify], and whether it went through. *)
Inductive Written :=
| Wrote (path : string) (payload : Json) (done : bool).

Section WithConfig.

Variable config : AudioManagerConfig.
Variable artifactDescription : option Json.

(** [`${userId}/${artifactId}/artifact_stories.json`] *)
Definition jsonPath : string :=
  String.append (userId config)
    (String.append "/" (String.append (artifactId config)
       "/artifact_stories.json")).

(** The inner [try] block. *)
Definition update_stored (storyIndex : nat) (audioFilename : string)
    (storage : StoryStorage) : list Written * Outcome unit :=
  match stored storage with
  | Thrown shown => ([], Thrown shown)
  | Returned (JArray storiesArray) =>
      if storyIndex <? List.length storiesArray then
        match assign storyIndex audioFilename storiesArray with
        | Thrown shown => ([], Thrown shown)
        | Returned updated =>
            if put_updated storage
            then ([Wrote jsonPath (JArray updated) true], Returned tt)
            else ([Wrote jsonPath (JArray updated) false],
                  Thrown "Error: upload failed")
        end
      else ([], Returned tt)
  | Returned _ => ([], Returned tt)
  end.

(** [newStoriesArray], before the filename is put in. *)
Definition newStoriesArray (storyIndex : nat) : list Json :=
  match described_stories artifactDescription with
  | Some (JArray artifactStories) => artifactStories
  | _ => default_stories storyIndex
  end.

(** The [try] block inside [catch (getError)]; what it throws is logged
    only. *)
Definition write_new (storyIndex : nat) (audioFilename : string)
    (storage : StoryStorage) : list Written :=
  let stories := newStoriesArray storyIndex in
  let assigned :=
    if storyIndex <? List.length stories
    then assign storyIndex audioFilename stories
    else Returned stories in
  match assigned with
  | Thrown _ => []
  | Returned stories => [Wrote jsonPath (JArray stories) (put_new storage)]
  end.

(** [updateArtifactStoriesJson]: the calls of [put] it makes; it throws
    nothing. *)
Definition updateArtifactStoriesJson (storyIndex : nat)
    (audioFilename : string) (storage : StoryStorage) : list Written :=
  match update_stored storyIndex audioFilename storage with
  | (writes, Returned _) => writes
  | (writes, Thrown _) => writes ++ write_new storyIndex audioFilename storage
  end.

End WithConfig.

(** The filename a story of the record names, if it is an object that
    names one. *)
Definition story_audio (story : Json) : option Json :=
  match story with
  | JObject fields => get_field "story_audio" fields
  | _ => None
  end.

Definition is_object (v : Json) : bool :=
  match v with JObject _ => true | _ => false end.

Definition went_through (w : Written) : bool :=
  match w with Wrote _ _ done => done end.

Definition path_of (w : Written) : string :=
  match w with Wrote path _ _ => path end.

End Stories.

(** ** The state record as an object that is shared

    [Manager] above holds the state by value.  What a listener can do to
    the object it is handed depends on which objects are shared, so the
    store and the hub are given once more with the state record and the
    [chunks] array as objects of a heap, held by reference.  A listener is
    an identity and what it does to the object it receives. *)

Module Shared.
Import Model.

(** A state record in the heap; [o_chunks] is a reference to an array. *)
Record StateObject := {
  o_isPlaying : bool;
  o_currentChunkIndex : nat;
  o_chunks : nat;
  o_cachePath : option string;
  o_s3Path : option string;
  o_audioStatus : AudioStatus;
  o_audioError : option string;
  o_useSystemVoice : bool
}.

Record ObjectUpdate := {
  ou_isPlaying : option bool;
  ou_currentChunkIndex : option nat;
  ou_chunks : option nat;
  ou_cachePath : option (option string);
  ou_s3Path : option (option string);
  ou_audioStatus : option AudioStatus;
  ou_audioError : option (option string);
  ou_useSystemVoice : option bool
}.

(** [{ ...s, ...u }] *)
Definition merge_object (s : StateObject) (u : ObjectUpdate) : StateObject :=
  {| o_isPlaying := override (o_isPlaying s) (ou_isPlaying u);
     o_currentChunkIndex :=
       override (o_currentChunkIndex s) (ou_currentChunkIndex u);
     o_chunks := override (o_chunks s) (ou_chunks u);
     o_cachePath := override (o_cachePath s) (ou_cachePath u);
     o_s3Path := override (o_s3Path s) (ou_s3Path u);
     o_audioStatus := override (o_audioStatus s) (ou_audioStatus u);
     o_audioError := override (o_audioError s) (ou_audioError u);
     o_useSystemVoice := override (o_useSystemVoice s) (ou_useSystemVoice u) |}.

Inductive Object :=
| StateObj (s : StateObject)
| ArrayObj (a : list AudioChunk).

(** What a listener does with the record it receives: nothing, assign
    fields of it, or change its [chunks] array in place
    ([received.chunks.splice(0, n, ...a)]). *)
Inductive Mutation :=
| Keep
| Assign (change : StateObject -> StateObject)
| Splice (a : list AudioChunk).

Record Observer := {
  who : Listener;
  does : Mutation
}.

(** The store and the hub of a manager; [handed] lists, latest first, who
    was handed which object. *)
Record Hub := {
  heap : gmap nat Object;
  this_state : nat;
  observers : list Observer;
  destroyed : bool;
  handed : list (Listener * nat)
}.

Definition set_heap (h : gmap nat Object) (m : Hub) : Hub :=
  {| heap := h; this_state := this_state m; observers := observers m;
     destroyed := destroyed m; handed := handed m |}.

Definition alloc (o : Object) (h : gmap nat Object) : nat * gmap nat Object :=
  let l := fresh (dom h) in (l, <[l := o]> h).

Definition read_state (h : gmap nat Object) (l : nat) : option StateObject :=
  match h !! l with
  | Some (StateObj s) => Some s
  | _ => None
  end.

Definition read_array (h : gmap nat Object) (l : nat) : option (list AudioChunk) :=
  match h !! l with
  | Some (ArrayObj a) => Some a
  | _ => None
  end.

(** The record at [l] with its array read: what a reader of the record
    sees. *)
Definition read (h : gmap nat Object) (l : nat) : option AudioManagerState :=
  match read_state h l with
  | Some s =>
      match read_array h (o_chunks s) with
      | Some a =>
          Some {| isPlaying := o_isPlaying s;
                  currentChunkIndex := o_currentChunkIndex s;
                  chunks := a;
                  cachePath := o_cachePath s;
                  s3Path := o_s3Path s;
                  audioStatus := o_audioStatus s;
                  audioError := o_audioError s;
                  useSystemVoice := o_useSystemVoice s |}
      | None => None
      end
  | None => None
  end.

(** What [getState()] shows of the manager. *)
Definition view (m : Hub) : option AudioManagerState :=
  read (heap m) (this_state m).

Definition mutate (what : Mutation) (received : nat) (h : gmap nat Object)
    : gmap nat Object :=
  match what with
  | Keep => h
  | Assign change =>
      match read_state h received with
      | Some s => <[received := StateObj (change s)]> h
      | None => h
      end
  | Splice a =>
      match read_state h received with
      | Some s =>
          match read_array h (o_chunks s) with
          | Some _ => <[o_chunks s := ArrayObj a]> h
          | None => h
          end
      | None => h
      end
  end.

(** [listener(object)] *)
Definition call (o : Observer) (received : nat) (m : Hub) : Hub :=
  {| heap := mutate (does o) received (heap m);
     this_state := this_state m; observers := observers m;
     destroyed := destroyed m;
     handed := (who o, received) :: handed m |}.

Definition setState (newState : ObjectUpdate) (m : Hub) : Hub :=
  match read_state (heap m) (this_state m) with
  | None => m
  | Some s =>
      (* [this.state = { ...this.state, ...newState }] *)
      let merged := merge_object s newState in
      let '(l, h) := alloc (StateObj merged) (heap m) in
      let m := {| heap := h; this_state := l; observers := observers m;
                  destroyed := destroyed m; handed := handed m |} in
      if destroyed m then m
      else
        (* [const stateCopy = { ...this.state }] *)
        let '(stateCopy, h) := alloc (StateObj merged) (heap m) in
        List.fold_left (fun m o => call o stateCopy m) (observers m)
          (set_heap h m)
  end.

Definition subscribe (o : Observer) (m : Hub) : Hub :=
  match read_state (heap m) (this_state m) with
  | None => m
  | Some s =>
      let '(copy, h) := alloc (StateObj s) (heap m) in
      call o copy
        {| heap := h; this_state := this_state m;
           observers := observers m ++ [o];
           destroyed := destroyed m; handed := handed m |}
  end.

(** The manager of [constructor]: an empty array and the first record. *)
Definition constructor (system : bool) : Hub :=
  {| heap :=
       <[1 := StateObj
                {| o_isPlaying := false; o_currentChunkIndex := 0;
                   o_chunks := 0; o_cachePath := None; o_s3Path := None;
                   o_audioStatus := if system then Ready else NotCreated;
                   o_audioError := None; o_useSystemVoice := system |}]>
         (<[0 := ArrayObj []]> ∅);
     this_state := 1; observers := []; destroyed := false; handed := [] |}.

(** [{ ...this.state, isPlaying: v }] as an argument of [setState]. *)
Definition playing (v : bool) (s : StateObject) : ObjectUpdate :=
  {| ou_isPlaying := Some v;
     ou_currentChunkIndex := Some (o_currentChunkIndex s);
     ou_chunks := Some (o_chunks s);
     ou_cachePath := Some (o_cachePath s);
     ou_s3Path := Some (o_s3Path s);
     ou_audioStatus := Some (o_audioStatus s);
     ou_audioError := Some (o_audioError s);
     ou_useSystemVoice := Some (o_useSystemVoice s) |}.

(** [this.setState({ ...this.state, isPlaying: v })] *)
Definition set_playing (v : bool) (m : Hub) : Hub :=
  match read_state (heap m) (this_state m) with
  | Some s => setState (playing v s) m
  | None => m
  end.

(** [destroy], for the store and the hub: the flag, the [setState] calls
    of [stop], and the list of listeners emptied. *)
Definition destroy (m : Hub) : Hub :=
  let m := {| heap := heap m; this_state := this_state m;
              observers := observers m; destroyed := true;
              handed := handed m |} in
  let m := match read_state (heap m) (this_state m) with
           | Some s => if o_isPlaying s then set_playing false m else m
           | None => m
           end in
  let m := set_playing false m in
  {| heap := heap m; this_state := this_state m; observers := [];
     destroyed := destroyed m; handed := handed m |}.

(** The listener leaves the [chunks] array alone. *)
Definition spares_chunks (o : Observer) : bool :=
  match does o with
  | Splice _ => false
  | _ => true
  end.

(** A state by value, from a record and the content of its array. *)
Definition as_state (s : StateObject) (a : list AudioChunk) : AudioManagerState :=
  {| isPlaying := o_isPlaying s;
     currentChunkIndex := o_currentChunkIndex s;
     chunks := a;
     cachePath := o_cachePath s;
     s3Path := o_s3Path s;
     audioStatus := o_audioStatus s;
     audioError := o_audioError s;
     useSystemVoice := o_useSystemVoice s |}.

End Shared.

(** ** Shapes of text *)

Module Text.
Import Js.

(** The last character of the string is one of [.!?]. *)
Fixpoint ends_with_terminator (s : string) : bool :=
  match s with
  | EmptyString => false
  | String c s' =>
      match s' with
      | EmptyString => is_terminator c
      | _ => ends_with_terminator s'
      end
  end.

(** The first character of the string is one of [.!?]. *)
Definition starts_with_terminator (s : string) : bool :=
  match s with
  | EmptyString => false
  | String c _ => is_terminator c
  end.

(** One of [.!?] occurs in the string. *)
Fixpoint has_terminator (s : string) : bool :=
  match s with
  | EmptyString => false
  | String c s' => is_terminator c || has_terminator s'
  end.

(** The units of [splitTextIntoParagraphs] or [createOptimizedChunks], one
    after the other. *)
Definition glued (units : list string) : string := String.concat "" units.

(** The characters of a string that are not white space. *)
Fixpoint ink (s : string) : string :=
  match s with
  | EmptyString => EmptyString
  | String c s' => if is_space c then ink s' else String c (ink s')
  end.

End Text.

(** ** Notions the properties are stated with *)

Module Spec.
Import Js Model Assembler Manager.

(** A chunk as [createAudio] leaves it once its remote call is back. *)
Definition settled (synthesis : Synthesis) (c : AudioChunk) : AudioChunk :=
  match synthesis c with
  | Returned buffer =>
      {| index := index c; text := text c; audioBuffer := Some buffer;
         status := Complete; error := error c |}
  | Thrown shown =>
      {| index := index c; text := text c; audioBuffer := audioBuffer c;
         status := Failed; error := Some shown |}
  end.

(** The samples a synthesis gives for a list of chunks, failures left
    out. *)
Definition synthesized (synthesis : Synthesis) (l : list AudioChunk) : list Z :=
  List.flat_map
    (fun c => match synthesis c with
              | Returned buffer => ab_data buffer
              | Thrown _ => []
              end) l.

(** A step that changes nothing but the [chunks] of the state (and the
    journal), by [h]. *)
Definition chunk_step (F : World -> World)
    (h : list AudioChunk -> list AudioChunk) : Prop :=
  forall w,
    this (F w)
    = set_state (with_chunks (h (chunks (state (this w)))) (state (this w)))
        (this w)
    /\ page (F w) = page w.

(** [createAudio] has a job to start. *)
Definition starts_job (w : World) : bool :=
  negb (useSystemVoice (state (this w)))
  && match audioStatus (state (this w)) with
     | NotCreated | Error => true
     | Creating | Ready => false
     end.

(** The snapshots a listener was handed, latest first. *)
Definition received (l : Listener) (w : World) : list AudioManagerState :=
  List.map snd
    (List.filter (fun d => Nat.eqb (fst d) l) (delivered (journal w))).

Definition subscribes (l : Listener) (op : Op) : bool :=
  match op with
  | Subscribe l' => Nat.eqb l' l
  | _ => false
  end.

(** The snapshots [subscribe] hands [l] in a run, latest first: one for
    each call [subscribe(l)], the state at the call. *)
Fixpoint answers (config : AudioManagerConfig) (l : Listener) (ops : list Op)
    (w : World) : list AudioManagerState :=
  match ops with
  | [] => []
  | op :: ops =>
      answers config l ops (step config op w)
      ++ (if subscribes l op then [state (this w)] else [])
  end.

(** From [w] to [w'] the manager stays destroyed and hands no snapshot to
    anyone. *)
Definition hush (w w' : World) : Prop :=
  isDestroyed (this w') = true
  /\ delivered (journal w') = delivered (journal w).

(** From [w] to [w'] the listener [l] is not registered and is handed
    nothing. *)
Definition mute (l : Listener) (w w' : World) : Prop :=
  ~ List.In l (stateListeners (this w'))
  /\ received l w' = received l w.

(** The parent-record callback is called before any look-up of the stored
    object has been made. *)
Fixpoint assigned_unverified (events : list StorageEvent) : bool :=
  match events with
  | [] => false
  | Resolved _ :: _ => false
  | Assigned _ _ :: _ => true
  | _ :: rest => assigned_unverified rest
  end.

Definition is_put (e : StorageEvent) : bool :=
  match e with Put _ _ => true | _ => false end.

Definition is_assigned (e : StorageEvent) : bool :=
  match e with Assigned _ _ => true | _ => false end.

(** What [play] turns to. *)
Inductive Backend :=
| AlreadyPlaying
| LocalTrack (path : string)
| RemoteTrack (key : string)
| OnDeviceVoice
| NotReady
| NoSource.

(** The order in which [play] looks for a backend, as a decision on the
    state and the options (C2 as amended, in its own words). *)
Definition select (s : AudioManagerState) (options : option PlayOptions)
    : Backend :=
  if isPlaying s then AlreadyPlaying
  else if wants_file options && truthy (cachePath s)
  then LocalTrack (the (cachePath s))
  else if wants_file options && truthy (s3Path s)
  then RemoteTrack (the (s3Path s))
  else if useSystemVoice s then OnDeviceVoice
  else if negb (is_ready (audioStatus s)) then NotReady
  else if truthy (cachePath s) then LocalTrack (the (cachePath s))
  else if truthy (s3Path s) then RemoteTrack (the (s3Path s))
  else NoSource.

(** What [play] does for the backend it turns to; [w] is the world in
    which [play] is called. *)
Definition enact (b : Backend) (w : World) : World :=
  let playing := update (with_isPlaying true) w in
  match b with
  | AlreadyPlaying => w
  | LocalTrack path => playFromCache path playing
  | RemoteTrack key => playFromS3 key playing
  | OnDeviceVoice => playWithSystemVoice playing
  | NotReady => update (with_isPlaying false) playing
  | NoSource =>
      update (fun s =>
        with_audioError (Some "No audio path available for playback")
          (with_audioStatus Error (with_isPlaying false s))) playing
  end.

(** The devices of a manager and its references to them. *)
Definition devices (w : World) :=
  (elements (page w), sources (page w), speech (page w),
   currentAudioElement (this w), currentSource (this w),
   speechSynthesis (this w)).

(** A function on worlds that leaves the devices alone. *)
Definition keeps (f : World -> World) : Prop :=
  forall w, devices (f w) = devices w.

(** An element that sounds, or will when [play()] is called on it. *)
Definition live (e : AudioElement) : bool :=
  negb (el_failed e) && negb (el_muted e)
  && (negb (el_paused e) || el_awaited e).

Definition element_ok (current : option nat) (id : nat) (e : AudioElement)
    : Prop :=
  (live e = true -> current = Some id)
  /\ (el_paused e = false -> el_awaited e = false)
  /\ (el_muted e = true -> el_onended e = false /\ el_onerror e = false).

(** The invariant of the playback engine: the manager has a reference to
    every element that sounds or will, no buffer source exists or is
    referred to, and the voice speaks only while the manager has no
    element. *)
Record Safe (w : World) : Prop := {
  safe_sources : sources (page w) = [];
  safe_no_source : currentSource (this w) = None;
  safe_elements :
    forall id e, elements (page w) !! id = Some e ->
      element_ok (currentAudioElement (this w)) id e;
  safe_voice :
    speaking (speech (page w)) || pending (speech (page w)) = true ->
    currentAudioElement (this w) = None /\ speechSynthesis (this w) = true
}.

(** Nothing sounds and nothing will: what [stopAnyExistingAudio] leaves. *)
Record Silent (w : World) : Prop := {
  silent_current : currentAudioElement (this w) = None;
  silent_elements :
    forall id e, elements (page w) !! id = Some e -> live e = false;
  silent_voice : idle_engine (speech (page w)) = true
}.

End Spec.

(** ** Sample worlds *)

Module Sample.
Import Js Model Assembler Manager.

Definition config : AudioManagerConfig :=
  {| userId := "user"; artifactId := "artifact"; storyIndex := 0;
     language := "en-US"; voiceId := "Joanna"; updateStoryAudio := true |}.

Definition system_config : AudioManagerConfig :=
  {| userId := "user"; artifactId := "artifact"; storyIndex := 0;
     language := "en-US"; voiceId := "system"; updateStoryAudio := true |}.

Definition narration : string :=
  String.append "One."
    (String.append blank_line
       (String.append "Two." (String.append blank_line "Three."))).

Definition tone (z : Z) : AudioBuffer := {| ab_first := z; ab_rest := [z; z] |}.

Definition all_succeed : Synthesis :=
  fun c => Returned (tone (Z.of_nat (index c) + 1)).


Definition second_fails : Synthesis :=
  fun c => if Nat.eqb (index c) 1 then Thrown "Error: Network Error"
           else Returned (tone (Z.of_nat (index c) + 1)).

(** A paragraph of 3000 letters, with no sentence end in it. *)
Definition long_paragraph : string := replicate_char 3000 "a"%char.

(** Five paragraphs of twenty letters. *)
Definition five_paragraphs : string :=
  join blank_line (List.repeat (replicate_char 20 "a"%char) 5).

(** A manager with a listener, after [initialize] found no stored audio. *)
Definition fresh : World :=
  initialize config narration false (subscribe 7 (constructor config true)).

(** The same after a [createAudio] in which every unit succeeded. *)
Definition created : World := createAudio all_succeed [0; 1; 2] fresh.


(** [created], playing its local track. *)
Definition playing : World :=
  playFromCache_played 0 PlayStarted (play None created).

(** [created] after its element failed to load: the status is [Ready] and
    no track is known any more. *)
Definition lost_track : World := element_error 0 (play None created).

(** A storage that refuses the first upload and takes the second. *)
Definition second_chance : Storage :=
  {| first_fetch := true; first_put := false; second_fetch := true;
     second_put := true; resolve := Returned true |}.

(** A storage that takes the first upload and serves it back. *)
Definition reliable : Storage :=
  {| first_fetch := true; first_put := true; second_fetch := true;
     second_put := true; resolve := Returned true |}.

(** A listener that empties the [chunks] array of what it receives and
    puts one chunk of its own there. *)
Definition meddler : Shared.Observer :=
  {| Shared.who := 1;
     Shared.does := Shared.Splice [make_chunk 0 "overwritten"] |}.

(** A hub with the meddler subscribed. *)
Definition meddled : Shared.Hub :=
  Shared.subscribe meddler (Shared.constructor false).

(** A hub destroyed, to which a listener subscribes afterwards. *)
Definition late_subscriber : Shared.Hub :=
  Shared.subscribe {| Shared.who := 2; Shared.does := Shared.Keep |}
    (Shared.destroy (Shared.constructor false)).

(** A manager for the voice of the device. *)
Definition on_device : World :=
  initialize system_config narration false (constructor system_config true).

End Sample.

(** ** More sample texts *)

Module Cases.
Import Js.

Fixpoint repeat_string (n : nat) (s : string) : string :=
  match n with
  | 0 => EmptyString
  | S k => String.append s (repeat_string k s)
  end.

(** A paragraph of thirty sentences, 570 characters. *)
Definition thirty_sentences : string := repeat_string 30 " The story goes on.".

(** Text with no sentence end. *)
Definition loose_end : string := " and then it was over".

(** Text of white space only, with a blank line in it. *)
Definition white : string :=
  String.append "  " (String.append blank_line " ").

(** A paragraph of 501 characters that ends with a full stop, and three
    words after it. *)
Definition told : string := String.append (replicate_char 500 "a"%char) ".".
Definition lost_end : string := String.append told " lost end".

End Cases.

(** ** Sample records of stories *)

Module StoryCases.
Import Js Model Assembler Manager Stories.

Definition tale (culture audio : string) : Json :=
  JObject [("culture", JString culture);
           ("culture_story", JString "Once upon a time.");
           ("story_audio", JString audio)].

Definition record : list Json :=
  [tale "Maya" "story_audio_1.mp3"; tale "Inca" ""].

(** A storage that has [record]. *)
Definition reads (put_updated put_new : bool) : StoryStorage :=
  {| stored := Returned (JArray record);
     put_updated := put_updated; put_new := put_new |}.

Definition unreadable : StoryStorage :=
  {| stored := Thrown "Error: Failed to parse JSON data";
     put_updated := true; put_new := true |}.

Definition description : option Json :=
  Some (JObject [("title", JString "Mask");
                 ("stories", JArray [tale "Maya" ""; JNull])]).

End StoryCases.

(** * Properties *)

(** ** Strings *)

Section StringFacts.
Import Js.

Lemma length_append (a b : string) :
  String.length (String.append a b) = String.length a + String.length b.
Proof. induction a as [|c a IH]; simpl; [reflexivity | now rewrite IH]. Qed.

Lemma append_assoc (a b c : string) :
  String.append (String.append a b) c = String.append a (String.append b c).
Proof. induction a as [|x a IH]; simpl; [reflexivity | now rewrite IH]. Qed.

Lemma append_empty_r (a : string) : String.append a EmptyString = a.
Proof. induction a as [|x a IH]; simpl; [reflexivity | now rewrite IH]. Qed.

Lemma length_blank_line : String.length blank_line = 2.
Proof. reflexivity. Qed.

Lemma length_zero_empty (s : string) : String.length s = 0 -> s = EmptyString.
Proof. destruct s; [reflexivity | discriminate]. Qed.

Lemma nonempty_length (s : string) : nonempty s = (0 <? String.length s).
Proof. destruct s; reflexivity. Qed.

Lemma join_cons2 (sep x y : string) (l : list string) :
  join sep (x :: y :: l) = String.append x (String.append sep (join sep (y :: l))).
Proof. reflexivity. Qed.

Lemma join_app (sep : string) (l1 l2 : list string) :
  l1 <> [] -> l2 <> [] ->
  join sep (l1 ++ l2)
  = String.append (join sep l1) (String.append sep (join sep l2)).
Proof.
  intros H1 H2. induction l1 as [|x l1 IH]; [congruence|].
  destruct l1 as [|y l1].
  - destruct l2 as [|z l2]; [congruence | reflexivity].
  - change ((x :: y :: l1) ++ l2) with (x :: y :: (l1 ++ l2)).
    rewrite !join_cons2.
    change (y :: l1 ++ l2) with ((y :: l1) ++ l2).
    rewrite IH by discriminate. now rewrite ?append_assoc.
Qed.

Lemma join_snoc (sep : string) (l : list string) (x : string) :
  l <> [] ->
  join sep (l ++ [x]) = String.append (join sep l) (String.append sep x).
Proof. intros H. now rewrite join_app by (assumption || discriminate). Qed.

(** Appending a paragraph to the last unit, or starting a new unit with it,
    joins to the same text. *)
Lemma join_merge_last (sep : string) (l rest : list string) (a b : string) :
  join sep ((l ++ [String.append a (String.append sep b)]) ++ rest)
  = join sep ((l ++ [a]) ++ b :: rest).
Proof.
  assert (Hlast : join sep (l ++ [String.append a (String.append sep b)])
                  = join sep ((l ++ [a]) ++ [b])).
  { destruct l as [|x l]; [reflexivity|].
    rewrite !join_snoc by (try discriminate; now destruct l).
    now rewrite !append_assoc. }
  destruct rest as [|r rest].
  - now rewrite app_nil_r.
  - change (b :: r :: rest) with ([b] ++ r :: rest).
    rewrite (app_assoc (l ++ [a]) [b]).
    rewrite (join_app sep (l ++ [_])) by (try discriminate; now destruct l).
    rewrite (join_app sep ((l ++ [a]) ++ [b]))
      by (try discriminate; now destruct l).
    now rewrite Hlast.
Qed.

Lemma split_blank_line_nonempty (s : string) : split_blank_line s <> [].
Proof.
  destruct s as [|c s]; simpl; [discriminate|].
  destruct s as [|c' rest].
  - discriminate.
  - destruct (Ascii.eqb c LF && Ascii.eqb c' LF); [discriminate|].
    unfold push_char. now destruct (split_blank_line (String c' rest)).
Qed.

Lemma join_push_char (sep : string) (c : ascii) (l : list string) :
  l <> [] -> join sep (push_char c l) = String c (join sep l).
Proof.
  destruct l as [|p ps]; [congruence|]. intros _.
  destruct ps; reflexivity.
Qed.

Lemma split_blank_line_eq (c : ascii) (s' : string) :
  split_blank_line (String c s')
  = match s' with
    | String c' rest =>
        if Ascii.eqb c LF && Ascii.eqb c' LF
        then EmptyString :: split_blank_line rest
        else push_char c (split_blank_line s')
    | EmptyString => push_char c (split_blank_line s')
    end.
Proof. reflexivity. Qed.

(** Splitting on the separator and joining with it gives the text back. *)
Lemma join_split_blank_line (s : string) :
  join blank_line (split_blank_line s) = s.
Proof.
  assert (H : forall n s, String.length s <= n ->
                join blank_line (split_blank_line s) = s).
  { clear s. induction n as [|n IH]; intros s Hn.
    - destruct s; [reflexivity | simpl in Hn; lia].
    - destruct s as [|c s']; [reflexivity|].
      rewrite split_blank_line_eq.
      destruct s' as [|c' rest].
      + reflexivity.
      + destruct (Ascii.eqb c LF && Ascii.eqb c' LF) eqn:E.
        * apply andb_true_iff in E as [E1 E2].
          apply Ascii.eqb_eq in E1, E2. subst c c'.
          pose proof (split_blank_line_nonempty rest) as Hne.
          destruct (split_blank_line rest) as [|p ps] eqn:Er; [congruence|].
          rewrite join_cons2. rewrite <- Er.
          rewrite IH by (simpl in *; lia). reflexivity.
        * rewrite join_push_char by apply split_blank_line_nonempty.
          rewrite IH by (simpl in *; lia). reflexivity. }
  apply (H (String.length s)). lia.
Qed.

Lemma trimStart_nonempty_first (s : string) :
  trimStart s = EmptyString \/
  exists c r, trimStart s = String c r /\ is_space c = false.
Proof.
  induction s as [|c s IH]; simpl; [now left|].
  destruct (is_space c) eqn:E; [exact IH|]. right. eauto.
Qed.

Lemma chop_nonempty (s : string) : chop s <> [].
Proof.
  induction s as [|c s IH]; simpl; [discriminate|].
  destruct (is_space c); [discriminate|].
  unfold push_char. now destruct (chop s).
Qed.

Lemma words_space (c : ascii) (s : string) :
  is_space c = true -> words (String c s) = words s.
Proof. intros H. unfold words. simpl. now rewrite H. Qed.

Lemma chop_app_space (a b : string) (c : ascii) :
  is_space c = true ->
  chop (String.append a (String c b)) = chop a ++ chop b.
Proof.
  intros Hc. induction a as [|x a IH]; simpl.
  - now rewrite Hc.
  - rewrite IH. destruct (is_space x); [reflexivity|].
    pose proof (chop_nonempty a). now destruct (chop a).
Qed.

Lemma words_app_space (a b : string) (c : ascii) :
  is_space c = true ->
  words (String.append a (String c b)) = words a ++ words b.
Proof.
  intros Hc. unfold words. rewrite chop_app_space by assumption.
  apply List.filter_app.
Qed.

Lemma is_space_LF : is_space LF = true.
Proof. reflexivity. Qed.

Lemma words_app_blank_line (a b : string) :
  words (String.append a (String.append blank_line b)) = words a ++ words b.
Proof.
  unfold blank_line. simpl.
  rewrite words_app_space by apply is_space_LF.
  now rewrite words_space by apply is_space_LF.
Qed.

Lemma words_join_blank_line (l : list string) :
  words (join blank_line l) = List.flat_map words l.
Proof.
  induction l as [|x l IH]; [reflexivity|].
  destruct l as [|y l].
  - simpl. now rewrite app_nil_r.
  - rewrite join_cons2, words_app_blank_line, IH. reflexivity.
Qed.

Lemma words_trimStart (s : string) : words (trimStart s) = words s.
Proof.
  induction s as [|c s IH]; [reflexivity|]. simpl.
  destruct (is_space c) eqn:E; [|reflexivity].
  now rewrite words_space.
Qed.

Lemma reverse_empty (t : string) : reverse t = EmptyString -> t = EmptyString.
Proof.
  unfold reverse. intros H.
  apply (f_equal list_ascii_of_string) in H.
  rewrite list_ascii_of_string_of_list_ascii in H. simpl in H.
  destruct t as [|c t]; [reflexivity|]. simpl in H.
  destruct (rev (list_ascii_of_string t)); discriminate.
Qed.

Lemma trimStart_ends_nonspace (l : list ascii) (c : ascii) :
  is_space c = false ->
  trimStart (string_of_list_ascii (l ++ [c])) <> EmptyString.
Proof.
  intros Hc. induction l as [|x l IH]; simpl.
  - now rewrite Hc.
  - destruct (is_space x); [exact IH | discriminate].
Qed.

(** A string that [trim] empties has no word. *)
Lemma words_blank (s : string) : trim s = EmptyString -> words s = [].
Proof.
  unfold trim, trimEnd. intros H.
  rewrite <- words_trimStart.
  destruct (trimStart_nonempty_first s) as [E | (c & r & E & Hc)].
  - now rewrite E.
  - exfalso. rewrite E in H. apply reverse_empty in H.
    unfold reverse in H. simpl in H.
    now apply trimStart_ends_nonspace in H.
Qed.

Lemma trim_empty : trim EmptyString = EmptyString.
Proof. reflexivity. Qed.

End StringFacts.

(** ** Text chunker *)

Section ChunkerFacts.
Import Js Chunker.

Lemma paragraphs_nonempty (text : string) :
  List.Forall (fun p => 0 < String.length p) (paragraphs text).
Proof.
  unfold paragraphs. apply List.Forall_forall. intros p Hp.
  apply List.filter_In in Hp as [_ Hp].
  destruct p; [discriminate | simpl; lia].
Qed.

Lemma push_last_nonempty (chunks : list string) (cur : string) :
  0 < String.length cur -> push_last (chunks, cur) = chunks ++ [cur].
Proof.
  intros H. unfold push_last. simpl.
  now destruct (Nat.ltb_spec 0 (String.length cur)); [|lia].
Qed.

Lemma push_last_empty (chunks : list string) :
  push_last (chunks, EmptyString) = chunks.
Proof. reflexivity. Qed.

Lemma pack_cons (limit : nat) (paragraph : string) (rest chunks : list string)
    (cur : string) :
  pack limit (paragraph :: rest) chunks cur
  = if (limit <? String.length cur + String.length paragraph + 2)
       && (0 <? String.length cur)
    then pack limit rest (chunks ++ [cur]) paragraph
    else if 0 <? String.length cur
    then pack limit rest chunks
           (String.append cur (String.append blank_line paragraph))
    else pack limit rest chunks paragraph.
Proof. reflexivity. Qed.

(** The units are the paragraphs, grouped: joined with the separator they
    give the same text as the paragraphs. *)
Lemma pack_join (limit : nat) (ps : list string) :
  Forall (fun p => 0 < String.length p) ps ->
  forall chunks cur,
    join blank_line (push_last (pack limit ps chunks cur))
    = join blank_line (push_last (chunks, cur) ++ ps).
Proof.
  induction 1 as [|p ps Hp _ IH]; intros chunks cur.
  - now rewrite app_nil_r.
  - rewrite pack_cons.
    destruct (Nat.ltb_spec 0 (String.length cur)) as [Hc|Hc].
    + rewrite (push_last_nonempty chunks cur Hc).
      rewrite andb_true_r.
      destruct (limit <? _).
      * rewrite IH, push_last_nonempty by assumption.
        now rewrite <- !app_assoc.
      * rewrite IH, push_last_nonempty
          by (rewrite !length_append, length_blank_line; lia).
        apply join_merge_last.
    + rewrite andb_false_r.
      assert (cur = EmptyString) as -> by (apply length_zero_empty; lia).
      rewrite IH, push_last_nonempty, push_last_empty by assumption.
      now rewrite <- app_assoc.
Qed.

Lemma pack_bound (limit bound : nat) (ps : list string) :
  limit <= bound ->
  Forall (fun p => String.length p <= bound) ps ->
  forall chunks cur,
    Forall (fun u => String.length u <= bound) chunks ->
    String.length cur <= bound ->
    Forall (fun u => String.length u <= bound)
      (push_last (pack limit ps chunks cur)).
Proof.
  intros Hl Hps. induction Hps as [|p ps Hp _ IH]; intros chunks cur Hch Hcur.
  - simpl. unfold push_last. simpl.
    destruct (0 <? String.length cur); [|assumption].
    apply Forall_app. split; [assumption | now constructor].
  - rewrite pack_cons.
    destruct (Nat.ltb_spec 0 (String.length cur)) as [Hc|Hc].
    + rewrite andb_true_r.
      destruct (Nat.ltb_spec limit
                  (String.length cur + String.length p + 2)) as [Ho|Ho].
      * apply IH; [|assumption].
        apply Forall_app. split; [assumption | now constructor].
      * apply IH; [assumption|].
        rewrite !length_append, length_blank_line. lia.
    + rewrite andb_false_r. now apply IH.
Qed.

Lemma push_last_length (chunks : list string) (cur : string) :
  List.length (push_last (chunks, cur))
  = List.length chunks + (if 0 <? String.length cur then 1 else 0).
Proof.
  unfold push_last. simpl. destruct (0 <? String.length cur).
  - rewrite length_app. reflexivity.
  - lia.
Qed.

Lemma pack_count (limit : nat) (ps : list string) :
  forall chunks cur,
    List.length (push_last (pack limit ps chunks cur))
    <= List.length (push_last (chunks, cur)) + List.length ps.
Proof.
  induction ps as [|p ps IH]; intros chunks cur.
  - simpl. lia.
  - rewrite pack_cons.
    destruct (Nat.ltb_spec 0 (String.length cur)) as [Hc|Hc].
    + rewrite andb_true_r. destruct (limit <? _).
      * etransitivity; [apply IH|]. rewrite !push_last_length, length_app.
        simpl. destruct (Nat.ltb_spec 0 (String.length cur)); [|lia].
        destruct (0 <? String.length p); lia.
      * etransitivity; [apply IH|]. rewrite !push_last_length. simpl.
        destruct (Nat.ltb_spec 0 (String.length cur)); [|lia].
        destruct (0 <? _); lia.
    + rewrite andb_false_r.
      etransitivity; [apply IH|]. rewrite !push_last_length. simpl.
      destruct (0 <? String.length p); destruct (0 <? String.length cur); lia.
Qed.

Lemma createOptimizedChunks_join (text : string) :
  join blank_line (createOptimizedChunks text)
  = join blank_line (paragraphs text).
Proof.
  unfold createOptimizedChunks.
  now rewrite pack_join by apply paragraphs_nonempty.
Qed.

Lemma adjustedChunkSize_le (total count : nat) :
  adjustedChunkSize total count <= MAX_CHUNK_SIZE.
Proof.
  unfold adjustedChunkSize. destruct (Nat.min 4 count); [lia|].
  apply Nat.le_min_r.
Qed.

Lemma createOptimizedChunks_bound (text : string) :
  List.Forall (fun p => String.length p <= MAX_CHUNK_SIZE) (paragraphs text) ->
  List.Forall (fun u => String.length u <= MAX_CHUNK_SIZE)
    (createOptimizedChunks text).
Proof.
  intros H. unfold createOptimizedChunks.
  apply pack_bound; try assumption.
  - apply adjustedChunkSize_le.
  - constructor.
  - simpl. lia.
Qed.

Lemma createOptimizedChunks_count (text : string) :
  List.length (createOptimizedChunks text) <= List.length (paragraphs text).
Proof.
  unfold createOptimizedChunks.
  etransitivity; [apply pack_count|]. reflexivity.
Qed.

Lemma words_paragraphs (text : string) :
  List.flat_map words (paragraphs text)
  = List.flat_map words (split_blank_line text).
Proof.
  unfold paragraphs. induction (split_blank_line text) as [|p l IH].
  - reflexivity.
  - simpl. destruct (String.eqb_spec (trim p) EmptyString) as [E|E]; simpl.
    + now rewrite (words_blank p E).
    + now rewrite IH.
Qed.

Lemma words_createOptimizedChunks (text : string) :
  words (join blank_line (createOptimizedChunks text)) = words text.
Proof.
  rewrite createOptimizedChunks_join, words_join_blank_line, words_paragraphs.
  rewrite <- words_join_blank_line. now rewrite join_split_blank_line.
Qed.

Lemma accumulate_cons (sentence : string) (rest result : list string)
    (cur : string) :
  accumulate (sentence :: rest) result cur
  = if String.length cur + String.length sentence <=? MAX_PARAGRAPH_LENGTH
    then accumulate rest result (String.append cur sentence)
    else accumulate rest
           (if nonempty cur then result ++ [cur] else result) sentence.
Proof. reflexivity. Qed.

(** A unit of the sentence loop is within the limit or is one sentence. *)
Lemma accumulate_units (all ss : list string) :
  List.incl ss all ->
  forall result cur,
    let ok u := String.length u <= MAX_PARAGRAPH_LENGTH \/ List.In u all in
    List.Forall ok result -> ok cur ->
    List.Forall ok (push_last (accumulate ss result cur)).
Proof.
  induction ss as [|x ss IH]; intros Hin result cur ok Hres Hcur.
  - simpl. unfold push_last. simpl.
    destruct (0 <? String.length cur); [|assumption].
    apply List.Forall_app. split; [assumption | now constructor].
  - rewrite accumulate_cons.
    assert (Hrest : List.incl ss all)
      by (intros y Hy; apply Hin; now right).
    destruct (Nat.leb_spec (String.length cur + String.length x)
                MAX_PARAGRAPH_LENGTH) as [Hfit|Hover].
    + apply IH; try assumption.
      left. rewrite length_append. exact Hfit.
    + apply IH; try assumption.
      * destruct (nonempty cur); [|assumption].
        apply List.Forall_app. split; [assumption | now constructor].
      * right. apply Hin. now left.
Qed.

Lemma split_paragraph_units (paragraph u : string) :
  List.In u (split_paragraph paragraph) ->
  String.length u <= MAX_PARAGRAPH_LENGTH
  \/ List.In u (sentences_or_self paragraph).
Proof.
  unfold split_paragraph.
  destruct (Nat.leb_spec (String.length paragraph) MAX_PARAGRAPH_LENGTH)
    as [Hshort|Hlong].
  - intros [<-|[]]. now left.
  - intros Hu.
    pose proof (accumulate_units (sentences_or_self paragraph)
                  (sentences_or_self paragraph) (List.incl_refl _)
                  [] EmptyString) as H.
    simpl in H. specialize (H (List.Forall_nil _)).
    assert (H0 : 0 <= MAX_PARAGRAPH_LENGTH \/
                 List.In EmptyString (sentences_or_self paragraph))
      by (left; lia).
    specialize (H H0).
    rewrite List.Forall_forall in H. now apply H.
Qed.

(** [createOptimizedChunks] on the text it is given: the units joined in
    order with the paragraph separator are that text again, up to white
    space: the two have the same words, hence the same normal form. *)
Theorem units_rejoin_to_text (text : string) :
  words (join blank_line (createOptimizedChunks text)) = words text
  /\ normalize_space (join blank_line (createOptimizedChunks text))
     = normalize_space text.
Proof.
  unfold normalize_space.
  now rewrite words_createOptimizedChunks.
Qed.

(** C5 (the code at the failing inputs).  A paragraph of 3000 characters
    with no sentence end in it stays one unit of 3000 characters, over the
    2900 that [createOptimizedChunks] sets itself as the most, and it does
    so through the first split too; and five paragraphs of twenty
    characters stay five units, one more than the four the function is to
    make at the most. *)
Lemma chunker_exceeds_limits :
  createOptimizedChunks Sample.long_paragraph = [Sample.long_paragraph]
  /\ narration_units Sample.long_paragraph = [Sample.long_paragraph]
  /\ MAX_CHUNK_SIZE < String.length Sample.long_paragraph
  /\ List.length (createOptimizedChunks Sample.five_paragraphs) = 5.
Proof. vm_compute. repeat split. lia. Qed.

(** What the two splitters keep.  [createOptimizedChunks] splits on the
    blank-line separator, drops the blank paragraphs and packs the others
    in order:
    its units joined with the separator are the paragraphs joined with it,
    there are no more units than paragraphs, and when no paragraph exceeds
    2900 characters no unit does.  Splitting on sentence ends is done by
    [splitTextIntoParagraphs] alone, for a paragraph of more than 500
    characters: a paragraph within 500 characters is kept as it is, and
    each unit made from a longer one is within 500 characters or is one
    sentence of it. *)
Theorem chunker_units :
  (forall text,
     List.Forall (fun p => String.length p <= MAX_CHUNK_SIZE) (paragraphs text) ->
     List.Forall (fun u => String.length u <= MAX_CHUNK_SIZE)
       (createOptimizedChunks text))
  /\ (forall text,
        join blank_line (createOptimizedChunks text)
        = join blank_line (paragraphs text))
  /\ (forall text,
        List.length (createOptimizedChunks text)
        <= List.length (paragraphs text))
  /\ (forall paragraph,
        String.length paragraph <= MAX_PARAGRAPH_LENGTH ->
        split_paragraph paragraph = [paragraph])
  /\ (forall paragraph u,
        List.In u (split_paragraph paragraph) ->
        String.length u <= MAX_PARAGRAPH_LENGTH
        \/ List.In u (sentences_or_self paragraph)).
Proof.
  split; [|split; [|split; [|split]]].
  - apply createOptimizedChunks_bound.
  - apply createOptimizedChunks_join.
  - apply createOptimizedChunks_count.
  - intros paragraph H. unfold split_paragraph.
    now destruct (Nat.leb_spec (String.length paragraph) MAX_PARAGRAPH_LENGTH);
      [|lia].
  - apply split_paragraph_units.
Qed.

Lemma chunker_units_witness :
  List.Forall (fun p => String.length p <= MAX_CHUNK_SIZE)
    (paragraphs Sample.narration)
  /\ List.Forall (fun u => String.length u <= MAX_CHUNK_SIZE)
       (createOptimizedChunks Sample.narration).
Proof.
  assert (H : List.Forall (fun p => String.length p <= MAX_CHUNK_SIZE)
                (paragraphs Sample.narration)).
  { assert (E : paragraphs Sample.narration = ["One."; "Two."; "Three."])
      by (vm_compute; reflexivity).
    rewrite E. unfold MAX_CHUNK_SIZE.
    repeat (constructor; [simpl; lia|]). constructor. }
  split; [exact H|].
  exact (proj1 chunker_units Sample.narration H).
Defined.

End ChunkerFacts.

(** ** Sentences and white space *)

Section TextFacts.
Import Js Chunker Text.

Lemma glued_cons (x : string) (l : list string) :
  glued (x :: l) = String.append x (glued l).
Proof.
  unfold glued. destruct l as [|y l]; simpl.
  - now rewrite append_empty_r.
  - reflexivity.
Qed.

Lemma glued_app (a b : list string) :
  glued (a ++ b) = String.append (glued a) (glued b).
Proof.
  induction a as [|x a IH]; [reflexivity|].
  change ((x :: a) ++ b) with (x :: (a ++ b)).
  now rewrite !glued_cons, IH, append_assoc.
Qed.

Lemma ends_with_terminator_cons (c : ascii) (s : string) :
  s <> EmptyString ->
  ends_with_terminator (String c s) = ends_with_terminator s.
Proof. destruct s; [congruence | reflexivity]. Qed.

Lemma ends_with_terminator_app (a b : string) :
  b <> EmptyString ->
  ends_with_terminator (String.append a b) = ends_with_terminator b.
Proof.
  intros Hb. induction a as [|c a IH]; [reflexivity|].
  simpl String.append. rewrite ends_with_terminator_cons; [exact IH|].
  destruct a; simpl; [exact Hb | discriminate].
Qed.

Lemma snoc_append (marks : string) (c : ascii) (s : string) :
  String.append (snoc marks c) s = String.append marks (String c s).
Proof. unfold snoc. now rewrite append_assoc. Qed.

Lemma snoc_nonempty (s : string) (c : ascii) : snoc s c <> EmptyString.
Proof. unfold snoc. destruct s; discriminate. Qed.

Lemma match_sentences_eq (c : ascii) (s' body marks : string) :
  match_sentences (String c s') body marks
  = if is_terminator c then
      match body with
      | EmptyString => match_sentences s' EmptyString EmptyString
      | _ => match_sentences s' body (snoc marks c)
      end
    else
      match marks with
      | EmptyString => match_sentences s' (snoc body c) EmptyString
      | _ => String.append body marks
               :: match_sentences s' (String c EmptyString) EmptyString
      end.
Proof. reflexivity. Qed.

(** The matcher read from a state in which a sentence has begun, on a text
    that ends with a terminator: nothing is lost. *)
Lemma match_sentences_glued (s : string) :
  forall body marks,
    (body = EmptyString ->
     marks = EmptyString /\ starts_with_terminator s = false) ->
    ends_with_terminator (String.append marks s) = true ->
    glued (match_sentences s body marks)
    = String.append body (String.append marks s).
Proof.
  induction s as [|c s IH]; intros body marks Hbody Hend.
  - simpl. rewrite append_empty_r in Hend.
    destruct marks as [|m marks]; [discriminate|].
    now rewrite append_empty_r.
  - rewrite match_sentences_eq.
    destruct (is_terminator c) eqn:Hc.
    + destruct body as [|b body].
      * destruct (Hbody eq_refl) as [_ H]. simpl in H. congruence.
      * rewrite IH.
        -- now rewrite snoc_append.
        -- discriminate.
        -- now rewrite snoc_append.
    + assert (Hs : s <> EmptyString /\ ends_with_terminator s = true).
      { rewrite ends_with_terminator_app in Hend by discriminate.
        destruct s as [|c' s]; [simpl in Hend; congruence|].
        split; [discriminate|]. exact Hend. }
      destruct Hs as [Hne Hs].
      destruct marks as [|m marks].
      * rewrite IH.
        -- simpl. unfold snoc. now rewrite append_assoc.
        -- intros H. now apply snoc_nonempty in H.
        -- exact Hs.
      * rewrite glued_cons, IH.
        -- simpl. now rewrite !append_assoc.
        -- discriminate.
        -- exact Hs.
Qed.

Lemma match_sentences_unterminated (t : string) :
  has_terminator t = false ->
  forall body, match_sentences t body EmptyString = [].
Proof.
  induction t as [|c t IH]; intros H body; [reflexivity|].
  simpl in H. apply orb_false_iff in H as [Hc Ht].
  rewrite match_sentences_eq, Hc. now apply IH.
Qed.

(** Text with no terminator in it, after a text that ends with one, adds
    no sentence. *)
Lemma match_sentences_tail (tail s : string) :
  has_terminator tail = false ->
  forall body marks,
    ends_with_terminator (String.append marks s) = true ->
    match_sentences (String.append s tail) body marks
    = match_sentences s body marks.
Proof.
  intros Ht. induction s as [|c s IH]; intros body marks Hend.
  - rewrite append_empty_r in Hend. simpl String.append.
    destruct marks as [|m marks]; [discriminate|].
    destruct tail as [|c t]; [reflexivity|].
    simpl in Ht. apply orb_false_iff in Ht as [Hc Ht].
    rewrite match_sentences_eq, Hc.
    now rewrite match_sentences_unterminated.
  - simpl String.append. rewrite !match_sentences_eq.
    destruct (is_terminator c) eqn:Hc.
    + destruct body as [|b body].
      * destruct s as [|c' s].
        -- simpl String.append.
           now rewrite match_sentences_unterminated.
        -- apply IH.
           now rewrite ends_with_terminator_app in Hend by discriminate.
      * apply IH. now rewrite snoc_append.
    + assert (Hs : ends_with_terminator s = true).
      { rewrite ends_with_terminator_app in Hend by discriminate.
        destruct s as [|c' s]; [simpl in Hend; congruence | exact Hend]. }
      destruct marks as [|m marks].
      * now apply IH.
      * f_equal. now apply IH.
Qed.

Lemma accumulate_glued (ss : list string) :
  forall result cur,
    glued (push_last (accumulate ss result cur))
    = String.append (glued result) (String.append cur (glued ss)).
Proof.
  induction ss as [|x ss IH]; intros result cur.
  - simpl accumulate.
    change (glued []) with EmptyString. rewrite append_empty_r.
    destruct cur as [|c cur].
    + rewrite push_last_empty. now rewrite append_empty_r.
    + rewrite push_last_nonempty by (simpl; lia).
      now rewrite glued_app.
  - rewrite accumulate_cons, glued_cons.
    destruct (_ <=? _).
    + rewrite IH. now rewrite !append_assoc.
    + rewrite IH. destruct cur as [|c cur].
      * reflexivity.
      * change (nonempty (String c cur)) with true. cbv iota.
        rewrite glued_app. change (glued [String c cur]) with (String c cur).
        now rewrite !append_assoc.
Qed.

Lemma sentences_or_self_glued (p : string) :
  starts_with_terminator p = false ->
  ends_with_terminator p = true ->
  glued (sentences_or_self p) = p.
Proof.
  intros Hs He. unfold sentences_or_self.
  pose proof (match_sentences_glued p EmptyString EmptyString) as H.
  simpl in H. specialize (H (fun _ => conj eq_refl Hs) He).
  destruct (match_sentences p EmptyString EmptyString); [|exact H].
  reflexivity.
Qed.

Lemma split_paragraph_glued (p : string) :
  (MAX_PARAGRAPH_LENGTH < String.length p ->
   starts_with_terminator p = false /\ ends_with_terminator p = true) ->
  glued (split_paragraph p) = p.
Proof.
  intros H. unfold split_paragraph.
  destruct (Nat.leb_spec (String.length p) MAX_PARAGRAPH_LENGTH) as [Hs|Hl].
  - reflexivity.
  - destruct (H Hl) as [H1 H2].
    rewrite accumulate_glued. simpl.
    now apply sentences_or_self_glued.
Qed.

(** In a paragraph of more than 500 characters, what follows the last of
    the characters [.!?] is in no unit: the units, one after the other, are
    the paragraph up to that character. *)
Lemma split_paragraph_drops_tail (s tail : string) :
  MAX_PARAGRAPH_LENGTH < String.length (String.append s tail) ->
  starts_with_terminator s = false ->
  ends_with_terminator s = true ->
  has_terminator tail = false ->
  glued (split_paragraph (String.append s tail)) = s.
Proof.
  intros Hlong Hs He Ht. unfold split_paragraph.
  destruct (Nat.leb_spec (String.length (String.append s tail))
              MAX_PARAGRAPH_LENGTH) as [Hshort|_]; [lia|].
  rewrite accumulate_glued. simpl.
  unfold sentences_or_self.
  rewrite (match_sentences_tail tail s Ht EmptyString EmptyString He).
  pose proof (match_sentences_glued s EmptyString EmptyString) as H.
  simpl in H. specialize (H (fun _ => conj eq_refl Hs) He).
  destruct (match_sentences s EmptyString EmptyString) as [|x l].
  - change (glued []) with EmptyString in H. subst s. discriminate.
  - exact H.
Qed.

Lemma words_none_trim (s : string) : words s = [] -> trim s = EmptyString.
Proof.
  intros H. assert (E : trimStart s = EmptyString).
  { induction s as [|c s IH]; [reflexivity|]. simpl.
    destruct (is_space c) eqn:Hc.
    - apply IH. now rewrite words_space in H.
    - exfalso. unfold words in H. simpl in H. rewrite Hc in H.
      pose proof (chop_nonempty s) as Hne.
      destruct (chop s) as [|p ps]; [congruence|]. simpl in H. discriminate. }
  unfold trim. now rewrite E.
Qed.

Lemma paragraphs_have_words (text : string) :
  List.Forall (fun p => words p <> []) (paragraphs text).
Proof.
  unfold paragraphs. apply List.Forall_forall. intros p Hp.
  apply List.filter_In in Hp as [_ Hp]. intros Hw.
  apply words_none_trim in Hw. rewrite Hw in Hp. discriminate.
Qed.

Lemma pack_words (limit : nat) (ps : list string) :
  List.Forall (fun p => words p <> []) ps ->
  forall chunks cur,
    List.Forall (fun u => words u <> []) chunks ->
    (cur = EmptyString \/ words cur <> []) ->
    List.Forall (fun u => words u <> []) (push_last (pack limit ps chunks cur)).
Proof.
  induction 1 as [|p ps Hp _ IH]; intros chunks cur Hch Hcur.
  - simpl. destruct Hcur as [->|Hcur]; [exact Hch|].
    unfold push_last. simpl. destruct (0 <? String.length cur); [|exact Hch].
    apply List.Forall_app. split; [exact Hch | now constructor].
  - rewrite pack_cons.
    destruct (Nat.ltb_spec 0 (String.length cur)) as [Hc|Hc].
    + assert (Hw : words cur <> []).
      { destruct Hcur as [->|Hcur]; [simpl in Hc; lia | exact Hcur]. }
      rewrite andb_true_r. destruct (limit <? _).
      * apply IH; [|now right].
        apply List.Forall_app. split; [exact Hch | now constructor].
      * apply IH; [exact Hch|]. right.
        rewrite words_app_blank_line. intros E.
        apply app_eq_nil in E as [E _]. contradiction.
    + rewrite andb_false_r. apply IH; [exact Hch | now right].
Qed.

Lemma blank_no_paragraph (text : string) :
  trim text = EmptyString -> paragraphs text = [].
Proof.
  intros H. apply words_blank in H.
  rewrite <- (join_split_blank_line text) in H.
  rewrite words_join_blank_line, <- words_paragraphs in H.
  pose proof (paragraphs_have_words text) as Hp.
  destruct (paragraphs text) as [|p ps]; [reflexivity|].
  simpl in H. apply app_eq_nil in H as [H _].
  inversion Hp as [|? ? Hw _]. contradiction.
Qed.

End TextFacts.

(** ** The narration through both splitters *)

Section InkFacts.
Import Js Chunker Text.

Lemma ink_append (a b : string) :
  ink (String.append a b) = String.append (ink a) (ink b).
Proof.
  induction a as [|c a IH]; [reflexivity|].
  simpl. destruct (is_space c); simpl; now rewrite IH.
Qed.

Lemma ink_idempotent (s : string) : ink (ink s) = ink s.
Proof.
  induction s as [|c s IH]; [reflexivity|].
  simpl. destruct (is_space c) eqn:E; [exact IH|].
  simpl. now rewrite E, IH.
Qed.

Lemma ink_join (sep : string) (l : list string) :
  ink sep = EmptyString -> ink (join sep l) = ink (glued l).
Proof.
  intros Hsep. induction l as [|x l IH]; [reflexivity|].
  destruct l as [|y l].
  - reflexivity.
  - rewrite join_cons2, glued_cons, !ink_append, Hsep, IH. reflexivity.
Qed.

Lemma glued_push_char (c : ascii) (l : list string) :
  l <> [] -> glued (push_char c l) = String c (glued l).
Proof.
  destruct l as [|p ps]; [congruence|]. intros _.
  unfold push_char. now rewrite !glued_cons.
Qed.

Lemma glued_chop (s : string) : glued (chop s) = ink s.
Proof.
  induction s as [|c s IH]; [reflexivity|].
  simpl. destruct (is_space c).
  - now rewrite glued_cons.
  - rewrite glued_push_char by apply chop_nonempty. now rewrite IH.
Qed.

Lemma glued_nonempty (l : list string) :
  glued (List.filter nonempty l) = glued l.
Proof.
  induction l as [|x l IH]; [reflexivity|].
  simpl. destruct x as [|c x]; simpl.
  - now rewrite glued_cons.
  - now rewrite !glued_cons, IH.
Qed.

(** The words of a string, one after the other, are its characters other
    than white space. *)
Lemma glued_words (s : string) : glued (words s) = ink s.
Proof. unfold words. now rewrite glued_nonempty, glued_chop. Qed.

Lemma ink_normalize_space (s : string) : ink (normalize_space s) = ink s.
Proof.
  unfold normalize_space.
  now rewrite ink_join, glued_words, ink_idempotent.
Qed.

Lemma words_single_paragraph (text p : string) :
  paragraphs text = [p] -> words text = words p.
Proof.
  intros H.
  rewrite <- (join_split_blank_line text) at 1.
  rewrite words_join_blank_line, <- words_paragraphs, H.
  simpl. apply app_nil_r.
Qed.

Lemma ink_narration_units (text : string) :
  ink (join blank_line (narration_units text))
  = ink (glued (splitTextIntoParagraphs text)).
Proof.
  unfold narration_units.
  rewrite <- glued_words, words_createOptimizedChunks, glued_words.
  now apply ink_join.
Qed.

End InkFacts.

Section NarrationClaims.
Import Js Chunker Text.

(** C6 (the code at the failing input).  A narration reaches
    [createOptimizedChunks] through [splitTextIntoParagraphs].  When a
    paragraph of more than 500 characters goes on after the last of its
    characters [.!?], what follows that character is in no unit: the
    units, one after the other, are the paragraph up to it, so the units
    joined with the separator are not the narration, white space
    apart. *)
Theorem narration_loses_unterminated_tail (text s tail : string) :
  paragraphs text = [String.append s tail] ->
  MAX_PARAGRAPH_LENGTH < String.length (String.append s tail) ->
  starts_with_terminator s = false ->
  ends_with_terminator s = true ->
  has_terminator tail = false ->
  ink tail <> EmptyString ->
  glued (splitTextIntoParagraphs text) = s
  /\ ink (join blank_line (narration_units text)) = ink s
  /\ ink text = String.append (ink s) (ink tail)
  /\ words (join blank_line (narration_units text)) <> words text
  /\ normalize_space (join blank_line (narration_units text))
     <> normalize_space text.
Proof.
  intros Hp Hlong Hs He Ht Hink.
  assert (Hunits : glued (splitTextIntoParagraphs text) = s).
  { unfold splitTextIntoParagraphs. rewrite Hp. simpl. rewrite app_nil_r.
    now apply split_paragraph_drops_tail. }
  assert (Hleft : ink (join blank_line (narration_units text)) = ink s)
    by now rewrite ink_narration_units, Hunits.
  assert (Hright : ink text = String.append (ink s) (ink tail)).
  { rewrite <- glued_words, (words_single_paragraph text _ Hp), glued_words.
    apply ink_append. }
  assert (Hne : ink (join blank_line (narration_units text)) <> ink text).
  { rewrite Hleft, Hright. intros E.
    apply (f_equal String.length) in E. rewrite length_append in E.
    destruct (ink tail); [congruence | simpl in E; lia]. }
  split; [exact Hunits|]. split; [exact Hleft|]. split; [exact Hright|].
  split.
  - intros E. apply Hne. now rewrite <- !glued_words, E.
  - intros E. apply Hne.
    rewrite <- (ink_normalize_space text), <- E.
    symmetry. apply ink_normalize_space.
Qed.

Lemma narration_loses_unterminated_tail_witness :
  List.length (narration_units Cases.lost_end) <= 4
  /\ narration_units Cases.lost_end = [Cases.told]
  /\ normalize_space (join blank_line (narration_units Cases.lost_end))
     <> normalize_space Cases.lost_end.
Proof.
  split; [vm_compute; lia|]. split; [vm_compute; reflexivity|].
  assert (Hp : paragraphs Cases.lost_end = [String.append Cases.told " lost end"])
    by (vm_compute; reflexivity).
  assert (Hlong : MAX_PARAGRAPH_LENGTH
                  < String.length (String.append Cases.told " lost end"))
    by (vm_compute; lia).
  assert (Hs : starts_with_terminator Cases.told = false) by reflexivity.
  assert (He : ends_with_terminator Cases.told = true)
    by (vm_compute; reflexivity).
  assert (Ht : has_terminator " lost end" = false) by reflexivity.
  assert (Hink : ink " lost end" <> EmptyString) by discriminate.
  exact (proj2 (proj2 (proj2 (proj2
           (narration_loses_unterminated_tail Cases.lost_end Cases.told
              " lost end" Hp Hlong Hs He Ht Hink))))).
Defined.

End NarrationClaims.

(** ** Track assembler *)

Section AssemblerFacts.
Import Model Assembler.

Lemma fold_left_step {A B : Type} (f : A -> B -> A) (x : B) (l : list B) (a : A) :
  List.fold_left f (x :: l) a = List.fold_left f l (f a x).
Proof. reflexivity. Qed.

Lemma fold_left_add {A : Type} (f : A -> nat) (l : list A) (a : nat) :
  List.fold_left (fun total c => total + f c) l a
  = a + list_sum (List.map f l).
Proof.
  revert a. induction l as [|x l IH]; intros a; simpl; [lia|].
  rewrite IH. lia.
Qed.

Lemma totalLength_sum (l : list AudioChunk) :
  totalLength l = list_sum (List.map buffer_length l).
Proof. unfold totalLength. now rewrite fold_left_add. Qed.

Lemma mix_silent (out : list Z) (start : nat) : mix out start [] = out.
Proof.
  revert start. induction out as [|o out IH]; intros start; [reflexivity|].
  destruct start; simpl; [reflexivity | now rewrite IH].
Qed.

(** A source mixed into silence, right after what is already rendered,
    appears as it is. *)
Lemma mix_after (pre src : list Z) (k : nat) :
  mix (pre ++ List.repeat 0%Z (List.length src + k)) (List.length pre) src
  = pre ++ src ++ List.repeat 0%Z k.
Proof.
  induction pre as [|p pre IH]; simpl.
  - induction src as [|x src IHs]; simpl.
    + apply mix_silent.
    + now rewrite IHs.
  - now rewrite IH.
Qed.

Lemma length_samples_of (l : list AudioChunk) :
  List.length (samples_of l) = list_sum (List.map buffer_length l).
Proof.
  induction l as [|c l IH]; [reflexivity|].
  unfold samples_of in *. simpl. rewrite length_app, IH.
  unfold buffer_length at 2. destruct (audioBuffer c); reflexivity.
Qed.

Lemma render_schedule (l : list AudioChunk) :
  forall pre : list Z,
    List.fold_left (fun out s => mix out (fst s) (snd s))
      (schedule l (List.length pre))
      (pre ++ List.repeat 0%Z (list_sum (List.map buffer_length l)))
    = pre ++ samples_of l.
Proof.
  induction l as [|c l IH]; intros pre.
  - simpl. reflexivity.
  - simpl. unfold buffer_length at 1.
    destruct (audioBuffer c) as [b|] eqn:Hb.
    + rewrite fold_left_step. cbn [fst snd]. unfold ab_length.
      rewrite mix_after, app_assoc.
      replace (List.length pre + List.length (ab_data b))
        with (List.length (pre ++ ab_data b)) by apply length_app.
      rewrite IH. now rewrite app_assoc.
    + simpl. now rewrite IH.
Qed.

Lemma startRendering_samples (l : list AudioChunk) :
  startRendering (totalLength l) (schedule l 0) = samples_of l.
Proof.
  unfold startRendering. rewrite totalLength_sum.
  exact (render_schedule l []).
Qed.

Lemma insert_by_index_perm (c : AudioChunk) (l : list AudioChunk) :
  Permutation (insert_by_index c l) (c :: l).
Proof.
  induction l as [|d l IH]; simpl; [reflexivity|].
  destruct (index c <=? index d); [reflexivity|].
  rewrite IH. apply perm_swap.
Qed.

Lemma sort_by_index_perm (l : list AudioChunk) :
  Permutation (sort_by_index l) l.
Proof.
  induction l as [|c l IH]; simpl; [reflexivity|].
  rewrite insert_by_index_perm. now constructor.
Qed.

Lemma insert_by_index_sorted (c : AudioChunk) (l : list AudioChunk) :
  StronglySorted by_index l -> StronglySorted by_index (insert_by_index c l).
Proof.
  induction 1 as [|d l Hl IH Hd]; simpl.
  - repeat constructor.
  - destruct (Nat.leb_spec (index c) (index d)) as [Hcd|Hcd].
    + constructor; [now constructor|].
      constructor; [exact Hcd|].
      eapply List.Forall_impl; [|exact Hd].
      intros x Hx. unfold by_index in *. lia.
    + constructor; [exact IH|].
      eapply Permutation_Forall;
        [symmetry; apply insert_by_index_perm|].
      constructor; [unfold by_index; lia | exact Hd].
Qed.

Lemma sort_by_index_sorted (l : list AudioChunk) :
  StronglySorted by_index (sort_by_index l).
Proof.
  induction l as [|c l IH]; simpl; [constructor|].
  now apply insert_by_index_sorted.
Qed.

(** Chunks that are in index order already stay as they are. *)
Lemma sort_by_index_sorted_id (l : list AudioChunk) :
  StronglySorted by_index l -> sort_by_index l = l.
Proof.
  induction 1 as [|c l Hl IH Hc]; [reflexivity|].
  simpl. rewrite IH. destruct l as [|d l]; [reflexivity|].
  simpl. inversion Hc as [|? ? Hcd _]; subst.
  unfold by_index in Hcd.
  now destruct (Nat.leb_spec (index c) (index d)); [|lia].
Qed.

Lemma list_sum_perm (l1 l2 : list nat) :
  Permutation l1 l2 -> list_sum l1 = list_sum l2.
Proof. induction 1; simpl; lia. Qed.

Lemma completeChunks_buffer (cs : list AudioChunk) (c : AudioChunk) :
  List.In c (completeChunks cs) ->
  status c = Complete /\ exists b, audioBuffer c = Some b.
Proof.
  unfold completeChunks. intros H. apply List.filter_In in H as [_ H].
  apply andb_true_iff in H as [Hs Hb]. split.
  - now destruct (status c).
  - unfold has_buffer in Hb. destruct (audioBuffer c); [eauto | discriminate].
Qed.

Lemma buffer_length_positive (c : AudioChunk) (b : AudioBuffer) :
  audioBuffer c = Some b -> 0 < buffer_length c.
Proof. intros H. unfold buffer_length, ab_length. rewrite H. simpl. lia. Qed.

(** Assembly fails when no chunk is complete, and only then; the track is
    the samples of the complete chunks, in index order. *)
Lemma render_spec (cs : list AudioChunk) :
  match completeChunks cs with
  | [] => render cs = Thrown "Error: No complete audio chunks for playback"
  | _ :: _ =>
      render cs = Returned (samples_of (sort_by_index (completeChunks cs)))
  end.
Proof.
  unfold render. destruct (completeChunks cs) as [|c l] eqn:E; [reflexivity|].
  change (List.length (c :: l) =? 0) with false. cbv iota.
  rewrite <- E.
  assert (Hpos : 0 < totalLength (sort_by_index (completeChunks cs))).
  { rewrite totalLength_sum.
    rewrite (list_sum_perm _ (List.map buffer_length (completeChunks cs)))
      by (apply Permutation_map, sort_by_index_perm).
    rewrite E. simpl.
    assert (Hc : List.In c (completeChunks cs)) by (rewrite E; now left).
    apply completeChunks_buffer in Hc as [_ [b Hb]].
    pose proof (buffer_length_positive c b Hb). lia. }
  destruct (Nat.eqb_spec (totalLength (sort_by_index (completeChunks cs))) 0);
    [lia|].
  now rewrite startRendering_samples.
Qed.

End AssemblerFacts.

(** ** The manager: state store *)

Section StoreFacts.
Import Js Model Assembler Manager Spec.

Lemma merge_spread (s s' : AudioManagerState) : merge s (spread s') = s'.
Proof. now destruct s'. Qed.

Lemma this_setState (u : StateUpdate) (w : World) :
  this (setState u w) = set_state (merge (state (this w)) u) (this w).
Proof. unfold setState. simpl. now destruct (isDestroyed (this w)). Qed.

Lemma page_setState (u : StateUpdate) (w : World) :
  page (setState u w) = page w.
Proof. unfold setState. simpl. now destruct (isDestroyed (this w)). Qed.

Lemma journal_setState (u : StateUpdate) (w : World) :
  journal (setState u w)
  = if isDestroyed (this w) then journal w
    else notify (stateListeners (this w)) (merge (state (this w)) u) (journal w).
Proof. unfold setState. simpl. now destruct (isDestroyed (this w)). Qed.

Lemma this_update (f : AudioManagerState -> AudioManagerState) (w : World) :
  this (update f w) = set_state (f (state (this w))) (this w).
Proof. unfold update. now rewrite this_setState, merge_spread. Qed.

Lemma page_update (f : AudioManagerState -> AudioManagerState) (w : World) :
  page (update f w) = page w.
Proof. apply page_setState. Qed.

Lemma journal_update (f : AudioManagerState -> AudioManagerState) (w : World) :
  journal (update f w)
  = if isDestroyed (this w) then journal w
    else notify (stateListeners (this w)) (f (state (this w))) (journal w).
Proof. unfold update. now rewrite journal_setState, merge_spread. Qed.

Lemma requests_notify (ls : list Listener) (s : AudioManagerState) (j : Journal) :
  requests (notify ls s j) = requests j.
Proof.
  unfold notify. revert j. induction ls as [|l ls IH]; intros j; [reflexivity|].
  rewrite fold_left_step, IH. reflexivity.
Qed.

Lemma delivered_notify (ls : list Listener) (s : AudioManagerState) (j : Journal) :
  delivered (notify ls s j)
  = List.map (fun l => (l, s)) (List.rev ls) ++ delivered j.
Proof.
  unfold notify. revert j. induction ls as [|l ls IH]; intros j; [reflexivity|].
  rewrite fold_left_step, IH. simpl. rewrite List.map_app, <- app_assoc.
  reflexivity.
Qed.

Lemma set_state_set_state (a b : AudioManagerState) (m : Manager) :
  set_state a (set_state b m) = set_state a m.
Proof. reflexivity. Qed.

Lemma set_state_same (m : Manager) : set_state (state m) m = m.
Proof. now destruct m. Qed.

Lemma with_chunks_same (s : AudioManagerState) : with_chunks (chunks s) s = s.
Proof. now destruct s. Qed.

End StoreFacts.

(** ** The manager: synthesis *)

Section SynthesisFacts.
Import Js Model Chunker Assembler Manager Spec.

Lemma fold_alter_lookup {A : Type} (g : nat -> A -> A) (idxs : list nat) :
  (forall i x, g i (g i x) = g i x) ->
  forall (l : list A) (j : nat),
    List.fold_left (fun acc i => alter (g i) i acc) idxs l !! j
    = (if List.existsb (Nat.eqb j) idxs then g j else id) <$> (l !! j).
Proof.
  intros Hg. induction idxs as [|i idxs IH]; intros l j.
  - simpl. now destruct (l !! j).
  - rewrite fold_left_step, IH. simpl.
    destruct (Nat.eqb_spec j i) as [->|Hji].
    + rewrite list_lookup_alter_eq. simpl.
      destruct (l !! i) as [x|]; simpl; [|reflexivity].
      destruct (List.existsb (Nat.eqb i) idxs); simpl; [now rewrite Hg | reflexivity].
    + rewrite list_lookup_alter_ne by congruence. reflexivity.
Qed.

Lemma fold_alter_all {A : Type} (g : nat -> A -> A) (idxs : list nat) (l : list A) :
  (forall i x, g i (g i x) = g i x) ->
  (forall j, j < List.length l -> List.existsb (Nat.eqb j) idxs = true) ->
  List.fold_left (fun acc i => alter (g i) i acc) idxs l = imap g l.
Proof.
  intros Hg Hall. apply list_eq. intros j.
  rewrite fold_alter_lookup by assumption.
  rewrite list_lookup_imap.
  destruct (l !! j) as [x|] eqn:E; simpl; [|reflexivity].
  rewrite Hall; [reflexivity|]. now apply lookup_lt_Some in E.
Qed.

Lemma chunk_step_update_chunk (i : nat) (g : AudioChunk -> AudioChunk) :
  chunk_step (update_chunk i g) (alter g i).
Proof.
  intros w. unfold update_chunk. now rewrite this_update, page_update.
Qed.

Lemma chunk_step_journal (f : Journal -> Journal) (F : World -> World)
    (h : list AudioChunk -> list AudioChunk) :
  chunk_step F h -> chunk_step (fun w => on_journal f (F w)) h.
Proof. intros H w. destruct (H w) as [Ht Hp]. simpl. now rewrite Ht, Hp. Qed.

Lemma chunk_step_fold {X : Type} (F : X -> World -> World)
    (h : X -> list AudioChunk -> list AudioChunk) (xs : list X) :
  (forall x, chunk_step (F x) (h x)) ->
  chunk_step (fun w => List.fold_left (fun w x => F x w) xs w)
    (fun cs => List.fold_left (fun cs x => h x cs) xs cs).
Proof.
  intros H. induction xs as [|x xs IH]; intros w.
  - simpl. now rewrite with_chunks_same, set_state_same.
  - rewrite !fold_left_step.
    destruct (IH (F x w)) as [Ht Hp]. destruct (H x w) as [Ht1 Hp1].
    rewrite Ht, Hp, Ht1, Hp1. simpl. split; reflexivity.
Qed.

Lemma index_imap_make_chunk (ts : list string) (i : nat) (c : AudioChunk) :
  imap make_chunk ts !! i = Some c -> index c = i.
Proof.
  rewrite list_lookup_imap. destruct (ts !! i); simpl; [|discriminate].
  now intros [= <-].
Qed.

Lemma map_index_imap_make_chunk (ts : list string) :
  List.map index (imap make_chunk ts) = List.seq 0 (List.length ts).
Proof.
  apply list_eq. intros i.
  change (List.map index (imap make_chunk ts)) with (index <$> imap make_chunk ts).
  rewrite list_lookup_fmap, list_lookup_imap.
  destruct (ts !! i) as [t|] eqn:E; simpl.
  - symmetry. apply lookup_seq. split; [reflexivity|].
    now apply lookup_lt_Some in E.
  - symmetry. apply lookup_seq_ge. now apply lookup_ge_None in E.
Qed.

Lemma fold_left_map_arg {A B C : Type} (f : A -> C -> A) (g : B -> C)
    (l : list B) (a : A) :
  List.fold_left (fun acc x => f acc (g x)) l a
  = List.fold_left f (List.map g l) a.
Proof.
  revert a. induction l as [|x l IH]; intros a; [reflexivity|].
  simpl. apply IH.
Qed.

Lemma existsb_seq (j n : nat) :
  j < n -> List.existsb (Nat.eqb j) (List.seq 0 n) = true.
Proof.
  intros H. apply List.existsb_exists. exists j. split.
  - apply List.in_seq. lia.
  - apply Nat.eqb_refl.
Qed.

(** After the callbacks have run up to their remote calls, each chunk idxs
    being processed. *)
Lemma begin_all (ts : list string) :
  chunk_step
    (fun w => List.fold_left (fun w chunk => begin_chunk chunk w)
                (imap make_chunk ts) w)
    (fun cs =>
       List.fold_left (fun acc i => alter (with_status Processing) i acc)
         (List.seq 0 (List.length ts)) cs).
Proof.
  intros w.
  destruct (chunk_step_fold (fun chunk => begin_chunk chunk)
              (fun chunk => alter (with_status Processing) (index chunk))
              (imap make_chunk ts)
              (fun chunk => chunk_step_journal (request chunk) _ _
                 (chunk_step_update_chunk (index chunk) (with_status Processing)))
              w) as [Ht Hp].
  split; [|exact Hp]. rewrite Ht.
  rewrite (fold_left_map_arg
             (fun acc i => alter (with_status Processing) i acc) index).
  now rewrite map_index_imap_make_chunk.
Qed.

Lemma all_settled_covers (order : list nat) (n j : nat) :
  all_settled order n = true -> j < n ->
  List.existsb (Nat.eqb j) order = true.
Proof.
  unfold all_settled. intros H Hj. apply andb_true_iff in H as [_ H].
  rewrite List.forallb_forall in H. apply H. apply List.in_seq. lia.
Qed.

Lemma all_settled_perm (order : list nat) (n : nat) :
  Permutation order (List.seq 0 n) -> all_settled order n = true.
Proof.
  intros H. unfold all_settled. apply andb_true_iff. split.
  - apply Nat.eqb_eq. rewrite (Permutation_length H). apply List.length_seq.
  - apply List.forallb_forall. intros i Hi.
    apply List.existsb_exists. exists i. split; [|apply Nat.eqb_refl].
    eapply Permutation_in; [symmetry; exact H | exact Hi].
Qed.

Lemma optimizedChunks_shape (s : AudioManagerState) :
  exists ts, optimizedChunks s = imap make_chunk ts.
Proof. unfold optimizedChunks. eauto. Qed.

Lemma start_synthesis_spec (w : World) :
  this (start_synthesis w)
  = set_state
      (with_chunks
         (List.map (with_status Processing) (optimizedChunks (state (this w))))
         (with_audioError None (with_audioStatus Creating (state (this w)))))
      (this w)
  /\ page (start_synthesis w) = page w.
Proof.
  unfold start_synthesis.
  set (w1 := update _ w).
  assert (Hopt : optimizedChunks (state (this w1))
                 = optimizedChunks (state (this w))).
  { subst w1. now rewrite this_update. }
  rewrite Hopt.
  destruct (optimizedChunks_shape (state (this w))) as [ts Hts].
  rewrite Hts.
  destruct (begin_all ts (update (with_chunks (imap make_chunk ts)) w1))
    as [Ht Hp].
  rewrite Ht, Hp. subst w1. rewrite !page_update, !this_update.
  simpl. split; [|reflexivity].
  assert (Hfold :
    List.fold_left (fun acc i => alter (with_status Processing) i acc)
      (List.seq 0 (List.length ts)) (imap make_chunk ts)
    = List.map (with_status Processing) (imap make_chunk ts)).
  { rewrite (fold_alter_all (fun _ => with_status Processing)).
    - apply list_eq. intros j.
      rewrite list_lookup_imap.
      change (List.map (with_status Processing) (imap make_chunk ts))
        with (with_status Processing <$> imap make_chunk ts).
      now rewrite list_lookup_fmap.
    - reflexivity.
    - intros j Hj. rewrite length_imap in Hj. now apply existsb_seq. }
  now rewrite Hfold.
Qed.

(** What the return of the remote call of chunk [i] does to chunk [i]. *)
Lemma settle_all_spec (synthesis : Synthesis) (order : list nat)
    (ts : list string) (w : World) :
  chunks (state (this w))
  = List.map (with_status Processing) (imap make_chunk ts) ->
  all_settled order (List.length (imap make_chunk ts)) = true ->
  this (settle_all synthesis order (imap make_chunk ts) w)
  = set_state
      (with_chunks (List.map (settled synthesis) (imap make_chunk ts))
         (state (this w)))
      (this w)
  /\ page (settle_all synthesis order (imap make_chunk ts) w) = page w.
Proof.
  intros Hchunks Hall.
  set (opt := imap make_chunk ts) in *.
  set (g := fun (i : nat) (c : AudioChunk) =>
              match opt !! i with
              | Some chunk =>
                  match synthesis chunk with
                  | Returned buffer =>
                      with_status Complete (with_audioBuffer (Some buffer) c)
                  | Thrown shown => with_error (Some shown) (with_status Failed c)
                  end
              | None => c
              end).
  assert (Hstep : forall i,
            chunk_step
              (fun w => match opt !! i with
                        | Some chunk => settle_chunk chunk (synthesis chunk) w
                        | None => w
                        end)
              (alter (g i) i)).
  { intros i w0. unfold g. destruct (opt !! i) as [chunk|] eqn:E.
    - assert (Hi : index chunk = i) by (eapply index_imap_make_chunk; exact E).
      unfold settle_chunk.
      destruct (synthesis chunk); rewrite Hi; apply chunk_step_update_chunk.
    - rewrite list_alter_id by reflexivity.
      now rewrite with_chunks_same, set_state_same. }
  destruct (chunk_step_fold _ _ order Hstep w) as [Ht Hp].
  unfold settle_all. split; [|exact Hp]. rewrite Ht.
  assert (Hfold :
    List.fold_left (fun acc i => alter (g i) i acc) order
      (chunks (state (this w)))
    = List.map (settled synthesis) opt); [|now rewrite Hfold].
  rewrite (fold_alter_all g).
  - rewrite Hchunks. apply list_eq. intros j.
    rewrite list_lookup_imap.
    change (List.map ?f ?l) with (f <$> l).
    rewrite !list_lookup_fmap. unfold g.
    destruct (opt !! j) as [c|]; simpl; [|reflexivity].
    unfold settled. now destruct (synthesis c).
  - intros i x. unfold g. destruct (opt !! i) as [c|]; [|reflexivity].
    now destruct (synthesis c).
  - intros j Hj. rewrite Hchunks in Hj.
    rewrite length_map in Hj. eapply all_settled_covers; eassumption.
Qed.

Lemma completeChunks_settled (synthesis : Synthesis) (l : list AudioChunk) :
  completeChunks (List.map (settled synthesis) l)
  = List.map (settled synthesis)
      (List.filter (fun c => succeeded (synthesis c)) l).
Proof.
  unfold completeChunks. induction l as [|c l IH]; [reflexivity|].
  simpl. rewrite IH. unfold settled at 1 2, has_buffer.
  destruct (synthesis c); reflexivity.
Qed.

Lemma samples_of_settled (synthesis : Synthesis) (l : list AudioChunk) :
  samples_of
    (List.map (settled synthesis)
       (List.filter (fun c => succeeded (synthesis c)) l))
  = synthesized synthesis l.
Proof.
  unfold samples_of, synthesized. induction l as [|c l IH]; [reflexivity|].
  simpl. destruct (synthesis c) as [b|e] eqn:E; simpl.
  - rewrite IH. unfold settled. now rewrite E.
  - exact IH.
Qed.

Lemma sorted_imap_make_chunk (ts : list string) (k : nat) :
  StronglySorted by_index (imap (fun i => make_chunk (k + i)) ts).
Proof.
  revert k. induction ts as [|t ts IH]; intros k; [constructor|].
  rewrite imap_cons. constructor.
  - rewrite (imap_ext _ (fun i => make_chunk (S k + i)))
      by (intros; simpl; f_equal; lia).
    apply IH.
  - apply List.Forall_forall. intros c Hc.
    apply list_elem_of_In, list_elem_of_lookup in Hc as [i Hi].
    rewrite list_lookup_imap in Hi.
    destruct (ts !! i); simpl in Hi; [|discriminate].
    injection Hi as <-. unfold by_index. simpl. lia.
Qed.

Lemma sorted_map_filter (f : AudioChunk -> AudioChunk) (p : AudioChunk -> bool)
    (l : list AudioChunk) :
  (forall c, index (f c) = index c) ->
  StronglySorted by_index l ->
  StronglySorted by_index (List.map f (List.filter p l)).
Proof.
  intros Hf. induction 1 as [|c l Hl IH Hc]; [constructor|].
  simpl. destruct (p c); [|exact IH].
  simpl. constructor; [exact IH|].
  apply List.Forall_forall. intros d Hd.
  apply List.in_map_iff in Hd as (d0 & <- & Hd0).
  apply List.filter_In in Hd0 as [Hd0 _].
  rewrite List.Forall_forall in Hc. specialize (Hc d0 Hd0).
  unfold by_index in *. now rewrite !Hf.
Qed.

Lemma index_settled (synthesis : Synthesis) (c : AudioChunk) :
  index (settled synthesis c) = index c.
Proof. unfold settled. now destruct (synthesis c). Qed.

(** Assembly of the settled chunks of a job: the samples of the chunks
    that succeeded, in the order of the chunks. *)
Lemma render_settled (synthesis : Synthesis) (ts : list string) :
  List.existsb (fun c => succeeded (synthesis c)) (imap make_chunk ts) = true ->
  render (List.map (settled synthesis) (imap make_chunk ts))
  = Returned (synthesized synthesis (imap make_chunk ts)).
Proof.
  intros Hsome.
  pose proof (render_spec (List.map (settled synthesis) (imap make_chunk ts)))
    as H.
  rewrite completeChunks_settled in H.
  destruct (List.filter _ (imap make_chunk ts)) as [|c l] eqn:E.
  - exfalso. apply List.existsb_exists in Hsome as (c & Hc & Hs).
    assert (Hin : List.In c (List.filter
                     (fun c => succeeded (synthesis c)) (imap make_chunk ts)))
      by (apply List.filter_In; now split).
    rewrite E in Hin. destruct Hin.
  - rewrite <- E in H. simpl in H.
    destruct (List.map _ _) eqn:E2 in H.
    + rewrite E in E2. discriminate.
    + rewrite <- E2 in H. rewrite H. f_equal.
      rewrite sort_by_index_sorted_id.
      * apply samples_of_settled.
      * apply sorted_map_filter; [apply index_settled|].
        exact (sorted_imap_make_chunk ts 0).
Qed.

End SynthesisFacts.

(** ** Claims on synthesis and assembly *)

Section SynthesisClaims.
Import Js Model Chunker Assembler Manager Spec.

Lemma createAudio_runs (synthesis : Synthesis) (order : list nat) (w : World) :
  starts_job w = true ->
  all_settled order (List.length (optimizedChunks (state (this w)))) = true ->
  createAudio synthesis order w
  = finish_synthesis synthesis (optimizedChunks (state (this w)))
      (settle_all synthesis order (optimizedChunks (state (this w)))
         (start_synthesis w)).
Proof.
  unfold starts_job, createAudio. intros Hjob Hall.
  apply andb_true_iff in Hjob as [Hv Hs].
  destruct (useSystemVoice (state (this w))); [discriminate|].
  rewrite Hall. now destruct (audioStatus (state (this w))).
Qed.

(** The world when every remote call is back. *)
Lemma settled_world (synthesis : Synthesis) (order : list nat) (w : World) :
  all_settled order (List.length (optimizedChunks (state (this w)))) = true ->
  let units := optimizedChunks (state (this w)) in
  let w' := settle_all synthesis order units (start_synthesis w) in
  this w'
  = set_state
      (with_chunks (List.map (settled synthesis) units)
         (with_audioError None (with_audioStatus Creating (state (this w)))))
      (this w)
  /\ page w' = page w.
Proof.
  intros Hall units w'. subst w' units.
  destruct (optimizedChunks_shape (state (this w))) as [ts Hts].
  rewrite Hts in *.
  destruct (start_synthesis_spec w) as [Ht Hp]. rewrite Hts in Ht.
  destruct (settle_all_spec synthesis order ts (start_synthesis w)) as [Ht' Hp'].
  - now rewrite Ht.
  - exact Hall.
  - rewrite Ht', Hp', Ht, Hp. now split.
Qed.


Lemma some_success_count (synthesis : Synthesis) (l : list AudioChunk) :
  List.existsb (fun c => succeeded (synthesis c)) l = true ->
  (0 <? List.length (List.filter (fun c => succeeded (synthesis c)) l)) = true.
Proof.
  induction l as [|c l IH]; [discriminate|]. simpl.
  destruct (succeeded (synthesis c)); [reflexivity | exact IH].
Qed.

Lemma object_url_truthy (n : nat) : truthy (Some (object_url n)) = true.
Proof. reflexivity. Qed.

(** The world [createAudio] resolves with when a unit has succeeded. *)
Lemma createAudio_success (synthesis : Synthesis) (order : list nat) (w : World) :
  starts_job w = true ->
  all_settled order (List.length (optimizedChunks (state (this w)))) = true ->
  List.existsb (fun c => succeeded (synthesis c))
    (optimizedChunks (state (this w))) = true ->
  let units := optimizedChunks (state (this w)) in
  let w' := createAudio synthesis order w in
  state (this w')
  = with_audioStatus Ready
      (with_cachePath (Some (object_url (List.length (objects (page w)))))
         (with_chunks (List.map (settled synthesis) units)
            (with_audioError None (state (this w)))))
  /\ objects (page w')
     = objects (page w) ++ [audioBufferToWav (synthesized synthesis units)]
  /\ suspended (page w') = AwaitingUpload :: suspended (page w).
Proof.
  intros Hjob Hall Hsome units w'. subst w'.
  rewrite createAudio_runs by assumption.
  destruct (settled_world synthesis order w Hall) as [Ht Hp].
  fold units in Ht, Hp |- *.
  set (w4 := settle_all synthesis order units (start_synthesis w)) in *.
  unfold finish_synthesis. rewrite some_success_count by exact Hsome.
  unfold saveAudioForPlayback. rewrite Ht. simpl.
  destruct (optimizedChunks_shape (state (this w))) as [ts Hts].
  subst units. rewrite Hts in *.
  rewrite render_settled by exact Hsome.
  unfold createObjectURL. simpl.
  rewrite this_update, page_update. simpl. rewrite Ht, Hp. simpl.
  repeat split.
Qed.


End SynthesisClaims.

Section SynthesisTheorems.
Import Js Model Chunker Assembler Manager Spec.




(** C10.  On a manager that does not use the voice of the device,
    [createAudio] while the status is [Creating] or [Ready] changes
    nothing: the state record, the page and the journal, with its list of
    synthesis requests, are as before. *)
Theorem createAudio_ignored (synthesis : Synthesis) (order : list nat) (w : World) :
  useSystemVoice (state (this w)) = false ->
  audioStatus (state (this w)) = Creating
  \/ audioStatus (state (this w)) = Ready ->
  createAudio synthesis order w = w.
Proof.
  intros Hv Hs. unfold createAudio. rewrite Hv.
  now destruct Hs as [-> | ->].
Qed.

Lemma createAudio_ignored_witness :
  useSystemVoice (state (this Sample.created)) = false
  /\ audioStatus (state (this Sample.created)) = Ready
  /\ createAudio Sample.all_succeed [0; 1; 2] Sample.created = Sample.created.
Proof.
  split; [reflexivity|]. split; [reflexivity|].
  apply createAudio_ignored; [reflexivity | right; reflexivity].
Defined.

(** C4.  Assembly fails when no chunk is complete with a buffer, the
    empty set of chunks included.  Otherwise the track is the samples of
    the complete chunks in the order of their indices: its length is the
    sum of their lengths.  For a job, the track [createAudio] registers is
    made of the samples of the units that succeeded, in the order of the
    units, whatever the order in which the remote calls came back. *)
Theorem assembled_track :
  (forall cs, completeChunks cs = [] ->
     render cs = Thrown "Error: No complete audio chunks for playback")
  /\ (forall cs, completeChunks cs <> [] ->
        let sorted := sort_by_index (completeChunks cs) in
        render cs = Returned (samples_of sorted)
        /\ List.length (samples_of sorted)
           = list_sum (List.map buffer_length (completeChunks cs))
        /\ StronglySorted by_index sorted
        /\ Permutation sorted (completeChunks cs))
  /\ (forall synthesis order w,
        starts_job w = true ->
        all_settled order
          (List.length (optimizedChunks (state (this w)))) = true ->
        List.existsb (fun c => succeeded (synthesis c))
          (optimizedChunks (state (this w))) = true ->
        let units := optimizedChunks (state (this w)) in
        objects (page (createAudio synthesis order w))
        = objects (page w) ++ [audioBufferToWav (synthesized synthesis units)]
        /\ List.length (synthesized synthesis units)
           = list_sum
               (List.map
                  (fun c => match synthesis c with
                            | Returned b => ab_length b
                            | Thrown _ => 0
                            end) units)).
Proof.
  split; [|split].
  - intros cs H. pose proof (render_spec cs) as R. now rewrite H in R.
  - intros cs H sorted. subst sorted.
    pose proof (render_spec cs) as R.
    destruct (completeChunks cs) as [|c l] eqn:E; [congruence|].
    rewrite <- E in *. repeat split.
    + exact R.
    + rewrite length_samples_of. apply list_sum_perm.
      apply Permutation_map, sort_by_index_perm.
    + apply sort_by_index_sorted.
    + apply sort_by_index_perm.
  - intros synthesis order w Hjob Hall Hsome units. split.
    + now destruct (createAudio_success synthesis order w Hjob Hall Hsome)
        as (_ & Ho & _).
    + unfold synthesized. induction units as [|c l IH]; [reflexivity|].
      simpl. rewrite length_app, IH. unfold ab_length.
      now destruct (synthesis c).
Qed.

Lemma assembled_track_witness :
  completeChunks (chunks (state (this Sample.created))) <> []
  /\ render (chunks (state (this Sample.created)))
     = Returned [1; 1; 1; 2; 2; 2; 3; 3; 3]%Z
  /\ objects (page (createAudio Sample.second_fails [2; 0; 1] Sample.fresh))
     = [audioBufferToWav [1; 1; 1; 3; 3; 3]%Z].
Proof.
  assert (H1 : completeChunks (chunks (state (this Sample.created))) <> [])
    by (vm_compute; discriminate).
  assert (H2 : starts_job Sample.fresh = true) by (vm_compute; reflexivity).
  assert (H3 : all_settled [2; 0; 1]
                 (List.length (optimizedChunks (state (this Sample.fresh))))
               = true) by (vm_compute; reflexivity).
  assert (H4 : List.existsb (fun c => succeeded (Sample.second_fails c))
                 (optimizedChunks (state (this Sample.fresh))) = true)
    by (vm_compute; reflexivity).
  split; [exact H1|]. split.
  - rewrite (proj1 (proj1 (proj2 assembled_track) _ H1)).
    vm_compute. reflexivity.
  - rewrite (proj1 (proj2 (proj2 assembled_track) _ _ _ H2 H3 H4)).
    vm_compute. reflexivity.
Defined.

End SynthesisTheorems.

(** ** The manager: playback *)

Section PlaybackFacts.
Import Js Model Chunker Assembler Manager Spec.

Lemma keeps_setState (u : StateUpdate) : keeps (setState u).
Proof.
  intros w. unfold devices. now rewrite this_setState, page_setState.
Qed.

Lemma keeps_update (f : AudioManagerState -> AudioManagerState) :
  keeps (update f).
Proof. intros w. unfold update. apply keeps_setState. Qed.

Lemma keeps_compose (f g : World -> World) :
  keeps f -> keeps g -> keeps (fun w => g (f w)).
Proof. intros Hf Hg w. now rewrite Hg, Hf. Qed.

Lemma keeps_fold {X : Type} (F : X -> World -> World) (xs : list X) :
  (forall x, keeps (F x)) ->
  keeps (fun w => List.fold_left (fun w x => F x w) xs w).
Proof.
  intros H. induction xs as [|x xs IH]; intros w; [reflexivity|].
  rewrite fold_left_step, IH. apply H.
Qed.

Lemma keeps_update_chunk (i : nat) (g : AudioChunk -> AudioChunk) :
  keeps (update_chunk i g).
Proof. intros w. unfold update_chunk. apply keeps_update. Qed.

Lemma keeps_begin_chunk (c : AudioChunk) : keeps (begin_chunk c).
Proof. intros w. unfold begin_chunk. exact (keeps_update_chunk _ _ w). Qed.

Lemma keeps_settle_chunk (c : AudioChunk) (r : Outcome AudioBuffer) :
  keeps (settle_chunk c r).
Proof. intros w. unfold settle_chunk. destruct r; apply keeps_update_chunk. Qed.

Lemma keeps_start_synthesis : keeps start_synthesis.
Proof.
  intros w. unfold start_synthesis.
  rewrite (keeps_fold (fun c => begin_chunk c) _ keeps_begin_chunk).
  now rewrite !keeps_update.
Qed.

Lemma keeps_settle_all (synthesis : Synthesis) (order : list nat)
    (units : list AudioChunk) :
  keeps (settle_all synthesis order units).
Proof.
  unfold settle_all. apply (keeps_fold (fun i w => match units !! i with
                                                   | Some c => _ | None => w end)).
  intros i w. destruct (units !! i); [apply keeps_settle_chunk | reflexivity].
Qed.

Lemma keeps_finish_synthesis (synthesis : Synthesis) (units : list AudioChunk) :
  keeps (finish_synthesis synthesis units).
Proof.
  intros w. unfold finish_synthesis.
  destruct (0 <? _); [|apply keeps_update].
  unfold saveAudioForPlayback.
  destruct (render _); [|apply keeps_update].
  unfold createObjectURL, suspend, devices. simpl.
  now rewrite this_update, page_update.
Qed.

Lemma keeps_createAudio (synthesis : Synthesis) (order : list nat) :
  keeps (createAudio synthesis order).
Proof.
  intros w. unfold createAudio.
  destruct (useSystemVoice _); [apply keeps_update|].
  destruct (audioStatus _); try reflexivity;
    (destruct (negb _);
     [apply keeps_start_synthesis
     | now rewrite keeps_finish_synthesis, keeps_settle_all,
         keeps_start_synthesis]).
Qed.

Lemma keeps_initialize (config : AudioManagerConfig) (narration : string)
    (existing : bool) :
  keeps (initialize config narration existing).
Proof.
  intros w. unfold initialize.
  destruct (String.eqb _ _); [apply keeps_update|].
  destruct existing; now rewrite !keeps_update.
Qed.

Lemma keeps_upload (config : AudioManagerConfig) (storage : Storage) :
  keeps (upload config storage).
Proof.
  intros w. unfold upload. destruct (negb _); [reflexivity|].
  unfold saveAudioToS3InBackground, first_attempt, second_attempt.
  set (w1 := resume AwaitingUpload w).
  assert (H1 : devices w1 = devices w) by reflexivity.
  destruct (negb (truthy _)); simpl; [exact H1|].
  destruct (negb (first_fetch storage)); simpl.
  { destruct (negb (second_fetch storage)); simpl; [exact H1|].
    destruct (negb (second_put storage)); simpl; [exact H1|].
    now rewrite keeps_update. }
  destruct (negb (first_put storage)); simpl.
  { destruct (negb (second_fetch storage)); simpl; [exact H1|].
    destruct (negb (second_put storage)); simpl; [exact H1|].
    now rewrite keeps_update. }
  now rewrite keeps_update.
Qed.

(** [play] does what [select] says. *)
Lemma play_enacts (options : option PlayOptions) (w : World) :
  play options w = enact (select (state (this w)) options) w.
Proof.
  unfold play, select, enact, play_otherwise.
  destruct (isPlaying (state (this w))); [reflexivity|].
  rewrite this_update. simpl.
  destruct (wants_file options); simpl.
  - destruct (truthy (cachePath (state (this w)))); simpl; [reflexivity|].
    destruct (truthy (s3Path (state (this w)))); simpl; [reflexivity|].
    destruct (useSystemVoice (state (this w))); simpl; [reflexivity|].
    destruct (is_ready (audioStatus (state (this w)))); reflexivity.
  - destruct (useSystemVoice (state (this w))); simpl; [reflexivity|].
    destruct (is_ready (audioStatus (state (this w)))); simpl; [|reflexivity].
    destruct (truthy (cachePath (state (this w)))); simpl; [reflexivity|].
    destruct (truthy (s3Path (state (this w)))); reflexivity.
Qed.

Lemma devices_inv (w w' : World) :
  devices w' = devices w ->
  elements (page w') = elements (page w)
  /\ sources (page w') = sources (page w)
  /\ speech (page w') = speech (page w)
  /\ currentAudioElement (this w') = currentAudioElement (this w)
  /\ currentSource (this w') = currentSource (this w)
  /\ speechSynthesis (this w') = speechSynthesis (this w).
Proof. unfold devices. intros [= -> -> -> -> -> ->]. repeat split. Qed.

Lemma safe_ext (w w' : World) : devices w' = devices w -> Safe w -> Safe w'.
Proof.
  intros H [Hs Hn He Hv].
  apply devices_inv in H as (E1 & E2 & E3 & E4 & E5 & E6).
  constructor; rewrite ?E1, ?E2, ?E3, ?E4, ?E5, ?E6; assumption.
Qed.

Lemma silent_ext (w w' : World) : devices w' = devices w -> Silent w -> Silent w'.
Proof.
  intros H [Hc He Hv].
  apply devices_inv in H as (E1 & E2 & E3 & E4 & E5 & E6).
  constructor; rewrite ?E1, ?E2, ?E3, ?E4, ?E5, ?E6; assumption.
Qed.

Lemma safe_keeps (f : World -> World) (w : World) :
  keeps f -> Safe w -> Safe (f w).
Proof. intros Hf. apply safe_ext, Hf. Qed.

Lemma safe_constructor (config : AudioManagerConfig) (engine : bool) :
  Safe (constructor config engine).
Proof.
  constructor; simpl.
  - reflexivity.
  - reflexivity.
  - intros id e H. now rewrite lookup_nil in H.
  - discriminate.
Qed.

Lemma keeps_stop_source (w : World) :
  Safe w -> devices (stop_source w) = devices w.
Proof.
  intros [Hs _ _ _]. unfold stop_source.
  destruct (currentSource (this w)); [|reflexivity].
  rewrite Hs, lookup_nil. reflexivity.
Qed.

Lemma live_silence (e : AudioElement) : live (silence e) = false.
Proof. unfold live. simpl. now rewrite andb_false_r. Qed.

(** The block that stops the element leaves no element that sounds or
    will. *)
Lemma stop_element_spec (w : World) :
  Safe w ->
  Safe (stop_element w)
  /\ currentAudioElement (this (stop_element w)) = None
  /\ (forall id e, elements (page (stop_element w)) !! id = Some e ->
        live e = false)
  /\ speech (page (stop_element w)) = speech (page w)
  /\ speechSynthesis (this (stop_element w)) = speechSynthesis (this w).
Proof.
  intros [Hs Hn He Hv]. unfold stop_element.
  destruct (currentAudioElement (this w)) as [cur|] eqn:Hcur.
  - assert (Hquiet : forall id e,
              alter silence cur (elements (page w)) !! id = Some e ->
              live e = false
              /\ (el_paused e = false -> el_awaited e = false)
              /\ (el_muted e = true ->
                    el_onended e = false /\ el_onerror e = false)).
    { intros id e H. destruct (decide (cur = id)) as [->|Hne].
      - rewrite list_lookup_alter_eq in H.
        destruct (elements (page w) !! id) as [e0|]; [|discriminate].
        injection H as <-. split; [apply live_silence|].
        simpl. split; [discriminate | now split].
      - rewrite list_lookup_alter_ne in H by assumption.
        destruct (He id e H) as (H1 & H2 & H3). split; [|now split].
        destruct (live e); [|reflexivity].
        specialize (H1 eq_refl). congruence. }
    split; [|split; [|split; [|split]]]; try reflexivity.
    + constructor; simpl.
      * exact Hs.
      * exact Hn.
      * intros id e H. destruct (Hquiet id e H) as (H1 & H2 & H3).
        split; [|now split]. rewrite H1. discriminate.
      * intros H. split; [reflexivity|]. now apply Hv.
    + simpl. intros id e H. now apply Hquiet in H as [H _].
  - split; [|split; [|split; [|split]]]; try reflexivity.
    + constructor; rewrite ?Hcur; assumption.
    + exact Hcur.
    + intros id e H. destruct (He id e H) as [H1 _].
      destruct (live e); [|reflexivity]. now specialize (H1 eq_refl).
Qed.

Lemma idle_cancel (e : SpeechEngine) : idle_engine (cancel e) = true.
Proof. reflexivity. Qed.

Lemma stop_voice_spec (w : World) :
  Safe w ->
  currentAudioElement (this w) = None ->
  (forall id e, elements (page w) !! id = Some e -> live e = false) ->
  Safe (stop_voice w) /\ Silent (stop_voice w).
Proof.
  intros H Hcur Hquiet. unfold stop_voice.
  assert (Hidle : speechSynthesis (this w) = false ->
                  idle_engine (speech (page w)) = true).
  { intros Hengine. unfold idle_engine.
    destruct (speaking (speech (page w)) || pending (speech (page w)))
      eqn:E; [|reflexivity].
    destruct (safe_voice w H E) as [_ H']. congruence. }
  destruct (speechSynthesis (this w)) eqn:Hengine; simpl.
  - destruct (idle_engine (speech (page w))) eqn:Hi; simpl.
    + split; [exact H | now constructor].
    + destruct H as [Hs Hn He Hv].
      split; constructor; simpl; try assumption; try reflexivity.
      discriminate.
  - split; [exact H | constructor; auto].
Qed.

(** [stopAnyExistingAudio] keeps the invariant and leaves silence. *)
Lemma stopAnyExistingAudio_spec (w : World) :
  Safe w ->
  Safe (stopAnyExistingAudio w) /\ Silent (stopAnyExistingAudio w).
Proof.
  intros H. unfold stopAnyExistingAudio.
  set (w1 := if isPlaying (state (this w)) then _ else w).
  assert (H1 : Safe w1).
  { subst w1. destruct (isPlaying _); [|exact H].
    now apply (safe_keeps _ _ (keeps_update _)). }
  assert (H2 : Safe (stop_source w1))
    by (eapply safe_ext; [now apply keeps_stop_source | exact H1]).
  destruct (stop_element_spec _ H2) as (H3 & Hcur & Hquiet & _ & _).
  now apply stop_voice_spec.
Qed.

Lemma silent_idle (w : World) :
  Silent w ->
  speaking (speech (page w)) || pending (speech (page w)) = false.
Proof.
  intros [_ _ H]. unfold idle_engine in H.
  now destruct (speaking _ || pending _).
Qed.

Lemma safe_stop (w : World) : Safe w -> Safe (stop w) /\ Silent (stop w).
Proof.
  intros H. unfold stop.
  assert (H1 : Safe (on_this (set_manualStop true) w))
    by (eapply safe_ext; [|exact H]; reflexivity).
  destruct (stopAnyExistingAudio_spec _ H1) as [H2 H3].
  split.
  - now apply (safe_keeps _ _ (keeps_update _)).
  - eapply silent_ext; [apply keeps_update | exact H3].
Qed.

Lemma safe_destroy (w : World) : Safe w -> Safe (destroy w).
Proof.
  intros H. unfold destroy.
  assert (H1 : Safe (on_this (set_isDestroyed true) w))
    by (eapply safe_ext; [|exact H]; reflexivity).
  destruct (safe_stop _ H1) as [H2 _].
  eapply safe_ext; [|exact H2]. reflexivity.
Qed.

Lemma safe_playFromCache (path : string) (w : World) :
  Safe w -> Safe (playFromCache path w).
Proof.
  intros H. unfold playFromCache.
  destruct (stopAnyExistingAudio_spec _ H) as [[Hs Hn He Hv] Hsil].
  pose proof (silent_idle _ Hsil) as Hidle.
  destruct Hsil as [Hcur Hquiet _].
  set (w1 := stopAnyExistingAudio w) in *.
  constructor; simpl.
  - exact Hs.
  - exact Hn.
  - intros id e Hl.
    apply lookup_app_Some in Hl as [Hl | [Hlen Hl]].
    + destruct (He id e Hl) as (_ & H2 & H3).
      split; [|now split]. rewrite (Hquiet id e Hl). discriminate.
    + destruct (id - List.length (elements (page w1))) as [|k] eqn:Ek;
        [|now destruct k].
      injection Hl as <-. split; [|split].
      * intros _. f_equal. lia.
      * discriminate.
      * discriminate.
  - rewrite Hidle. discriminate.
Qed.

Lemma safe_alter_current (f : AudioElement -> AudioElement) (id : nat)
    (e : AudioElement) (w w' : World) :
  Safe w ->
  elements (page w) !! id = Some e ->
  element_ok (currentAudioElement (this w)) id (f e) ->
  elements (page w') = alter f id (elements (page w)) ->
  sources (page w') = sources (page w) ->
  speech (page w') = speech (page w) ->
  currentAudioElement (this w') = currentAudioElement (this w) ->
  speechSynthesis (this w') = speechSynthesis (this w) ->
  currentSource (this w') = currentSource (this w) ->
  Safe w'.
Proof.
  intros [Hs Hn He Hv] Hid Hok E1 E2 E3 E4 E5 E6.
  constructor; rewrite ?E1, ?E2, ?E3, ?E4, ?E5, ?E6; try assumption.
  intros j x Hj. destruct (decide (id = j)) as [<-|Hne].
  - rewrite list_lookup_alter_eq, Hid in Hj. now injection Hj as <-.
  - rewrite list_lookup_alter_ne in Hj by assumption. now apply He.
Qed.

(** An element that sounds or will is the one the manager refers to, so
    when it is dropped no other one sounds. *)
Lemma safe_drop_current (f : AudioElement -> AudioElement) (id : nat)
    (e : AudioElement) (w w' : World) :
  Safe w ->
  elements (page w) !! id = Some e ->
  live e = true ->
  live (f e) = false ->
  (el_paused (f e) = false -> el_awaited (f e) = false) ->
  (el_muted (f e) = true -> el_onended (f e) = false /\ el_onerror (f e) = false) ->
  elements (page w') = alter f id (elements (page w)) ->
  sources (page w') = sources (page w) ->
  speech (page w') = speech (page w) ->
  currentAudioElement (this w') = None ->
  speechSynthesis (this w') = speechSynthesis (this w) ->
  currentSource (this w') = currentSource (this w) ->
  Safe w'.
Proof.
  intros H Hid Hlive Hdead H2 H3 E1 E2 E3 E4 E5 E6.
  pose proof (safe_elements w H id e Hid) as (Hcur & _ & _).
  specialize (Hcur Hlive).
  destruct H as [Hs Hn He Hv].
  constructor; rewrite ?E1, ?E2, ?E3, ?E4, ?E5, ?E6; try assumption.
  - intros j x Hj. destruct (decide (id = j)) as [<-|Hne].
    + rewrite list_lookup_alter_eq, Hid in Hj. injection Hj as <-.
      split; [|now split]. rewrite Hdead. discriminate.
    + rewrite list_lookup_alter_ne in Hj by assumption.
      destruct (He j x Hj) as (G1 & G2 & G3). split; [|now split].
      intros Hx. specialize (G1 Hx). congruence.
  - intros Hsp. split; [reflexivity|]. now apply Hv.
Qed.

Lemma safe_played (id : nat) (answer : PlayAnswer) (w : World) :
  Safe w -> Safe (playFromCache_played id answer w).
Proof.
  intros H. unfold playFromCache_played.
  destruct (elements (page w) !! id) as [e|] eqn:Hid; [|exact H].
  destruct (el_awaited e) eqn:Haw; simpl; [|exact H].
  pose proof (safe_elements w H id e Hid) as (G1 & G2 & G3).
  assert (Hpaused : el_paused e = true).
  { destruct (el_paused e); [reflexivity|]. specialize (G2 eq_refl). congruence. }
  set (w1 := on_page _ w).
  assert (H1 : Safe w1).
  { eapply (safe_alter_current called id e w w1 H Hid); try reflexivity.
    split; [|split].
    - unfold live. simpl. rewrite Hpaused. simpl.
      rewrite andb_false_r. discriminate.
    - reflexivity.
    - exact G3. }
  assert (Hid1 : elements (page w1) !! id = Some (called e)).
  { subst w1. simpl. now rewrite list_lookup_alter_eq, Hid. }
  destruct (if el_failed e then PlayRejected else answer) eqn:Hans.
  - apply (safe_keeps _ _ (keeps_update _)).
    eapply (safe_alter_current start_playing id (called e) w1 _ H1 Hid1);
      try reflexivity.
    split; [|split].
    + intros Hl. apply G1. unfold live in *. simpl in Hl.
      now rewrite Haw, orb_true_r.
    + reflexivity.
    + exact G3.
  - apply (safe_keeps _ _ (keeps_update _)).
    eapply safe_ext; [|exact H1]. reflexivity.
  - exact H1.
Qed.

Lemma safe_element_ended (id : nat) (w : World) :
  Safe w -> Safe (element_ended id w).
Proof.
  intros H. unfold element_ended.
  destruct (elements (page w) !! id) as [e|] eqn:Hid; [|exact H].
  destruct (el_paused e) eqn:Hp; simpl; [exact H|].
  destruct (el_failed e) eqn:Hf; simpl; [exact H|].
  pose proof (safe_elements w H id e Hid) as (G1 & G2 & G3).
  specialize (G2 Hp).
  destruct (el_onended e) eqn:Hh.
  - assert (Hm : el_muted e = false).
    { destruct (el_muted e); [|reflexivity].
      destruct (G3 eq_refl). congruence. }
    eapply (safe_drop_current mark_paused id e w _ H Hid);
      try (simpl; destruct (manualStop (this w));
           rewrite ?this_update, ?page_update; reflexivity).
    + unfold live. now rewrite Hf, Hm, Hp.
    + unfold live. simpl. now rewrite G2, andb_false_r.
    + discriminate.
    + simpl. rewrite Hm. discriminate.
  - eapply (safe_alter_current mark_paused id e w _ H Hid); try reflexivity.
    split; [|split]; simpl.
    + unfold live. simpl. rewrite G2, andb_false_r. discriminate.
    + discriminate.
    + rewrite Hh. exact G3.
Qed.

Lemma safe_element_error (id : nat) (w : World) :
  Safe w -> Safe (element_error id w).
Proof.
  intros H. unfold element_error.
  destruct (elements (page w) !! id) as [e|] eqn:Hid; [|exact H].
  destruct (el_failed e) eqn:Hf; simpl; [exact H|].
  destruct (el_paused e && negb (el_awaited e)) eqn:Hc; [exact H|].
  pose proof (safe_elements w H id e Hid) as (G1 & G2 & G3).
  destruct (el_onerror e) eqn:Hh.
  - assert (Hm : el_muted e = false).
    { destruct (el_muted e); [|reflexivity].
      destruct (G3 eq_refl). congruence. }
    eapply (safe_drop_current mark_failed id e w _ H Hid);
      try (simpl; rewrite ?this_update, ?page_update; reflexivity).
    + unfold live. rewrite Hf, Hm. simpl.
      destruct (el_paused e); simpl in *; [|reflexivity].
      now destruct (el_awaited e).
    + exact G2.
    + simpl. rewrite Hm. discriminate.
  - eapply (safe_alter_current mark_failed id e w _ H Hid); try reflexivity.
    split; [|split]; simpl.
    + unfold live. simpl. discriminate.
    + exact G2.
    + rewrite Hh. exact G3.
Qed.

Lemma keeps_element_pause_event (id : nat) : keeps (element_pause_event id).
Proof.
  intros w. unfold element_pause_event.
  destruct (_ !! id); [apply keeps_update | reflexivity].
Qed.

Lemma engine_stop_source (w : World) :
  speechSynthesis (this (stop_source w)) = speechSynthesis (this w).
Proof.
  unfold stop_source. destruct (currentSource (this w)) as [i|]; [|reflexivity].
  destruct (sources (page w) !! i) as [b|]; [|reflexivity].
  now destruct (bs_started b).
Qed.

Lemma engine_stop_element (w : World) :
  speechSynthesis (this (stop_element w)) = speechSynthesis (this w).
Proof. unfold stop_element. now destruct (currentAudioElement (this w)). Qed.

Lemma engine_stop_voice (w : World) :
  speechSynthesis (this (stop_voice w)) = speechSynthesis (this w).
Proof. unfold stop_voice. now destruct (_ && _). Qed.

Lemma engine_stopAnyExistingAudio (w : World) :
  speechSynthesis (this (stopAnyExistingAudio w)) = speechSynthesis (this w).
Proof.
  unfold stopAnyExistingAudio.
  rewrite engine_stop_voice, engine_stop_element, engine_stop_source.
  destruct (isPlaying _); [|reflexivity]. now rewrite this_update.
Qed.

Lemma safe_playWithSystemVoice (w : World) :
  Safe w -> Safe (playWithSystemVoice w).
Proof.
  intros H. unfold playWithSystemVoice.
  destruct (speechSynthesis (this w)) eqn:Hengine; simpl;
    [|now apply (safe_keeps _ _ (keeps_update _))].
  destruct (stopAnyExistingAudio_spec _ H) as [H1 Hsil].
  set (w1 := stopAnyExistingAudio w) in *.
  set (w2 := on_this (set_speechUtterance _) w1).
  pose proof (keeps_update (with_isPlaying true) w2) as Hk.
  apply devices_inv in Hk as (E1 & E2 & E3 & E4 & E5 & E6).
  destruct H1 as [Hs Hn He Hv]. destruct Hsil as [Hcur Hquiet _].
  constructor; simpl; rewrite ?E1, ?E2, ?E3, ?E4, ?E5, ?E6; simpl.
  - exact Hs.
  - exact Hn.
  - exact He.
  - intros _. split; [exact Hcur|].
    subst w1. now rewrite engine_stopAnyExistingAudio.
Qed.

Lemma safe_utterance (f : World -> World) (spoken : bool) (w : World) :
  keeps f ->
  Safe w ->
  Safe (on_this (set_speechUtterance None)
          (f (if spoken
              then on_page (fun p => set_speech (next_utterance (speech p)) p) w
              else w))).
Proof.
  intros Hf H.
  set (w1 := if spoken then _ else w).
  apply (safe_ext (f w1)); [reflexivity|].
  apply (safe_keeps _ _ Hf). subst w1.
  destruct spoken; [|exact H].
  destruct H as [Hs Hn He Hv]. constructor; simpl; try assumption.
  intros Hp. apply Hv. rewrite orb_false_r in Hp. rewrite Hp.
  apply orb_true_r.
Qed.

Lemma keeps_playFromS3 (key : string) : keeps (playFromS3 key).
Proof. intros w. reflexivity. Qed.

Lemma safe_enact (b : Backend) (w : World) : Safe w -> Safe (enact b w).
Proof.
  intros H.
  pose proof (safe_keeps _ _ (keeps_update (with_isPlaying true)) H) as H1.
  destruct b; simpl.
  - exact H.
  - now apply safe_playFromCache.
  - now apply (safe_keeps _ _ (keeps_playFromS3 _)).
  - now apply safe_playWithSystemVoice.
  - now apply (safe_keeps _ _ (keeps_update _)).
  - now apply (safe_keeps _ _ (keeps_update _)).
Qed.

Lemma safe_play (options : option PlayOptions) (w : World) :
  Safe w -> Safe (play options w).
Proof. rewrite play_enacts. apply safe_enact. Qed.

Lemma safe_togglePlayback (options : option PlayOptions) (w : World) :
  Safe w -> Safe (togglePlayback options w).
Proof.
  intros H. unfold togglePlayback.
  destruct (useSystemVoice _ && _).
  - set (w1 := if Bool.eqb _ _ then w else _).
    assert (H1 : Safe w1).
    { subst w1. destruct (Bool.eqb _ _); [exact H|].
      now apply (safe_keeps _ _ (keeps_update _)). }
    destruct (isPlaying (state (this w1)));
      [now apply safe_stop | now apply safe_play].
  - destruct (isPlaying (state (this w)));
      [now apply safe_stop | now apply safe_play].
Qed.

Lemma safe_playFromS3_answered (key : string) (answer : StorageAnswer)
    (w : World) :
  Safe w -> Safe (playFromS3_answered key answer w).
Proof.
  intros H. unfold playFromS3_answered.
  destruct (negb _); [exact H|].
  assert (H1 : Safe (resume (AwaitingStorage key) w))
    by (eapply safe_ext; [|exact H]; reflexivity).
  destruct answer.
  - now apply (safe_keeps _ _ (keeps_update _)).
  - now apply (safe_keeps _ _ (keeps_update _)).
  - apply safe_playFromCache. now apply (safe_keeps _ _ (keeps_update _)).
  - unfold createObjectURL. apply safe_playFromCache.
    apply (safe_keeps _ _ (keeps_update _)).
    eapply safe_ext; [|exact H1]. reflexivity.
  - now apply (safe_keeps _ _ (keeps_update _)).
Qed.

Lemma keeps_speech_check : keeps speech_check.
Proof.
  intros w. unfold speech_check. destruct (speechSynthesis _); [|reflexivity].
  destruct (Bool.eqb _ _); [reflexivity | apply keeps_update].
Qed.

Lemma keeps_reset : keeps resetAudioState.
Proof.
  intros w. unfold resetAudioState.
  destruct (useSystemVoice _); apply keeps_update.
Qed.

(** Every step keeps the invariant of the playback engine. *)
Lemma safe_step (config : AudioManagerConfig) (op : Op) (w : World) :
  Safe w -> Safe (step config op w).
Proof.
  intros H. destruct op; simpl.
  - now apply (safe_keeps _ _ (keeps_initialize _ _ _)).
  - now apply (safe_keeps _ _ (keeps_createAudio _ _)).
  - now apply safe_play.
  - now apply safe_stop.
  - now apply safe_togglePlayback.
  - now apply (safe_keeps _ _ keeps_reset).
  - now apply (safe_keeps _ _ (keeps_update _)).
  - eapply safe_ext; [|exact H]; reflexivity.
  - eapply safe_ext; [|exact H]; reflexivity.
  - now apply safe_destroy.
  - now apply safe_played.
  - now apply safe_playFromS3_answered.
  - now apply (safe_keeps _ _ (keeps_upload _ _)).
  - now apply safe_element_ended.
  - now apply safe_element_error.
  - now apply (safe_keeps _ _ (keeps_element_pause_event _)).
  - destruct (spoken && _); [exact H|].
    unfold utterance_end.
    apply (safe_utterance
             (fun w => if manualStop (this w) then w
                       else update (with_isPlaying false) w)); [|exact H].
    intros w0. destruct (manualStop _); [reflexivity | apply keeps_update].
  - destruct (spoken && _); [exact H|].
    unfold utterance_error.
    now apply (safe_utterance (update _) spoken w (keeps_update _)).
  - now apply (safe_keeps _ _ keeps_speech_check).
  - eapply safe_ext; [|exact H]; reflexivity.
  - now apply (safe_keeps _ _ (keeps_setState _)).
Qed.

Lemma safe_run (config : AudioManagerConfig) (ops : list Op) (w : World) :
  Safe w -> Safe (run config ops w).
Proof.
  revert w. induction ops as [|op ops IH]; intros w H; [exact H|].
  unfold run. rewrite fold_left_step. apply IH. now apply safe_step.
Qed.

(** Under the invariant, two sources that are heard are one. *)
Lemma safe_one_audible (w : World) (a b : Source) :
  Safe w -> audible a w = true -> audible b w = true -> a = b.
Proof.
  intros [Hs Hn He Hv] Ha Hb.
  assert (Hel : forall id, audible (ElementSource id) w = true ->
                  currentAudioElement (this w) = Some id).
  { intros id H. simpl in H.
    destruct (elements (page w) !! id) as [e|] eqn:E; [|discriminate].
    destruct (He id e E) as [H1 _]. apply H1. unfold live.
    apply andb_true_iff in H as [H Hf]. apply andb_true_iff in H as [Hp Hm].
    now rewrite Hf, Hm, Hp. }
  assert (Hno : forall id, audible (BufferNode id) w = false).
  { intros id. simpl. now rewrite Hs, lookup_nil. }
  assert (Hvo : audible Voice w = true -> currentAudioElement (this w) = None).
  { simpl. intros H. apply Hv. now rewrite H. }
  destruct a as [i| i |], b as [j| j |];
    try (rewrite Hno in *; discriminate); try reflexivity.
  - pose proof (Hel i Ha). pose proof (Hel j Hb). congruence.
  - pose proof (Hel i Ha). pose proof (Hvo Hb). congruence.
  - pose proof (Hel j Hb). pose proof (Hvo Ha). congruence.
Qed.

Lemma silent_nothing_audible (w : World) (src : Source) :
  Safe w -> Silent w -> audible src w = false.
Proof.
  intros [Hs Hn He Hv] Hsil. pose proof (silent_idle _ Hsil) as Hidle.
  destruct Hsil as [Hcur Hquiet _]. destruct src as [id|id|]; simpl.
  - destruct (elements (page w) !! id) as [e|] eqn:E; [|reflexivity].
    specialize (Hquiet id e E). unfold live in Hquiet.
    destruct (el_paused e), (el_muted e), (el_failed e); simpl in *;
      congruence.
  - now rewrite Hs, lookup_nil.
  - now apply orb_false_iff in Hidle as [H _].
Qed.

Lemma elements_stop_voice (w : World) :
  elements (page (stop_voice w)) = elements (page w)
  /\ currentAudioElement (this (stop_voice w)) = currentAudioElement (this w)
  /\ manualStop (this (stop_voice w)) = manualStop (this w)
  /\ state (this (stop_voice w)) = state (this w).
Proof. unfold stop_voice. now destruct (_ && _). Qed.

Lemma elements_stop_element (w : World) :
  elements (page (stop_element w))
  = match currentAudioElement (this w) with
    | Some id => alter silence id (elements (page w))
    | None => elements (page w)
    end
  /\ manualStop (this (stop_element w)) = manualStop (this w)
  /\ state (this (stop_element w)) = state (this w).
Proof. unfold stop_element. now destruct (currentAudioElement (this w)). Qed.

Lemma stop_source_none (w : World) :
  currentSource (this w) = None -> stop_source w = w.
Proof. unfold stop_source. now intros ->. Qed.

(** What [stopAnyExistingAudio] does to the element the manager refers
    to: it is paused, rewound and muted, and its handlers are taken off. *)
Lemma stopAnyExistingAudio_elements (w : World) :
  Safe w ->
  elements (page (stopAnyExistingAudio w))
  = match currentAudioElement (this w) with
    | Some id => alter silence id (elements (page w))
    | None => elements (page w)
    end.
Proof.
  intros H. unfold stopAnyExistingAudio.
  set (w1 := if isPlaying (state (this w)) then _ else w).
  assert (H1 : devices w1 = devices w).
  { subst w1. destruct (isPlaying _); [apply keeps_update | reflexivity]. }
  pose proof (safe_ext _ _ H1 H) as S1.
  apply devices_inv in H1 as (E1 & _ & _ & E4 & _ & _).
  rewrite stop_source_none by apply (safe_no_source _ S1).
  destruct (elements_stop_voice (stop_element w1)) as (-> & _).
  destruct (elements_stop_element w1) as (-> & _).
  now rewrite E1, E4.
Qed.

Lemma stopAnyExistingAudio_manualStop (w : World) :
  Safe w ->
  manualStop (this (stopAnyExistingAudio w)) = manualStop (this w).
Proof.
  intros H. unfold stopAnyExistingAudio.
  set (w1 := if isPlaying (state (this w)) then _ else w).
  assert (H1 : manualStop (this w1) = manualStop (this w)).
  { subst w1. destruct (isPlaying _); [|reflexivity]. now rewrite this_update. }
  assert (S1 : Safe w1).
  { subst w1. destruct (isPlaying _); [|exact H].
    now apply (safe_keeps _ _ (keeps_update _)). }
  rewrite stop_source_none by apply (safe_no_source _ S1).
  destruct (elements_stop_voice (stop_element w1)) as (_ & _ & -> & _).
  destruct (elements_stop_element w1) as (_ & -> & _).
  exact H1.
Qed.

Lemma set_manualStop_same (m : Manager) :
  manualStop m = true -> set_manualStop true m = m.
Proof. destruct m. simpl. now intros ->. Qed.

Lemma with_isPlaying_same (s : AudioManagerState) :
  isPlaying s = false -> with_isPlaying false s = s.
Proof. destruct s. simpl. now intros ->. Qed.

(** [stop] on a manager that is stopped changes neither the manager nor
    the page. *)
Lemma stop_when_stopped (w : World) :
  isPlaying (state (this w)) = false ->
  manualStop (this w) = true ->
  currentSource (this w) = None ->
  currentAudioElement (this w) = None ->
  idle_engine (speech (page w)) = true ->
  this (stop w) = this w /\ page (stop w) = page w.
Proof.
  intros Hp Hm Hsrc Hcur Hidle.
  unfold stop, stopAnyExistingAudio. simpl. rewrite Hp.
  rewrite stop_source_none by exact Hsrc.
  unfold stop_element. simpl. rewrite Hcur.
  unfold stop_voice. simpl. rewrite Hidle, andb_false_r.
  rewrite this_update, page_update. simpl.
  rewrite with_isPlaying_same by exact Hp.
  rewrite set_manualStop_same by exact Hm.
  now rewrite set_state_same.
Qed.

Lemma stop_idempotent (w : World) :
  Safe w ->
  this (stop (stop w)) = this (stop w) /\ page (stop (stop w)) = page (stop w).
Proof.
  intros H. destruct (safe_stop w H) as [S1 Sil].
  apply stop_when_stopped.
  - unfold stop. now rewrite this_update.
  - unfold stop. rewrite this_update. simpl.
    rewrite stopAnyExistingAudio_manualStop; [reflexivity|].
    eapply safe_ext; [|exact H]. reflexivity.
  - apply (safe_no_source _ S1).
  - apply (silent_current _ Sil).
  - apply (silent_voice _ Sil).
Qed.

Lemma frame_stop_source (w : World) :
  elements (page (stop_source w)) = elements (page w)
  /\ speech (page (stop_source w)) = speech (page w)
  /\ suspended (page (stop_source w)) = suspended (page w)
  /\ currentAudioElement (this (stop_source w)) = currentAudioElement (this w)
  /\ speechSynthesis (this (stop_source w)) = speechSynthesis (this w)
  /\ state (this (stop_source w)) = state (this w).
Proof.
  unfold stop_source. destruct (currentSource (this w)) as [i|]; [|easy].
  destruct (sources (page w) !! i) as [b|]; [|easy].
  now destruct (bs_started b).
Qed.

(** The state [stopAnyExistingAudio] leaves: not playing, or else as it
    was. *)
Lemma stopAnyExistingAudio_state (w : World) :
  state (this (stopAnyExistingAudio w)) = with_isPlaying false (state (this w)).
Proof.
  unfold stopAnyExistingAudio.
  set (w1 := if isPlaying (state (this w)) then _ else w).
  destruct (elements_stop_voice (stop_element (stop_source w1))) as (_ & _ & _ & ->).
  destruct (elements_stop_element (stop_source w1)) as (_ & _ & ->).
  destruct (frame_stop_source w1) as (_ & _ & _ & _ & _ & ->).
  subst w1. destruct (isPlaying (state (this w))) eqn:E.
  - now rewrite this_update.
  - now rewrite with_isPlaying_same.
Qed.

Lemma stopAnyExistingAudio_page (w : World) :
  elements (page (stopAnyExistingAudio w))
  = match currentAudioElement (this w) with
    | Some id => alter silence id (elements (page w))
    | None => elements (page w)
    end
  /\ suspended (page (stopAnyExistingAudio w)) = suspended (page w).
Proof.
  unfold stopAnyExistingAudio.
  set (w1 := if isPlaying (state (this w)) then _ else w).
  assert (H1 : this w1 = (if isPlaying (state (this w))
                          then set_state (with_isPlaying false (state (this w)))
                                 (this w)
                          else this w)
               /\ page w1 = page w).
  { subst w1. destruct (isPlaying _); [|easy].
    now rewrite this_update, page_update. }
  destruct H1 as [Ht Hp].
  destruct (frame_stop_source w1) as (E1 & _ & E3 & E4 & _).
  split.
  - destruct (elements_stop_voice (stop_element (stop_source w1))) as (-> & _).
    destruct (elements_stop_element (stop_source w1)) as (-> & _).
    rewrite E1, E4, Hp, Ht. now destruct (isPlaying _).
  - unfold stop_voice. destruct (_ && _); simpl;
      (unfold stop_element; destruct (currentAudioElement _); simpl;
       now rewrite E3, Hp).
Qed.

Lemma stopAnyExistingAudio_twice (w : World) :
  Safe w -> stopAnyExistingAudio (stopAnyExistingAudio w) = stopAnyExistingAudio w.
Proof.
  intros H. destruct (stopAnyExistingAudio_spec w H) as [S1 Sil].
  set (w1 := stopAnyExistingAudio w) in *.
  unfold stopAnyExistingAudio at 1.
  assert (Hp : isPlaying (state (this w1)) = false)
    by (subst w1; now rewrite stopAnyExistingAudio_state).
  rewrite Hp, stop_source_none by apply (safe_no_source _ S1).
  unfold stop_element. rewrite (silent_current _ Sil).
  unfold stop_voice. now rewrite (silent_voice _ Sil), andb_false_r.
Qed.

End PlaybackFacts.

(** ** Claims on playback *)

Section PlaybackTheorems.
Import Js Model Chunker Assembler Manager Spec.

(** C2 (as amended).  [play] does nothing when the state says it plays
    already.  Otherwise it looks, in this order: for the durable file when
    the options ask for it and a track is known, the local one first; for
    the voice of the device when the job uses it; for a track when the
    status is [Ready], the local one first.  When the status is not
    [Ready] it only sets [isPlaying] back to [false], with no error; when
    the status is [Ready] and no track is known it sets the status to
    [Error] with the message "No audio path available for playback". *)
Theorem play_backend_selection (options : option PlayOptions) (w : World) :
  let s := state (this w) in
  let w' := play options w in
  w' = enact (select s options) w
  /\ match select s options with
     | AlreadyPlaying => w' = w
     | LocalTrack path =>
         elements (page w')
         = match currentAudioElement (this w) with
           | Some id => alter silence id (elements (page w))
           | None => elements (page w)
           end ++ [new_audio path]
         /\ currentAudioElement (this w')
            = Some (List.length (elements (page w)))
         /\ suspended (page w') = suspended (page w)
     | RemoteTrack key =>
         suspended (page w') = AwaitingStorage key :: suspended (page w)
         /\ elements (page w') = elements (page w)
         /\ speech (page w') = speech (page w)
     | OnDeviceVoice =>
         if speechSynthesis (this w)
         then speaking (speech (page w')) = true
              /\ speechUtterance (this w')
                 = Some (join " " (List.map text (chunks s)))
              /\ isPlaying (state (this w')) = true
         else state (this w')
              = with_audioError (Some "Speech synthesis not available")
                  (with_audioStatus Error s)
     | NotReady => state (this w') = s /\ page w' = page w
     | NoSource =>
         state (this w')
         = with_audioError (Some "No audio path available for playback")
             (with_audioStatus Error s)
         /\ page w' = page w
     end.
Proof.
  intros s w'. subst w'. rewrite play_enacts. split; [reflexivity|].
  fold s. unfold select.
  destruct (isPlaying s) eqn:Hplay; [reflexivity|].
  set (w1 := update (with_isPlaying true) w).
  assert (Ht1 : this w1 = set_state (with_isPlaying true s) (this w))
    by (subst w1 s; apply this_update).
  assert (Hp1 : page w1 = page w) by (subst w1; apply page_update).
  assert (Hlocal : forall path,
    elements (page (playFromCache path w1))
    = match currentAudioElement (this w) with
      | Some id => alter silence id (elements (page w))
      | None => elements (page w)
      end ++ [new_audio path]
    /\ currentAudioElement (this (playFromCache path w1))
       = Some (List.length (elements (page w)))
    /\ suspended (page (playFromCache path w1)) = suspended (page w)).
  { intros path. unfold playFromCache. simpl.
    destruct (stopAnyExistingAudio_page w1) as [-> ->].
    rewrite Ht1, Hp1. simpl. repeat split.
    f_equal. destruct (currentAudioElement (this w));
      [apply length_alter | reflexivity]. }
  assert (Hnot : state (this (update (with_isPlaying false) w1)) = s
                 /\ page (update (with_isPlaying false) w1) = page w).
  { rewrite this_update, page_update, Ht1, Hp1. simpl. split; [|reflexivity].
    change (with_isPlaying false (with_isPlaying true s))
      with (with_isPlaying false s).
    now apply with_isPlaying_same. }
  assert (Hnone :
    state (this (enact NoSource w))
    = with_audioError (Some "No audio path available for playback")
        (with_audioStatus Error s)
    /\ page (enact NoSource w) = page w).
  { simpl. fold w1. rewrite this_update, page_update, Ht1, Hp1. simpl.
    split; [|reflexivity]. subst s. destruct (state (this w)). simpl in *.
    now rewrite Hplay. }
  assert (Hvoice :
    if speechSynthesis (this w)
    then speaking (speech (page (playWithSystemVoice w1))) = true
         /\ speechUtterance (this (playWithSystemVoice w1))
            = Some (join " " (List.map text (chunks s)))
         /\ isPlaying (state (this (playWithSystemVoice w1))) = true
    else state (this (playWithSystemVoice w1))
         = with_audioError (Some "Speech synthesis not available")
             (with_audioStatus Error s)).
  { unfold playWithSystemVoice. rewrite Ht1. simpl.
    destruct (speechSynthesis (this w)) eqn:He; simpl.
    - rewrite this_update, page_update. simpl.
      rewrite stopAnyExistingAudio_state, Ht1. simpl.
      repeat split. unfold speak.
      now destruct (speaking (speech (page (stopAnyExistingAudio w1)))).
    - rewrite this_update, Ht1. simpl.
      subst s. destruct (state (this w)). simpl in *. now rewrite Hplay. }
  destruct (wants_file options); simpl.
  - destruct (truthy (cachePath s)); simpl; [apply Hlocal|].
    destruct (truthy (s3Path s)); simpl.
    { fold w1. unfold playFromS3, suspend. simpl. now rewrite Hp1. }
    destruct (useSystemVoice s); [exact Hvoice|].
    destruct (is_ready (audioStatus s)); simpl; [exact Hnone | exact Hnot].
  - destruct (useSystemVoice s); [exact Hvoice|].
    destruct (is_ready (audioStatus s)); simpl; [|exact Hnot].
    destruct (truthy (cachePath s)); simpl; [apply Hlocal|].
    destruct (truthy (s3Path s)); simpl; [|exact Hnone].
    fold w1. unfold playFromS3, suspend. simpl. now rewrite Hp1.
Qed.

(** C2 as stated fails: with a status that is not [Ready] and no track,
    [play] raises no error; the message of the error it raises without a
    track is another one; and a manager that plays already does nothing. *)
Lemma play_without_source :
  audioStatus (state (this (play None Sample.fresh))) = NotCreated
  /\ audioError (state (this (play None Sample.fresh))) = None
  /\ audioError (state (this (play None Sample.lost_track)))
     = Some "No audio path available for playback"
  /\ isPlaying (state (this Sample.playing)) = true
  /\ play (Some {| forceUseFile := Some true |}) Sample.playing
     = Sample.playing.
Proof. vm_compute. repeat split. Qed.

Lemma run_app (config : AudioManagerConfig) (ops more : list Op) (w : World) :
  run config (ops ++ more) w = run config more (run config ops w).
Proof. unfold run. apply List.fold_left_app. Qed.

(** C3.  At every point of the life of a manager at most one source is
    heard.  [stopAnyExistingAudio] leaves nothing heard: the element the
    manager referred to is paused, rewound and muted with its handlers
    off, the voice is cancelled, and the references to the element and to
    a buffer source are cleared.  The two functions that start a backend
    begin with it, so they start from that silence.  [stop] is idempotent,
    and after [stop] then [play], whatever follows, at most one source is
    heard. *)
Theorem one_playback_session (config : AudioManagerConfig) (engine : bool)
    (ops : list Op) :
  let w := run config ops (constructor config engine) in
  (forall a b, audible a w = true -> audible b w = true -> a = b)
  /\ (let w' := stopAnyExistingAudio w in
      (forall src, audible src w' = false)
      /\ currentAudioElement (this w') = None
      /\ currentSource (this w') = None
      /\ idle_engine (speech (page w')) = true
      /\ elements (page w')
         = match currentAudioElement (this w) with
           | Some id => alter silence id (elements (page w))
           | None => elements (page w)
           end)
  /\ (forall path,
        playFromCache path w = playFromCache path (stopAnyExistingAudio w))
  /\ (speechSynthesis (this w) = true ->
      playWithSystemVoice w = playWithSystemVoice (stopAnyExistingAudio w))
  /\ (this (stop (stop w)) = this (stop w)
      /\ page (stop (stop w)) = page (stop w))
  /\ (forall options more a b,
        let w' := run config (Stop :: Play options :: more) w in
        audible a w' = true -> audible b w' = true -> a = b).
Proof.
  intros w.
  assert (H : Safe w) by (apply safe_run, safe_constructor).
  clearbody w.
  destruct (stopAnyExistingAudio_spec w H) as [S1 Sil].
  split; [|split; [|split; [|split; [|split]]]].
  - intros a b. now apply safe_one_audible.
  - repeat split.
    + intros src. now apply silent_nothing_audible.
    + apply (silent_current _ Sil).
    + apply (safe_no_source _ S1).
    + apply (silent_voice _ Sil).
    + apply (proj1 (stopAnyExistingAudio_page w)).
  - intros path. unfold playFromCache.
    now rewrite stopAnyExistingAudio_twice.
  - intros He. unfold playWithSystemVoice.
    rewrite engine_stopAnyExistingAudio, He. cbv [negb].
    now rewrite stopAnyExistingAudio_twice.
  - now apply stop_idempotent.
  - intros options more a b w'. apply safe_one_audible.
    subst w'. now apply safe_run.
Qed.

Lemma one_playback_session_witness :
  let w := run Sample.config
             [Subscribe 7; Initialize Sample.narration false;
              CreateAudio Sample.all_succeed [0; 1; 2];
              Play None; Played 0 PlayStarted; Stop;
              Play (Some {| forceUseFile := Some true |});
              Played 0 PlayStarted; Played 1 PlayStarted]
             (constructor Sample.config true) in
  audible (ElementSource 1) w = true
  /\ forall b, audible b w = true -> ElementSource 1 = b.
Proof.
  intros w.
  assert (H1 : audible (ElementSource 1) w = true) by (vm_compute; reflexivity).
  split; [exact H1|].
  intros b.
  exact (proj1 (one_playback_session Sample.config true
           [Subscribe 7; Initialize Sample.narration false;
            CreateAudio Sample.all_succeed [0; 1; 2];
            Play None; Played 0 PlayStarted; Stop;
            Play (Some {| forceUseFile := Some true |});
            Played 0 PlayStarted; Played 1 PlayStarted])
           (ElementSource 1) b H1).
Defined.

End PlaybackTheorems.

(** ** The manager after [destroy] *)

Section DestroyFacts.
Import Js Model Chunker Assembler Manager Spec.

Lemma hush_refl (w : World) : isDestroyed (this w) = true -> hush w w.
Proof. now split. Qed.

Lemma hush_setState (u : StateUpdate) (w x : World) :
  hush w x -> hush w (setState u x).
Proof.
  intros [Hd Hj]. split.
  - now rewrite this_setState.
  - now rewrite journal_setState, Hd.
Qed.

Lemma hush_update (f : AudioManagerState -> AudioManagerState) (w x : World) :
  hush w x -> hush w (update f x).
Proof. apply hush_setState. Qed.

Lemma hush_on_this (g : Manager -> Manager) (w x : World) :
  (forall m, isDestroyed (g m) = isDestroyed m) ->
  hush w x -> hush w (on_this g x).
Proof. intros Hg [Hd Hj]. split; simpl; [now rewrite Hg | exact Hj]. Qed.

Lemma hush_on_page (g : Page -> Page) (w x : World) :
  hush w x -> hush w (on_page g x).
Proof. intros [Hd Hj]. now split. Qed.

Lemma hush_request (c : AudioChunk) (w x : World) :
  hush w x -> hush w (on_journal (request c) x).
Proof. intros [Hd Hj]. now split. Qed.

Lemma hush_fold {X : Type} (F : X -> World -> World) (xs : list X) (w : World) :
  (forall x y, hush w y -> hush w (F x y)) ->
  forall y, hush w y -> hush w (List.fold_left (fun w x => F x w) xs y).
Proof.
  intros HF. induction xs as [|x xs IH]; intros y Hy; [exact Hy|].
  rewrite fold_left_step. apply IH, HF, Hy.
Qed.

(** Peels the calls a method is made of, outermost first. *)
Ltac hush_step :=
  first
    [ assumption
    | apply hush_update
    | apply hush_setState
    | apply hush_on_page
    | apply hush_request
    | apply hush_on_this; [intros ?; reflexivity|]
    | match goal with
      | |- hush _ (if ?b then _ else _) => destruct b
      | |- hush _ (match ?o with _ => _ end) => destruct o
      | |- hush _ (let '(_, _) := ?o in _) => destruct o
      end ].

Ltac hush := cbv zeta; repeat hush_step.

Lemma hush_stopAnyExistingAudio (w x : World) :
  hush w x -> hush w (stopAnyExistingAudio x).
Proof.
  intros H. unfold stopAnyExistingAudio, stop_voice, stop_element, stop_source.
  hush.
Qed.

Lemma hush_stop (w x : World) : hush w x -> hush w (stop x).
Proof.
  intros H. unfold stop. apply hush_update, hush_stopAnyExistingAudio. hush.
Qed.

Lemma hush_playFromCache (path : string) (w x : World) :
  hush w x -> hush w (playFromCache path x).
Proof.
  intros H. unfold playFromCache. cbv zeta.
  apply hush_on_this; [intros ?; reflexivity|].
  apply hush_on_page. now apply hush_stopAnyExistingAudio.
Qed.

Lemma hush_playWithSystemVoice (w x : World) :
  hush w x -> hush w (playWithSystemVoice x).
Proof.
  intros H. unfold playWithSystemVoice.
  destruct (negb _); [hush|]. cbv zeta.
  apply hush_on_page, hush_update.
  apply hush_on_this; [intros ?; reflexivity|].
  now apply hush_stopAnyExistingAudio.
Qed.

Lemma hush_play (options : option PlayOptions) (w x : World) :
  hush w x -> hush w (play options x).
Proof.
  intros H. rewrite play_enacts.
  destruct (select _ _); simpl.
  - exact H.
  - apply hush_playFromCache. hush.
  - unfold playFromS3, suspend. hush.
  - apply hush_playWithSystemVoice. hush.
  - hush.
  - hush.
Qed.

Lemma hush_createAudio (synthesis : Synthesis) (order : list nat) (w x : World) :
  hush w x -> hush w (createAudio synthesis order x).
Proof.
  intros H. unfold createAudio.
  destruct (useSystemVoice _); [hush|].
  assert (Hstart : hush w (start_synthesis x)).
  { unfold start_synthesis. cbv zeta.
    apply (hush_fold (fun c => begin_chunk c)).
    - intros c y Hy. unfold begin_chunk, update_chunk. hush.
    - hush. }
  assert (Hsettle : hush w (settle_all synthesis order
                              (optimizedChunks (state (this x)))
                              (start_synthesis x))).
  { unfold settle_all.
    apply (hush_fold
             (fun i y => match optimizedChunks (state (this x)) !! i with
                         | Some c => settle_chunk c (synthesis c) y
                         | None => y
                         end)); [|exact Hstart].
    intros i y Hy. unfold settle_chunk, update_chunk. hush. }
  assert (Hfinish : forall y, hush w y ->
            hush w (finish_synthesis synthesis
                      (optimizedChunks (state (this x))) y)).
  { intros y Hy. unfold finish_synthesis. cbv zeta.
    destruct (0 <? _); [|hush].
    unfold saveAudioForPlayback. destruct (render _); [|hush].
    unfold createObjectURL, suspend. hush. }
  destruct (audioStatus _); try exact H;
    (destruct (negb _); [exact Hstart | now apply Hfinish]).
Qed.

Lemma hush_upload (config : AudioManagerConfig) (storage : Storage) (w x : World) :
  hush w x -> hush w (upload config storage x).
Proof.
  intros H. unfold upload. destruct (negb _); [exact H|].
  assert (H1 : hush w (resume AwaitingUpload x)) by (unfold resume; hush).
  unfold saveAudioToS3InBackground, first_attempt, second_attempt.
  repeat (match goal with
          | |- context [if ?b then _ else _] => destruct b; simpl
          end); hush.
Qed.

(** On a destroyed manager a step that is not [subscribe] hands no
    snapshot to anyone; [subscribe] hands one, to the listener it is
    called with. *)
Lemma destroyed_step (config : AudioManagerConfig) (op : Op) (w : World) :
  isDestroyed (this w) = true ->
  isDestroyed (this (step config op w)) = true
  /\ delivered (journal (step config op w))
     = match op with
       | Subscribe l => (l, state (this w)) :: delivered (journal w)
       | _ => delivered (journal w)
       end.
Proof.
  intros Hd. pose proof (hush_refl w Hd) as H.
  destruct op; cbn [step];
    try match goal with
        | |- isDestroyed (this ?X) = true
             /\ delivered (journal ?X) = delivered (journal w) =>
            change (hush w X)
        end.
  - unfold initialize. hush.
  - now apply hush_createAudio.
  - now apply hush_play.
  - now apply hush_stop.
  - unfold togglePlayback.
    destruct (_ && _); cbv zeta;
      repeat match goal with
             | |- hush _ (if isPlaying _ then _ else _) =>
                 destruct (isPlaying _)
             end;
      try (apply hush_stop; hush); try (apply hush_play; hush).
  - unfold resetAudioState. hush.
  - unfold updateS3Path. hush.
  - split; [exact Hd | reflexivity].
  - unfold unsubscribe. hush.
  - unfold destroy. cbv zeta.
    apply hush_on_this; [intros ?; reflexivity|].
    apply hush_stop. split; [reflexivity | exact (proj2 H)].
  - unfold playFromCache_played. hush.
  - unfold playFromS3_answered, storage_failure, createObjectURL, resume.
    destruct (negb _); [exact H|].
    destruct answer; cbv zeta; try (apply hush_playFromCache); hush.
  - now apply hush_upload.
  - unfold element_ended. hush.
  - unfold element_error. hush.
  - unfold element_pause_event. hush.
  - destruct (_ && _); [exact H|]. unfold utterance_end. hush.
  - destruct (_ && _); [exact H|]. unfold utterance_error. hush.
  - unfold speech_check. hush.
  - unfold manual_stop_expired. hush.
  - hush.
Qed.

Lemma destroy_hushed (w : World) :
  isDestroyed (this (destroy w)) = true
  /\ delivered (journal (destroy w)) = delivered (journal w).
Proof.
  unfold destroy. cbv zeta.
  set (w1 := on_this (set_isDestroyed true) w).
  change (hush w1 (on_this (set_stateListeners []) (stop w1))).
  apply hush_on_this; [intros ?; reflexivity|].
  apply hush_stop. now apply hush_refl.
Qed.

Lemma received_destroyed_run (config : AudioManagerConfig) (l : Listener)
    (ops : list Op) :
  List.existsb (subscribes l) ops = false ->
  forall w, isDestroyed (this w) = true ->
    received l (run config ops w) = received l w.
Proof.
  induction ops as [|op ops IH]; intros Hops w Hd; [reflexivity|].
  simpl in Hops. apply orb_false_iff in Hops as [Hop Hops].
  unfold run. rewrite fold_left_step. fold (run config ops (step config op w)).
  destruct (destroyed_step config op w Hd) as [Hd' Hj].
  rewrite (IH Hops _ Hd'). unfold received. rewrite Hj.
  destruct op; try reflexivity.
  simpl in Hop. simpl. now rewrite Hop.
Qed.

Lemma length_answers (config : AudioManagerConfig) (l : Listener)
    (ops : list Op) :
  forall w,
    List.length (answers config l ops w)
    = List.length (List.filter (subscribes l) ops).
Proof.
  induction ops as [|op ops IH]; intros w; [reflexivity|].
  simpl. rewrite length_app, IH.
  destruct (subscribes l op); simpl; lia.
Qed.

(** On a destroyed manager a listener is handed the answers of
    [subscribe] to its own calls and nothing else. *)
Lemma received_destroyed_answers (config : AudioManagerConfig) (l : Listener)
    (ops : list Op) :
  forall w, isDestroyed (this w) = true ->
    received l (run config ops w)
    = answers config l ops w ++ received l w
    /\ isDestroyed (this (run config ops w)) = true.
Proof.
  induction ops as [|op ops IH]; intros w Hd; [now split|].
  unfold run. rewrite fold_left_step. fold (run config ops (step config op w)).
  destruct (destroyed_step config op w Hd) as [Hd' Hj].
  destruct (IH _ Hd') as [Hr Hd''].
  split; [|exact Hd''].
  rewrite Hr. simpl. rewrite <- app_assoc. f_equal.
  unfold received. rewrite Hj.
  destruct op; try reflexivity.
  simpl. now destruct (Nat.eqb listener l).
Qed.

(** C8 (amended).  After [destroy] no change of the state is told to any
    listener, whatever happens to the manager next (calls of its
    interface, continuations of the methods that wait, events of the page,
    timers): the manager stays destroyed, and all a listener is handed
    from then on is the answer of [subscribe] to each of its own later
    calls [subscribe(l)], the state at the call, once for each call.  A
    listener that does not subscribe again is handed nothing. *)
Theorem no_notification_after_destroy (config : AudioManagerConfig)
    (ops : list Op) (w : World) (l : Listener) :
  let w' := run config ops (destroy w) in
  received l w' = answers config l ops (destroy w) ++ received l w
  /\ List.length (answers config l ops (destroy w))
     = List.length (List.filter (subscribes l) ops)
  /\ isDestroyed (this w') = true
  /\ (List.existsb (subscribes l) ops = false -> received l w' = received l w).
Proof.
  intros w'. destruct (destroy_hushed w) as [Hd Hj].
  destruct (received_destroyed_answers config l ops _ Hd) as [Hr Hd'].
  fold w' in Hr, Hd'.
  assert (H0 : received l (destroy w) = received l w)
    by (unfold received; now rewrite Hj).
  rewrite H0 in Hr.
  split; [exact Hr|]. split; [apply length_answers|]. split; [exact Hd'|].
  intros Hops. rewrite Hr.
  pose proof (length_answers config l ops (destroy w)) as Hlen.
  assert (Hnone : List.filter (subscribes l) ops = []).
  { clear -Hops. induction ops as [|op ops IH]; [reflexivity|].
    simpl in *. apply orb_false_iff in Hops as [-> Hops]. now apply IH. }
  rewrite Hnone in Hlen.
  now destruct (answers config l ops (destroy w)).
Qed.

Lemma no_notification_after_destroy_witness :
  List.In 7 (stateListeners (this Sample.playing))
  /\ List.existsb (subscribes 7)
       [Stop; Play None; UpdateS3Path "key"; ElementEnded 0; Subscribe 8;
        ResetAudioState; CreateAudio Sample.all_succeed [0; 1; 2]] = false
  /\ received 7
       (run Sample.config
          [Stop; Play None; UpdateS3Path "key"; ElementEnded 0; Subscribe 8;
           ResetAudioState; CreateAudio Sample.all_succeed [0; 1; 2]]
          (destroy Sample.playing))
     = received 7 Sample.playing.
Proof.
  split; [vm_compute; now left|]. split; [reflexivity|].
  exact (proj2 (proj2 (proj2
           (no_notification_after_destroy Sample.config
              [Stop; Play None; UpdateS3Path "key"; ElementEnded 0;
               Subscribe 8; ResetAudioState;
               CreateAudio Sample.all_succeed [0; 1; 2]]
              Sample.playing 7))) eq_refl).
Defined.

(** C8 as stated fails: a listener that was subscribed before [destroy]
    and calls [subscribe] again on the destroyed manager is handed the
    state, once; the changes of the state that follow are not told to
    it. *)
Lemma subscribe_answers_after_destroy :
  List.In 7 (stateListeners (this Sample.playing))
  /\ received 7 (run Sample.config [Subscribe 7] (destroy Sample.playing))
     = state (this (destroy Sample.playing)) :: received 7 Sample.playing
  /\ List.length (received 7 Sample.playing) = 15
  /\ List.length
       (received 7 (run Sample.config [Subscribe 7] (destroy Sample.playing)))
     = 16
  /\ List.length
       (received 7
          (run Sample.config
             [Subscribe 7; UpdateS3Path "key"; ResetAudioState]
             (destroy Sample.playing)))
     = 16.
Proof. vm_compute. repeat split. now left. Qed.

End DestroyFacts.

(** ** Persistence *)

Section PersistenceFacts.
Import Js Model Chunker Assembler Manager Spec.

Variable config : AudioManagerConfig.

(** C9 (the code at the failing input).  When the first attempt to upload
    fails and the second one succeeds, the parent-record callback is
    called right after the second upload: no settling delay and no look-up
    of the stored object come before it. *)
Theorem retry_assigns_unverified (storage : Storage) (w : World) :
  truthy (cachePath (state (this w))) = true ->
  first_fetch storage && first_put storage = false ->
  second_fetch storage = true ->
  second_put storage = true ->
  updateStoryAudio config = true ->
  let events := fst (saveAudioToS3InBackground config storage w) in
  assigned_unverified events = true
  /\ List.In (Assigned (storyIndex config) (audioFilename config)) events
  /\ ~ List.In (Resolved (audioPath config)) events
  /\ ~ List.In (Settled 2000) events.
Proof.
  intros Hc Hfirst H2f H2p Hcb events. subst events.
  unfold saveAudioToS3InBackground, first_attempt, second_attempt, assign_audio.
  rewrite Hc, H2f, H2p, Hcb. simpl.
  destruct (first_fetch storage); simpl in *.
  - rewrite Hfirst. simpl. split; [reflexivity|]. split; [tauto|].
    split; intros H; repeat (destruct H as [H|H]; try discriminate); exact H.
  - split; [reflexivity|]. split; [tauto|].
    split; intros H; repeat (destruct H as [H|H]; try discriminate); exact H.
Qed.

End PersistenceFacts.

Lemma retry_assigns_unverified_witness :
  fst (Manager.saveAudioToS3InBackground Sample.config Sample.second_chance
         Sample.created)
  = [Manager.Fetched "blob:0";
     Manager.Put "user/artifact/story_audio_1.mp3" Manager.AsArrayBuffer;
     Manager.Fetched "blob:0";
     Manager.Put "user/artifact/story_audio_1.mp3" Manager.AsBlob;
     Manager.Assigned 0 "story_audio_1.mp3";
     Manager.SideRecord 0 "story_audio_1.mp3"]
  /\ Spec.assigned_unverified
       (fst (Manager.saveAudioToS3InBackground Sample.config
               Sample.second_chance Sample.created)) = true.
Proof.
  split; [vm_compute; reflexivity|].
  assert (H1 : Js.truthy (Model.cachePath (Model.state (Model.this Sample.created)))
               = true) by (vm_compute; reflexivity).
  exact (proj1 (retry_assigns_unverified Sample.config Sample.second_chance
                  Sample.created H1 eq_refl eq_refl eq_refl eq_refl)).
Defined.

(** ** The state record as a shared object *)

Section SharedFacts.
Import Model Shared.

Lemma alloc_fresh (o : Object) (h : gmap nat Object) :
  h !! (alloc o h).1 = None /\ (alloc o h).2 = <[(alloc o h).1 := o]> h.
Proof.
  unfold alloc. simpl. split; [|reflexivity].
  apply not_elem_of_dom, is_fresh.
Qed.

Lemma read_state_insert_ne (h : gmap nat Object) (l k : nat) (o : Object) :
  k <> l -> read_state (<[l := o]> h) k = read_state h k.
Proof. intros H. unfold read_state. now rewrite lookup_insert_ne. Qed.

Lemma read_state_insert_eq (h : gmap nat Object) (l : nat) (s : StateObject) :
  read_state (<[l := StateObj s]> h) l = Some s.
Proof. unfold read_state. now rewrite lookup_insert_eq. Qed.

Lemma read_array_state (h : gmap nat Object) (l : nat) (s : StateObject) :
  read_state h l = Some s -> read_array h l = None.
Proof.
  unfold read_state, read_array. destruct (h !! l) as [[?|?]|]; easy.
Qed.

(** Whatever a listener does to the object it received, the other records
    of the heap are as they were. *)
Lemma read_state_mutate (what : Mutation) (received k : nat)
    (h : gmap nat Object) :
  k <> received -> read_state (mutate what received h) k = read_state h k.
Proof.
  intros Hk. destruct what as [|change|a]; simpl; [reflexivity| |].
  - destruct (read_state h received); [|reflexivity].
    now apply read_state_insert_ne.
  - destruct (read_state h received) as [s|]; [|reflexivity].
    destruct (read_array h (o_chunks s)) as [old|] eqn:E; [|reflexivity].
    unfold read_state. destruct (decide (k = o_chunks s)) as [->|Hne].
    + rewrite lookup_insert_eq. unfold read_array in E.
      destruct (h !! o_chunks s) as [[?|?]|]; easy.
    + now rewrite lookup_insert_ne.
Qed.

Lemma read_array_mutate (what : Mutation) (received k : nat)
    (h : gmap nat Object) :
  (forall a, what <> Splice a) ->
  read_array (mutate what received h) k = read_array h k.
Proof.
  intros Hw. destruct what as [|change|a]; simpl; [reflexivity| |].
  - destruct (read_state h received) as [s|] eqn:E; [|reflexivity].
    unfold read_array. destruct (decide (k = received)) as [->|Hne].
    + rewrite lookup_insert_eq. unfold read_state in E.
      destruct (h !! received) as [[?|?]|]; easy.
    + now rewrite lookup_insert_ne.
  - now destruct (Hw a).
Qed.

Lemma spares_chunks_spec (o : Observer) :
  spares_chunks o = true -> forall a, does o <> Splice a.
Proof. unfold spares_chunks. destruct (does o); easy. Qed.

(** The calls of the listeners, one after the other, with one object. *)
Lemma call_all (obs : list Observer) (received : nat) :
  forall m,
    let m' := List.fold_left (fun m o => call o received m) obs m in
    this_state m' = this_state m
    /\ observers m' = observers m
    /\ destroyed m' = destroyed m
    /\ handed m'
       = List.map (fun o => (who o, received)) (List.rev obs) ++ handed m
    /\ (forall k, k <> received ->
          read_state (heap m') k = read_state (heap m) k)
    /\ (List.forallb spares_chunks obs = true ->
        forall k, read_array (heap m') k = read_array (heap m) k).
Proof.
  induction obs as [|o obs IH]; intros m; simpl.
  - repeat split; reflexivity.
  - destruct (IH (call o received m)) as (E1 & E2 & E3 & E4 & E5 & E6).
    cbv zeta in *. rewrite E1, E2, E3, E4. simpl.
    split; [reflexivity|]. split; [reflexivity|]. split; [reflexivity|].
    split; [|split].
    + rewrite List.map_app, <- app_assoc. reflexivity.
    + intros k Hk. rewrite E5 by exact Hk. simpl.
      now apply read_state_mutate.
    + intros Hall k. apply andb_true_iff in Hall as [Ho Hall].
      rewrite E6 by exact Hall. simpl.
      apply read_array_mutate. now apply spares_chunks_spec.
Qed.

Lemma read_array_insert_state (h : gmap nat Object) (l k : nat) (s : StateObject) :
  h !! l = None -> read_array (<[l := StateObj s]> h) k = read_array h k.
Proof.
  intros Hl. unfold read_array. destruct (decide (k = l)) as [->|Hne].
  - now rewrite lookup_insert_eq, Hl.
  - now rewrite lookup_insert_ne.
Qed.

(** What [setState] does to the store and to the listeners. *)
Lemma setState_spec (u : ObjectUpdate) (m : Hub) (s : StateObject) :
  read_state (heap m) (this_state m) = Some s ->
  let m' := setState u m in
  read_state (heap m') (this_state m') = Some (merge_object s u)
  /\ heap m !! this_state m' = None
  /\ observers m' = observers m
  /\ destroyed m' = destroyed m
  /\ (destroyed m = true -> handed m' = handed m)
  /\ (destroyed m = false ->
      exists stateCopy,
        handed m'
        = List.map (fun o => (who o, stateCopy)) (List.rev (observers m))
          ++ handed m
        /\ stateCopy <> this_state m'
        /\ heap m !! stateCopy = None)
  /\ (List.forallb spares_chunks (observers m) = true ->
      forall k, read_array (heap m') k = read_array (heap m) k).
Proof.
  intros Hs m'. subst m'. unfold setState. rewrite Hs.
  destruct (alloc_fresh (StateObj (merge_object s u)) (heap m)) as [Hl Hh].
  destruct (alloc (StateObj (merge_object s u)) (heap m)) as [l h] eqn:Ea.
  simpl in Hl, Hh. subst h. cbv zeta. simpl.
  destruct (destroyed m) eqn:Hd; simpl.
  - rewrite read_state_insert_eq. repeat split; try easy.
    intros _ k. now apply read_array_insert_state.
  - set (h1 := <[l := StateObj (merge_object s u)]> (heap m)).
    set (c := fresh (dom h1)).
    assert (Hc : h1 !! c = None) by apply not_elem_of_dom, is_fresh.
    assert (Hcl : c <> l).
    { intros ->. subst h1. now rewrite lookup_insert_eq in Hc. }
    assert (Hcm : heap m !! c = None).
    { subst h1. now rewrite lookup_insert_ne in Hc by congruence. }
    set (m0 := set_heap _ _).
    destruct (call_all (observers m) c m0) as (E1 & E2 & E3 & E4 & E5 & E6).
    cbv zeta in *.
    change (observers m0) with (observers m).
    rewrite E1, E2, E3, E4. simpl.
    split; [|split; [|split; [|split; [|split; [|split]]]]]; try easy.
    + rewrite E5 by congruence. simpl.
      rewrite read_state_insert_ne by congruence.
      apply read_state_insert_eq.
    + intros _. exists c. now repeat split.
    + intros Hall k. rewrite E6 by exact Hall. simpl.
      rewrite read_array_insert_state by exact Hc.
      now apply read_array_insert_state.
Qed.

(** What [subscribe] does to the store and to the listeners. *)
Lemma subscribe_spec (o : Observer) (m : Hub) (s : StateObject) :
  read_state (heap m) (this_state m) = Some s ->
  let m' := subscribe o m in
  exists copy,
    handed m' = (who o, copy) :: handed m
    /\ copy <> this_state m'
    /\ heap m !! copy = None
    /\ this_state m' = this_state m
    /\ observers m' = observers m ++ [o]
    /\ destroyed m' = destroyed m
    /\ read_state (heap m') (this_state m') = Some s
    /\ read_state (heap m') copy
       = Some (match does o with Assign change => change s | _ => s end)
    /\ (spares_chunks o = true ->
        forall k, read_array (heap m') k = read_array (heap m) k).
Proof.
  intros Hs m'. subst m'. unfold subscribe. rewrite Hs.
  unfold alloc. cbv zeta. set (c := fresh (dom (heap m))).
  assert (Hc : heap m !! c = None) by apply not_elem_of_dom, is_fresh.
  assert (Hne : c <> this_state m).
  { intros E. unfold read_state in Hs. rewrite <- E, Hc in Hs. discriminate. }
  exists c. simpl.
  split; [reflexivity|]. split; [exact Hne|]. split; [exact Hc|].
  split; [reflexivity|]. split; [reflexivity|]. split; [reflexivity|].
  split; [|split].
  - rewrite read_state_mutate by congruence.
    rewrite read_state_insert_ne by congruence. exact Hs.
  - destruct (does o) as [|change|a]; simpl.
    + apply read_state_insert_eq.
    + rewrite read_state_insert_eq. apply read_state_insert_eq.
    + rewrite read_state_insert_eq.
      destruct (read_array _ (o_chunks s)) eqn:E; [|apply read_state_insert_eq].
      rewrite read_state_insert_ne; [apply read_state_insert_eq|].
      intros ->. unfold read_array in E. rewrite lookup_insert_eq in E.
      discriminate.
  - intros Ho k. rewrite read_array_mutate by now apply spares_chunks_spec.
    now apply read_array_insert_state.
Qed.

(** C7 (amended).  [subscribe] hands the listener, before it returns, a
    new object that is not the record of the manager and holds the fields
    of the current state; the listener is added after the ones there.
    [setState] puts a new record in place of the old one, with the fields
    of the update laid over the fields of the old record; unless the
    manager is destroyed it then hands every listener, in the order of
    subscription, one and the same new object, which is not the record of
    the manager; a destroyed manager hands nothing.  Whatever a listener
    does to the fields of the object it received, the fields of the record
    of the manager are as [subscribe] found them or as [setState] merged
    them.  The [chunks] array is not copied: the arrays of the store are
    as before only if the listeners leave the array of what they receive
    alone. *)
Theorem observers_receive_copies (m : Hub) (s : StateObject) :
  read_state (heap m) (this_state m) = Some s ->
  (forall o : Observer,
     let m' := subscribe o m in
     exists copy,
       handed m' = (who o, copy) :: handed m
       /\ copy <> this_state m'
       /\ heap m !! copy = None
       /\ observers m' = observers m ++ [o]
       /\ read_state (heap m') (this_state m') = Some s
       /\ read_state (heap m') copy
          = Some (match does o with Assign change => change s | _ => s end)
       /\ (spares_chunks o = true -> view m' = view m))
  /\ (forall u : ObjectUpdate,
       let m' := setState u m in
       read_state (heap m') (this_state m') = Some (merge_object s u)
       /\ observers m' = observers m
       /\ (destroyed m = false ->
           exists stateCopy,
             handed m'
             = List.map (fun o => (who o, stateCopy)) (List.rev (observers m))
               ++ handed m
             /\ stateCopy <> this_state m'
             /\ heap m !! stateCopy = None)
       /\ (destroyed m = true -> handed m' = handed m)
       /\ (List.forallb spares_chunks (observers m) = true ->
           forall k, read_array (heap m') k = read_array (heap m) k)).
Proof.
  intros Hs. split.
  - intros o m'.
    destruct (subscribe_spec o m s Hs)
      as (c & E1 & E2 & E3 & E4 & E5 & E6 & E7 & E8 & E9).
    fold m' in E1, E2, E4, E5, E7, E8, E9.
    exists c. split; [exact E1|]. split; [exact E2|]. split; [exact E3|].
    split; [exact E5|]. split; [exact E7|]. split; [exact E8|].
    intros Ho. unfold view, read. rewrite E7, Hs.
    now rewrite (E9 Ho).
  - intros u m'.
    destruct (setState_spec u m s Hs) as (E1 & E2 & E3 & E4 & E5 & E6 & E7).
    fold m' in E1, E2, E3, E4, E5, E6, E7.
    split; [exact E1|]. split; [exact E3|]. split; [exact E6|].
    split; [exact E5|exact E7].
Qed.

Lemma observers_receive_copies_witness :
  let s := {| o_isPlaying := false; o_currentChunkIndex := 0; o_chunks := 0;
              o_cachePath := None; o_s3Path := None;
              o_audioStatus := NotCreated; o_audioError := None;
              o_useSystemVoice := false |} in
  let m' := setState (playing true s) Sample.meddled in
  read_state (heap Sample.meddled) (this_state Sample.meddled) = Some s
  /\ read_state (heap m') (this_state m')
     = Some (merge_object s (playing true s)).
Proof.
  intros s m'.
  assert (H : read_state (heap Sample.meddled) (this_state Sample.meddled)
              = Some s) by (vm_compute; reflexivity).
  split; [exact H|].
  exact (proj1 (proj2 (observers_receive_copies Sample.meddled s H)
                  (playing true s))).
Defined.

(** C7 (the code against the claim).  A listener that changes, in place,
    the [chunks] array of the object it was handed changes the state of
    the manager: the object is a new one, the array in it is the array of
    the manager.  And a listener that subscribes to a destroyed manager is
    a current listener that the next [setState] does not call. *)
Lemma observer_corrupts_chunks :
  (option_map chunks (view (Shared.constructor false)) = Some []
   /\ handed Sample.meddled = [(1, 2)]
   /\ this_state Sample.meddled = 1
   /\ option_map chunks (view Sample.meddled)
      = Some [Manager.make_chunk 0 "overwritten"])
  /\ (observers Sample.late_subscriber
      = [{| who := 2; does := Keep |}]
     /\ handed Sample.late_subscriber = [(2, 3)]
     /\ handed (set_playing true Sample.late_subscriber) = [(2, 3)]
     /\ option_map isPlaying (view (set_playing true Sample.late_subscriber))
        = Some true).
Proof. vm_compute. repeat split; reflexivity. Qed.

End SharedFacts.

(** ** What the splitters keep *)

Section TextCoverage.
Import Js Chunker Text.

(** [splitTextIntoParagraphs] loses no character of the paragraphs it is
    given when every paragraph of more than 500 characters begins with a
    character other than [.!?] and ends with one of them: its units, one
    after the other, are the paragraphs, one after the other. *)
Theorem sentence_split_keeps_text (text : string) :
  List.Forall
    (fun p => MAX_PARAGRAPH_LENGTH < String.length p ->
              starts_with_terminator p = false
              /\ ends_with_terminator p = true)
    (paragraphs text) ->
  glued (splitTextIntoParagraphs text) = glued (paragraphs text).
Proof.
  unfold splitTextIntoParagraphs.
  induction 1 as [|p ps Hp _ IH]; [reflexivity|].
  simpl. rewrite glued_app, glued_cons, IH.
  now rewrite split_paragraph_glued.
Qed.

Lemma sentence_split_keeps_text_witness :
  glued (Chunker.splitTextIntoParagraphs Cases.thirty_sentences)
  = Cases.thirty_sentences
  /\ 1 < List.length (Chunker.splitTextIntoParagraphs Cases.thirty_sentences).
Proof.
  assert (E : paragraphs Cases.thirty_sentences = [Cases.thirty_sentences])
    by (vm_compute; reflexivity).
  split; [|vm_compute; lia].
  rewrite (sentence_split_keeps_text Cases.thirty_sentences).
  - now rewrite E.
  - rewrite E. constructor; [|constructor].
    intros _. split; vm_compute; reflexivity.
Defined.

(** No unit of [createOptimizedChunks] is blank, so no request is made for
    text with nothing to say; a text that [trim] empties gives no unit at
    all, from either splitter. *)
Theorem units_are_not_blank (text : string) :
  List.Forall (fun u => trim u <> EmptyString) (createOptimizedChunks text)
  /\ (trim text = EmptyString ->
      createOptimizedChunks text = [] /\ splitTextIntoParagraphs text = []).
Proof.
  split.
  - assert (H : List.Forall (fun u => words u <> [])
                  (createOptimizedChunks text)).
    { unfold createOptimizedChunks. apply pack_words.
      - apply paragraphs_have_words.
      - constructor.
      - now left. }
    eapply List.Forall_impl; [|exact H].
    intros u Hu E. apply Hu. now apply words_blank.
  - intros H. apply blank_no_paragraph in H.
    unfold createOptimizedChunks, splitTextIntoParagraphs. rewrite H.
    split; reflexivity.
Qed.

Lemma units_are_not_blank_witness :
  trim Cases.white = EmptyString
  /\ createOptimizedChunks Cases.white = []
  /\ splitTextIntoParagraphs Cases.white = [].
Proof.
  assert (H : trim Cases.white = EmptyString) by reflexivity.
  split; [exact H|].
  exact (proj2 (units_are_not_blank Cases.white) H).
Defined.

End TextCoverage.

(** ** The requests and the chunks of a job *)

Section RequestFacts.
Import Js Model Chunker Assembler Manager Spec.

Lemma requests_setState (u : StateUpdate) (w : World) :
  requests (journal (setState u w)) = requests (journal w).
Proof.
  rewrite journal_setState. destruct (isDestroyed (this w)); [reflexivity|].
  apply requests_notify.
Qed.

Lemma requests_update (f : AudioManagerState -> AudioManagerState) (w : World) :
  requests (journal (update f w)) = requests (journal w).
Proof. apply requests_setState. Qed.

Lemma requests_begin_all (l : list AudioChunk) (w : World) :
  requests (journal (List.fold_left (fun w chunk => begin_chunk chunk w) l w))
  = List.rev l ++ requests (journal w).
Proof.
  revert w. induction l as [|c l IH]; intros w; [reflexivity|].
  rewrite fold_left_step, IH. unfold begin_chunk, update_chunk. simpl.
  rewrite requests_update, <- app_assoc. reflexivity.
Qed.

Lemma requests_start_synthesis (w : World) :
  requests (journal (start_synthesis w))
  = List.rev (optimizedChunks (state (this w))) ++ requests (journal w).
Proof.
  unfold start_synthesis. rewrite requests_begin_all, !requests_update.
  now rewrite this_update.
Qed.

Lemma requests_settle_all (synthesis : Synthesis) (order : list nat)
    (units : list AudioChunk) (w : World) :
  requests (journal (settle_all synthesis order units w)) = requests (journal w).
Proof.
  unfold settle_all. revert w.
  induction order as [|i order IH]; intros w; [reflexivity|].
  rewrite fold_left_step, IH.
  destruct (units !! i) as [c|]; [|reflexivity].
  unfold settle_chunk, update_chunk.
  destruct (synthesis c); apply requests_update.
Qed.

Lemma requests_finish_synthesis (synthesis : Synthesis)
    (units : list AudioChunk) (w : World) :
  requests (journal (finish_synthesis synthesis units w)) = requests (journal w).
Proof.
  unfold finish_synthesis, saveAudioForPlayback.
  destruct (0 <? _); [|apply requests_update].
  destruct (render _); [|apply requests_update].
  unfold createObjectURL, suspend. simpl. now rewrite requests_update.
Qed.

(** The requests [createAudio] makes. *)
Lemma requests_createAudio (synthesis : Synthesis) (order : list nat) (w : World) :
  requests (journal (createAudio synthesis order w))
  = (if starts_job w then List.rev (optimizedChunks (state (this w))) else [])
    ++ requests (journal w).
Proof.
  unfold createAudio, starts_job.
  destruct (useSystemVoice (state (this w))); [apply requests_update|].
  assert (H : requests (journal
                (if negb (all_settled order
                            (List.length (optimizedChunks (state (this w)))))
                 then start_synthesis w
                 else finish_synthesis synthesis
                        (optimizedChunks (state (this w)))
                        (settle_all synthesis order
                           (optimizedChunks (state (this w)))
                           (start_synthesis w))))
              = List.rev (optimizedChunks (state (this w)))
                ++ requests (journal w)).
  { destruct (negb _).
    - apply requests_start_synthesis.
    - rewrite requests_finish_synthesis, requests_settle_all.
      apply requests_start_synthesis. }
  destruct (audioStatus (state (this w))); simpl; try reflexivity; exact H.
Qed.

End RequestFacts.

Section SynthesisCoverage.
Import Js Model Chunker Assembler Manager Spec.

(** [createAudio] asks for the synthesis of each unit once, in the order
    of the units, when it has a job to start, whatever comes of the calls
    and whether or not they are all back; on the voice of the device, or
    with a job that is being made or is ready, it asks for none. *)
Theorem one_request_per_unit (synthesis : Synthesis) (order : list nat)
    (w : World) :
  let units := optimizedChunks (state (this w)) in
  requests (journal (createAudio synthesis order w))
  = (if starts_job w then List.rev units else []) ++ requests (journal w).
Proof. apply requests_createAudio. Qed.







End SynthesisCoverage.

(** ** The upload, attempt by attempt *)

Section UploadCoverage.
Import Js Model Chunker Assembler Manager Spec.

Variable config : AudioManagerConfig.

(** The upload never fails its caller and tries the storage at most
    twice, first with an [ArrayBuffer] and then with a [Blob], always under
    the key of the story; the callback of the parent record is called at
    most once.  It sets [s3Path] exactly when one of the two attempts went
    through; otherwise the state is as before, with its local track. *)
Theorem upload_is_bounded (storage : Storage) (w : World) :
  let events := fst (saveAudioToS3InBackground config storage w) in
  let stored :=
    truthy (cachePath (state (this w)))
    && ((first_fetch storage && first_put storage)
        || (second_fetch storage && second_put storage)) in
  List.In (List.filter is_put events)
    [[]; [Put (audioPath config) AsArrayBuffer];
     [Put (audioPath config) AsBlob];
     [Put (audioPath config) AsArrayBuffer; Put (audioPath config) AsBlob]]
  /\ List.length (List.filter is_assigned events) <= 1
  /\ (truthy (cachePath (state (this w))) = false -> events = [])
  /\ exists w',
       snd (saveAudioToS3InBackground config storage w) = Returned w'
       /\ page w' = page w
       /\ state (this w')
          = if stored then with_s3Path (Some (audioPath config)) (state (this w))
            else state (this w).
Proof.
  intros events stored. subst events stored.
  unfold saveAudioToS3InBackground, first_attempt, second_attempt,
    verify_upload, assign_audio.
  destruct (truthy (cachePath (state (this w)))) eqn:Hc; simpl.
  2: { split; [now left|]. split; [lia|]. split; [reflexivity|].
       exists w. now destruct w as [[[] ? ? ? ? ? ? ? ?] ? ?]. }
  assert (Hfirst : first_fetch storage && first_put storage = true
                   \/ first_fetch storage && first_put storage = false)
    by (destruct (_ && _); auto).
  destruct Hfirst as [Hfirst|Hfirst].
  - apply andb_true_iff in Hfirst as [-> ->]. simpl.
    destruct (resolve storage) as [[|]|], (updateStoryAudio config); simpl;
      (split; [right; left; reflexivity|]); (split; [lia|]);
      (split; [discriminate|]);
      eexists; (split; [reflexivity|]);
      rewrite ?this_update, ?page_update; split; reflexivity.
  - rewrite Hfirst.
    destruct (first_fetch storage), (first_put storage); try discriminate;
      simpl;
      destruct (second_fetch storage), (second_put storage),
        (updateStoryAudio config); simpl;
      (split; [first [ left; reflexivity
                     | right; left; reflexivity
                     | right; right; left; reflexivity
                     | right; right; right; left; reflexivity ]|]);
      (split; [lia|]); (split; [discriminate|]);
      eexists; (split; [reflexivity|]);
      rewrite ?this_update, ?page_update; split; reflexivity.
Qed.

(** When the first attempt to upload goes through, there is no second
    one, and the callback of the parent record is called only after the
    delay of two seconds and the look-up of the stored object, and only if
    the look-up gave an address. *)
Theorem first_upload_is_verified (storage : Storage) (w : World) :
  truthy (cachePath (state (this w))) = true ->
  first_fetch storage = true ->
  first_put storage = true ->
  let events := fst (saveAudioToS3InBackground config storage w) in
  List.firstn 4 events
  = [Fetched (the (cachePath (state (this w))));
     Put (audioPath config) AsArrayBuffer;
     Settled 2000; Resolved (audioPath config)]
  /\ ~ List.In (Put (audioPath config) AsBlob) events
  /\ assigned_unverified events = false
  /\ (List.In (Assigned (storyIndex config) (audioFilename config)) events
      <-> resolve storage = Returned true /\ updateStoryAudio config = true).
Proof.
  intros Hc Hf Hp events. subst events.
  unfold saveAudioToS3InBackground, first_attempt, verify_upload, assign_audio.
  rewrite Hc, Hf, Hp. simpl.
  split; [reflexivity|]. split; [|split; [reflexivity|]].
  - intros H.
    destruct (resolve storage) as [[|]|], (updateStoryAudio config);
      simpl in H; repeat (destruct H as [H|H]; try discriminate); exact H.
  - destruct (resolve storage) as [[|]|], (updateStoryAudio config); simpl;
      split; intros H; try (destruct H; discriminate); try tauto;
      repeat (destruct H as [H|H]; try discriminate); try contradiction.
Qed.

End UploadCoverage.

Lemma first_upload_is_verified_witness :
  fst (Manager.saveAudioToS3InBackground Sample.config Sample.reliable
         Sample.created)
  = [Manager.Fetched "blob:0";
     Manager.Put "user/artifact/story_audio_1.mp3" Manager.AsArrayBuffer;
     Manager.Settled 2000;
     Manager.Resolved "user/artifact/story_audio_1.mp3";
     Manager.Assigned 0 "story_audio_1.mp3";
     Manager.SideRecord 0 "story_audio_1.mp3"]
  /\ Spec.assigned_unverified
       (fst (Manager.saveAudioToS3InBackground Sample.config Sample.reliable
               Sample.created)) = false.
Proof.
  split; [vm_compute; reflexivity|].
  assert (H1 : Js.truthy (Model.cachePath (Model.state (Model.this Sample.created)))
               = true) by (vm_compute; reflexivity).
  exact (proj1 (proj2 (proj2 (first_upload_is_verified Sample.config
                                Sample.reliable Sample.created H1
                                eq_refl eq_refl)))).
Defined.

Lemma upload_is_bounded_witness :
  Js.truthy (Model.cachePath (Model.state (Model.this Sample.fresh))) = false
  /\ fst (Manager.saveAudioToS3InBackground Sample.config Sample.reliable
            Sample.fresh) = [].
Proof.
  assert (H1 : Js.truthy (Model.cachePath (Model.state (Model.this Sample.fresh)))
               = false) by (vm_compute; reflexivity).
  split; [exact H1|].
  exact (proj1 (proj2 (proj2 (upload_is_bounded Sample.config Sample.reliable
                                Sample.fresh))) H1).
Defined.

(** ** Unsubscribing *)

Section UnsubscribeFacts.
Import Js Model Chunker Assembler Manager Spec.

Variable l : Listener.

Lemma received_notify (ls : list Listener) (s : AudioManagerState) (j : Journal) :
  ~ List.In l ls ->
  List.filter (fun d => Nat.eqb (fst d) l) (delivered (notify ls s j))
  = List.filter (fun d => Nat.eqb (fst d) l) (delivered j).
Proof.
  intros Hl. rewrite delivered_notify, List.filter_app.
  assert (E : List.filter (fun d : Listener * AudioManagerState =>
                             Nat.eqb (fst d) l)
                (List.map (fun l' => (l', s)) (List.rev ls)) = []).
  { assert (Hr : ~ List.In l (List.rev ls))
      by (intros H; apply Hl; now apply List.in_rev).
    induction (List.rev ls) as [|x xs IH]; [reflexivity|].
    simpl. destruct (Nat.eqb_spec x l) as [->|Hx].
    - exfalso. apply Hr. now left.
    - apply IH. intros H. apply Hr. now right. }
  unfold Listener in *. now rewrite E.
Qed.

Lemma mute_refl (w : World) : ~ List.In l (stateListeners (this w)) -> mute l w w.
Proof. now split. Qed.

Lemma mute_setState (u : StateUpdate) (w x : World) :
  mute l w x -> mute l w (setState u x).
Proof.
  intros [Hl Hr]. split.
  - now rewrite this_setState.
  - rewrite <- Hr. unfold received. rewrite journal_setState.
    destruct (isDestroyed (this x)); [reflexivity|].
    now rewrite received_notify.
Qed.

Lemma mute_update (f : AudioManagerState -> AudioManagerState) (w x : World) :
  mute l w x -> mute l w (update f x).
Proof. apply mute_setState. Qed.

Lemma mute_on_this (g : Manager -> Manager) (w x : World) :
  (forall m, stateListeners (g m) = stateListeners m) ->
  mute l w x -> mute l w (on_this g x).
Proof. intros Hg [Hl Hr]. split; simpl; [now rewrite Hg | exact Hr]. Qed.

Lemma mute_on_page (g : Page -> Page) (w x : World) :
  mute l w x -> mute l w (on_page g x).
Proof. intros [Hl Hr]. now split. Qed.

Lemma mute_request (c : AudioChunk) (w x : World) :
  mute l w x -> mute l w (on_journal (request c) x).
Proof. intros [Hl Hr]. now split. Qed.

Lemma mute_fold {X : Type} (F : X -> World -> World) (xs : list X) (w : World) :
  (forall x y, mute l w y -> mute l w (F x y)) ->
  forall y, mute l w y -> mute l w (List.fold_left (fun w x => F x w) xs y).
Proof.
  intros HF. induction xs as [|x xs IH]; intros y Hy; [exact Hy|].
  rewrite fold_left_step. apply IH, HF, Hy.
Qed.

Ltac mute_step :=
  first
    [ assumption
    | apply mute_update
    | apply mute_setState
    | apply mute_on_page
    | apply mute_request
    | apply mute_on_this; [intros ?; reflexivity|]
    | match goal with
      | |- mute _ _ (if ?b then _ else _) => destruct b
      | |- mute _ _ (match ?o with _ => _ end) => destruct o
      | |- mute _ _ (let '(_, _) := ?o in _) => destruct o
      end ].

Ltac mute := cbv zeta; repeat mute_step.

Lemma mute_stopAnyExistingAudio (w x : World) :
  mute l w x -> mute l w (stopAnyExistingAudio x).
Proof.
  intros H. unfold stopAnyExistingAudio, stop_voice, stop_element, stop_source.
  mute.
Qed.

Lemma mute_stop (w x : World) : mute l w x -> mute l w (stop x).
Proof.
  intros H. unfold stop. apply mute_update, mute_stopAnyExistingAudio. mute.
Qed.

Lemma mute_playFromCache (path : string) (w x : World) :
  mute l w x -> mute l w (playFromCache path x).
Proof.
  intros H. unfold playFromCache. cbv zeta.
  apply mute_on_this; [intros ?; reflexivity|].
  apply mute_on_page. now apply mute_stopAnyExistingAudio.
Qed.

Lemma mute_playWithSystemVoice (w x : World) :
  mute l w x -> mute l w (playWithSystemVoice x).
Proof.
  intros H. unfold playWithSystemVoice.
  destruct (negb _); [mute|]. cbv zeta.
  apply mute_on_page, mute_update.
  apply mute_on_this; [intros ?; reflexivity|].
  now apply mute_stopAnyExistingAudio.
Qed.

Lemma mute_play (options : option PlayOptions) (w x : World) :
  mute l w x -> mute l w (play options x).
Proof.
  intros H. unfold play, play_otherwise, playFromS3, suspend.
  destruct (isPlaying _); [exact H|]. cbv zeta.
  repeat match goal with
         | |- mute _ _ (if ?b then _ else _) => destruct b
         end;
    try apply mute_playFromCache; try apply mute_playWithSystemVoice; mute.
Qed.

Lemma mute_createAudio (synthesis : Synthesis) (order : list nat) (w x : World) :
  mute l w x -> mute l w (createAudio synthesis order x).
Proof.
  intros H. unfold createAudio.
  destruct (useSystemVoice _); [mute|].
  assert (Hstart : mute l w (start_synthesis x)).
  { unfold start_synthesis. cbv zeta.
    apply (mute_fold (fun c => begin_chunk c)).
    - intros c y Hy. unfold begin_chunk, update_chunk. mute.
    - mute. }
  assert (Hsettle : mute l w (settle_all synthesis order
                                (optimizedChunks (state (this x)))
                                (start_synthesis x))).
  { unfold settle_all.
    apply (mute_fold
             (fun i y => match optimizedChunks (state (this x)) !! i with
                         | Some c => settle_chunk c (synthesis c) y
                         | None => y
                         end)); [|exact Hstart].
    intros i y Hy. unfold settle_chunk, update_chunk. mute. }
  assert (Hfinish : forall y, mute l w y ->
            mute l w (finish_synthesis synthesis
                        (optimizedChunks (state (this x))) y)).
  { intros y Hy. unfold finish_synthesis. cbv zeta.
    destruct (0 <? _); [|mute].
    unfold saveAudioForPlayback. destruct (render _); [|mute].
    unfold createObjectURL, suspend. mute. }
  destruct (audioStatus _); try exact H;
    (destruct (negb _); [exact Hstart | now apply Hfinish]).
Qed.

Lemma mute_upload (config : AudioManagerConfig) (storage : Storage) (w x : World) :
  mute l w x -> mute l w (upload config storage x).
Proof.
  intros H. unfold upload. destruct (negb _); [exact H|].
  assert (H1 : mute l w (resume AwaitingUpload x)) by (unfold resume; mute).
  unfold saveAudioToS3InBackground, first_attempt, second_attempt.
  repeat (match goal with
          | |- context [if ?b then _ else _] => destruct b; simpl
          end); mute.
Qed.

(** A step other than [subscribe(l)] hands nothing to a listener that is
    not registered, and does not register it. *)
Lemma mute_step_op (config : AudioManagerConfig) (op : Op) (w x : World) :
  subscribes l op = false ->
  mute l w x -> mute l w (step config op x).
Proof.
  intros Hop H. destruct op; cbn [step].
  - unfold initialize. mute.
  - now apply mute_createAudio.
  - now apply mute_play.
  - now apply mute_stop.
  - unfold togglePlayback.
    destruct (_ && _); cbv zeta;
      repeat match goal with
             | |- mute _ _ (if isPlaying _ then _ else _) =>
                 destruct (isPlaying _)
             end;
      try (apply mute_stop; mute); try (apply mute_play; mute).
  - unfold resetAudioState. mute.
  - unfold updateS3Path. mute.
  - simpl in Hop. destruct H as [Hl Hr]. unfold subscribe. split; simpl.
    + intros Hin. apply List.in_app_iff in Hin as [Hin|[->|[]]].
      * contradiction.
      * now rewrite Nat.eqb_refl in Hop.
    + rewrite <- Hr. unfold received. simpl. now rewrite Hop.
  - destruct H as [Hl Hr]. unfold unsubscribe. split; simpl; [|exact Hr].
    intros Hin. apply List.filter_In in Hin as [Hin _]. contradiction.
  - unfold destroy. cbv zeta. destruct H as [Hl Hr].
    assert (H : mute l w (stop (on_this (set_isDestroyed true) x))).
    { apply mute_stop. now split. }
    destruct H as [_ Hr']. split; simpl; [tauto | exact Hr'].
  - unfold playFromCache_played. mute.
  - unfold playFromS3_answered, storage_failure, createObjectURL, resume.
    destruct (negb _); [exact H|].
    destruct answer; cbv zeta; try (apply mute_playFromCache); mute.
  - now apply mute_upload.
  - unfold element_ended. mute.
  - unfold element_error. mute.
  - unfold element_pause_event. mute.
  - destruct (_ && _); [exact H|]. unfold utterance_end. mute.
  - destruct (_ && _); [exact H|]. unfold utterance_error. mute.
  - unfold speech_check. mute.
  - unfold manual_stop_expired. mute.
  - mute.
Qed.

Lemma mute_run (config : AudioManagerConfig) (ops : list Op) :
  List.existsb (subscribes l) ops = false ->
  forall w x, mute l w x -> mute l w (run config ops x).
Proof.
  induction ops as [|op ops IH]; intros Hops w x H; [exact H|].
  simpl in Hops. apply orb_false_iff in Hops as [Hop Hops].
  unfold run. rewrite fold_left_step. fold (run config ops (step config op x)).
  apply IH; [exact Hops|]. now apply mute_step_op.
Qed.

Lemma mute_unsubscribe (w : World) : mute l w (unsubscribe l w).
Proof.
  split; [|reflexivity]. unfold unsubscribe. simpl.
  intros Hin. apply List.filter_In in Hin as [_ Hin].
  now rewrite Nat.eqb_refl in Hin.
Qed.

End UnsubscribeFacts.

Section UnsubscribeCoverage.
Import Js Model Chunker Assembler Manager Spec.

(** Once the function [subscribe] returned has been called, the listener
    is handed nothing more, whatever happens to the manager next and
    however often the listener was registered, unless it subscribes
    again. *)
Theorem no_notification_after_unsubscribe (config : AudioManagerConfig)
    (ops : list Op) (w : World) (l : Listener) :
  List.existsb (subscribes l) ops = false ->
  received l (run config ops (unsubscribe l w)) = received l w.
Proof.
  intros Hops.
  exact (proj2 (mute_run l config ops Hops w _ (mute_unsubscribe l w))).
Qed.

Lemma no_notification_after_unsubscribe_witness :
  List.In 7 (stateListeners (this (subscribe 7 Sample.fresh)))
  /\ received 7
       (run Sample.config
          [CreateAudio Sample.all_succeed [0; 1; 2]; Play None;
           Played 0 PlayStarted; Stop; Subscribe 8; ResetAudioState]
          (unsubscribe 7 (subscribe 7 Sample.fresh)))
     = received 7 (subscribe 7 Sample.fresh).
Proof.
  split; [vm_compute; now left|].
  apply no_notification_after_unsubscribe. reflexivity.
Defined.

End UnsubscribeCoverage.

(** ** Playback, from one call to the next *)

Section PlaybackCoverageFacts.
Import Js Model Chunker Assembler Manager Spec.

Lemma map_text_imap_make_chunk (ts : list string) :
  List.map text (imap make_chunk ts) = ts.
Proof.
  apply list_eq. intros i.
  change (List.map text (imap make_chunk ts)) with (text <$> imap make_chunk ts).
  rewrite list_lookup_fmap, list_lookup_imap.
  now destruct (ts !! i).
Qed.

Lemma words_join_space (l : list string) :
  words (join " " l) = List.flat_map words l.
Proof.
  induction l as [|x l IH]; [reflexivity|].
  destruct l as [|y l].
  - simpl. now rewrite app_nil_r.
  - rewrite join_cons2. change (String.append " " ?s) with (String " " s).
    rewrite words_app_space by reflexivity. now rewrite IH.
Qed.

Lemma split_short_paragraphs (ps : list string) :
  List.Forall (fun p => String.length p <= MAX_PARAGRAPH_LENGTH) ps ->
  List.flat_map split_paragraph ps = ps.
Proof.
  induction 1 as [|p ps Hp _ IH]; [reflexivity|].
  simpl. rewrite IH. unfold split_paragraph.
  now destruct (Nat.leb_spec (String.length p) MAX_PARAGRAPH_LENGTH); [|lia].
Qed.

Lemma suspended_stop_any (w : World) :
  suspended (page (stopAnyExistingAudio w)) = suspended (page w).
Proof. apply stopAnyExistingAudio_page. Qed.

Lemma suspended_playFromCache (path : string) (w : World) :
  suspended (page (playFromCache path w)) = suspended (page w).
Proof. unfold playFromCache. simpl. apply suspended_stop_any. Qed.

Lemma suspended_playWithSystemVoice (w : World) :
  suspended (page (playWithSystemVoice w)) = suspended (page w).
Proof.
  unfold playWithSystemVoice. destruct (negb _).
  - now rewrite page_update.
  - simpl. rewrite page_update. simpl. apply suspended_stop_any.
Qed.

Lemma speaking_speak (e : SpeechEngine) : speaking (speak e) = true.
Proof. unfold speak. now destruct (speaking e). Qed.

Lemma journal_stop_parts (w : World) :
  journal (stop_source w) = journal w
  /\ journal (stop_element w) = journal w
  /\ journal (stop_voice w) = journal w.
Proof.
  unfold stop_source, stop_element, stop_voice. repeat split.
  - destruct (currentSource _); [|reflexivity].
    destruct (_ !! _) as [b|]; [|reflexivity]. now destruct (bs_started b).
  - now destruct (currentAudioElement _).
  - now destruct (_ && _).
Qed.

Lemma requests_stopAnyExistingAudio (w : World) :
  requests (journal (stopAnyExistingAudio w)) = requests (journal w).
Proof.
  unfold stopAnyExistingAudio. cbv zeta.
  destruct (journal_stop_parts
              (stop_element (stop_source
                 (if isPlaying (state (this w))
                  then update (with_isPlaying false) w else w))))
    as (_ & _ & ->).
  destruct (journal_stop_parts
              (stop_source
                 (if isPlaying (state (this w))
                  then update (with_isPlaying false) w else w)))
    as (_ & -> & _).
  destruct (journal_stop_parts
              (if isPlaying (state (this w))
               then update (with_isPlaying false) w else w))
    as (-> & _ & _).
  destruct (isPlaying _); [apply requests_update | reflexivity].
Qed.

(** [play] with no stored path known does not turn to the storage. *)
Lemma play_without_stored_path (options : option PlayOptions) (w : World) :
  truthy (s3Path (state (this w))) = false ->
  suspended (page (play options w)) = suspended (page w).
Proof.
  intros Hs. unfold play. destruct (isPlaying _); [reflexivity|].
  cbv zeta. rewrite this_update. simpl. rewrite Hs.
  rewrite !andb_false_r, orb_false_r. simpl.
  assert (Hp : suspended (page (update (with_isPlaying true) w))
               = suspended (page w)) by now rewrite page_update.
  assert (Hother : forall b,
            suspended (page (play_otherwise b (update (with_isPlaying true) w)))
            = suspended (page w)).
  { intros b. unfold play_otherwise. rewrite this_update. simpl. rewrite Hs.
    destruct (_ && _); [now rewrite suspended_playWithSystemVoice|].
    destruct (negb _); [now rewrite page_update|].
    destruct (truthy (cachePath _)); [now rewrite suspended_playFromCache|].
    now rewrite page_update. }
  destruct (_ && _ && _); [now rewrite suspended_playFromCache | apply Hother].
Qed.

Lemma playWithSystemVoice_spec (w : World) :
  speechSynthesis (this w) = true ->
  let w' := playWithSystemVoice w in
  speechUtterance (this w')
  = Some (join " " (List.map text (chunks (state (this w)))))
  /\ speaking (speech (page w')) = true
  /\ isPlaying (state (this w')) = true
  /\ requests (journal w') = requests (journal w).
Proof.
  intros He w'. subst w'. unfold playWithSystemVoice. rewrite He.
  cbv zeta. cbn [negb].
  rewrite stopAnyExistingAudio_state.
  change (chunks (with_isPlaying false (state (this w))))
    with (chunks (state (this w))).
  set (u := Some _). set (w3 := stopAnyExistingAudio w).
  assert (Hr : requests (journal w3) = requests (journal w))
    by apply requests_stopAnyExistingAudio.
  clearbody w3.
  cbn [this page journal on_page on_this speech set_speech].
  rewrite this_update, requests_update.
  split; [reflexivity|]. split; [apply speaking_speak|].
  split; [reflexivity | exact Hr].
Qed.

Lemma play_device_voice (w : World) :
  useSystemVoice (state (this w)) = true ->
  isPlaying (state (this w)) = false ->
  play None w = playWithSystemVoice (update (with_isPlaying true) w).
Proof.
  intros Hv Hi. unfold play. rewrite Hi. cbv zeta.
  change (wants_file None) with false. cbn [andb].
  unfold play_otherwise. rewrite this_update.
  cbn [state set_state useSystemVoice with_isPlaying]. now rewrite Hv.
Qed.

Lemma play_ready_track (w : World) :
  useSystemVoice (state (this w)) = false ->
  isPlaying (state (this w)) = false ->
  audioStatus (state (this w)) = Ready ->
  truthy (cachePath (state (this w))) = false ->
  play None w
  = let w1 := update (with_isPlaying true) w in
    if truthy (s3Path (state (this w)))
    then playFromS3 (the (s3Path (state (this w)))) w1
    else update (fun s =>
           with_audioError (Some "No audio path available for playback")
             (with_audioStatus Error (with_isPlaying false s))) w1.
Proof.
  intros Hv Hi Hr Hc. unfold play. rewrite Hi. cbv zeta.
  change (wants_file None) with false. cbn [andb].
  unfold play_otherwise. rewrite this_update.
  cbn [state set_state useSystemVoice with_isPlaying audioStatus cachePath
       s3Path].
  now rewrite Hv, Hr, Hc.
Qed.

End PlaybackCoverageFacts.

Section PlaybackCoverage.
Import Js Model Chunker Assembler Manager Spec.

(** A manager for the voice of the device speaks, at [play], the units of
    [initialize] joined with blanks.  When no paragraph of the narration
    exceeds 500 characters, that is the narration up to white space. *)
Theorem device_voice_speaks_narration (config : AudioManagerConfig)
    (narration : string) (existing : bool) (w : World) :
  String.eqb (voiceId config) "system" = true ->
  speechSynthesis (this w) = true ->
  isPlaying (state (this w)) = false ->
  let w' := play None (initialize config narration existing w) in
  speechUtterance (this w')
  = Some (join " " (splitTextIntoParagraphs narration))
  /\ speaking (speech (page w')) = true
  /\ isPlaying (state (this w')) = true
  /\ requests (journal w') = requests (journal w)
  /\ (List.Forall (fun p => String.length p <= MAX_PARAGRAPH_LENGTH)
        (paragraphs narration) ->
      words (join " " (splitTextIntoParagraphs narration)) = words narration).
Proof.
  intros Hvoice Hengine Hidle w'.
  set (w1 := initialize config narration existing w) in *.
  assert (H1 : this w1
               = set_state
                   (with_useSystemVoice true
                      (with_audioStatus Ready
                         (with_currentChunkIndex 0
                            (with_chunks
                               (imap make_chunk (splitTextIntoParagraphs narration))
                               (state (this w))))))
                   (this w)
               /\ requests (journal w1) = requests (journal w)).
  { subst w1. unfold initialize. rewrite Hvoice.
    now rewrite this_update, requests_update. }
  destruct H1 as [H1 Hr1].
  assert (Hplay : w' = playWithSystemVoice (update (with_isPlaying true) w1)).
  { subst w'. apply play_device_voice; rewrite H1; [reflexivity | exact Hidle]. }
  clearbody w' w1. subst w'.
  set (w2 := update (with_isPlaying true) w1).
  assert (H2 : this w2
               = set_state (with_isPlaying true (state (this w1))) (this w1))
    by (subst w2; now rewrite this_update).
  assert (Hr2 : requests (journal w2) = requests (journal w))
    by (subst w2; now rewrite requests_update).
  clearbody w2.
  destruct (playWithSystemVoice_spec w2) as (E1 & E2 & E3 & E4).
  { rewrite H2, H1. exact Hengine. }
  rewrite E1, E2, E3, E4, H2, H1.
  cbn [state set_state chunks with_isPlaying with_useSystemVoice
       with_audioStatus with_currentChunkIndex with_chunks].
  rewrite map_text_imap_make_chunk.
  split; [reflexivity|]. split; [reflexivity|]. split; [reflexivity|].
  split; [exact Hr2|].
  intros Hshort. unfold splitTextIntoParagraphs.
  rewrite split_short_paragraphs by exact Hshort.
  rewrite words_join_space, words_paragraphs.
  rewrite <- words_join_blank_line. now rewrite join_split_blank_line.
Qed.

Lemma device_voice_speaks_narration_witness :
  speechUtterance (this (play None Sample.on_device)) = Some "One. Two. Three."
  /\ words "One. Two. Three." = words Sample.narration.
Proof.
  pose proof (device_voice_speaks_narration Sample.system_config
                Sample.narration false
                (constructor Sample.system_config true)
                eq_refl eq_refl eq_refl) as H.
  split.
  - exact (proj1 H).
  - apply (proj2 (proj2 (proj2 (proj2 H)))).
    assert (E : paragraphs Sample.narration = ["One."; "Two."; "Three."])
      by (vm_compute; reflexivity).
    rewrite E. unfold MAX_PARAGRAPH_LENGTH.
    repeat (constructor; [simpl; lia|]). constructor.
Defined.

(** When the storage fails [playFromS3] (the file is missing, no address
    comes back, or the download fails), the stored path is forgotten and
    the status is [Error] with a message; no element is made; and [play],
    whatever its options, does not turn to the storage again. *)
Theorem storage_failure_is_final (key : string) (answer : StorageAnswer)
    (w : World) :
  is_suspended (AwaitingStorage key) w = true ->
  answer = StorageMissing \/ answer = StorageNoUrl
  \/ answer = StorageDownloadFailed ->
  let w' := playFromS3_answered key answer w in
  s3Path (state (this w')) = None
  /\ audioStatus (state (this w')) = Error
  /\ isPlaying (state (this w')) = false
  /\ (exists message,
        audioError (state (this w')) = Some message
        /\ message <> EmptyString)
  /\ cachePath (state (this w')) = cachePath (state (this w))
  /\ elements (page w') = elements (page w)
  /\ is_suspended (AwaitingStorage key) w'
     = is_suspended (AwaitingStorage key) (resume (AwaitingStorage key) w)
  /\ forall options,
       suspended (page (play options w')) = suspended (page w').
Proof.
  intros Hs Hanswer w'.
  assert (Hfail : exists message,
            message <> EmptyString
            /\ w' = storage_failure message (resume (AwaitingStorage key) w)).
  { subst w'. unfold playFromS3_answered. rewrite Hs. simpl.
    destruct Hanswer as [->|[->| ->]]; eexists; (split; [|reflexivity]);
      discriminate. }
  destruct Hfail as (message & Hm & Hw). clearbody w'. subst w'.
  unfold storage_failure.
  assert (Hstate : state (this (update
             (fun s => with_audioError (Some message)
                (with_audioStatus Error
                   (with_isPlaying false (with_s3Path None s))))
             (resume (AwaitingStorage key) w)))
           = with_audioError (Some message)
               (with_audioStatus Error
                  (with_isPlaying false
                     (with_s3Path None (state (this w))))))
    by now rewrite this_update.
  rewrite Hstate. simpl.
  split; [reflexivity|]. split; [reflexivity|]. split; [reflexivity|].
  split; [eauto|]. split; [reflexivity|].
  split; [now rewrite page_update|].
  split; [unfold is_suspended; now rewrite page_update|].
  intros options. apply play_without_stored_path. now rewrite Hstate.
Qed.

Lemma storage_failure_is_final_witness :
  let w := play None (updateS3Path "user/artifact/story_audio_1.mp3"
                        Sample.fresh) in
  is_suspended (AwaitingStorage "user/artifact/story_audio_1.mp3") w = true
  /\ s3Path (state (this (playFromS3_answered
                            "user/artifact/story_audio_1.mp3"
                            StorageMissing w))) = None.
Proof.
  intros w.
  assert (H : is_suspended (AwaitingStorage "user/artifact/story_audio_1.mp3") w
              = true) by (vm_compute; reflexivity).
  split; [exact H|].
  exact (proj1 (storage_failure_is_final "user/artifact/story_audio_1.mp3"
                  StorageMissing w H (or_introl eq_refl))).
Defined.

(** When the browser refuses [audio.play()] for want of a gesture of the
    user, the manager notes it, stops saying it plays and forgets the
    local track: the element it made stays silent, and the next [play] of
    a track that is ready turns to the storage when a stored path is
    known, and otherwise ends in the status [Error]. *)
Theorem blocked_autoplay_drops_local_track (id : nat) (e : AudioElement)
    (w : World) :
  elements (page w) !! id = Some e ->
  el_awaited e = true ->
  el_failed e = false ->
  let w' := playFromCache_played id PlayNotAllowed w in
  needsUserInteraction (this w') = true
  /\ state (this w')
     = with_cachePath None (with_isPlaying false (state (this w)))
  /\ elements (page w') = alter called id (elements (page w))
  /\ (useSystemVoice (state (this w)) = false ->
      audioStatus (state (this w)) = Ready ->
      if truthy (s3Path (state (this w)))
      then suspended (page (play None w'))
           = AwaitingStorage (the (s3Path (state (this w))))
               :: suspended (page w)
      else audioStatus (state (this (play None w'))) = Error
           /\ audioError (state (this (play None w')))
              = Some "No audio path available for playback").
Proof.
  intros He Ha Hf w'.
  assert (Hw : w' = update (fun s => with_cachePath None (with_isPlaying false s))
                      (on_this (set_needsUserInteraction true)
                         (on_page (fun p =>
                            set_elements (alter called id (elements p)) p) w))).
  { subst w'. unfold playFromCache_played. now rewrite He, Ha, Hf. }
  assert (Ht : this w'
               = set_state
                   (with_cachePath None (with_isPlaying false (state (this w))))
                   (set_needsUserInteraction true (this w)))
    by (rewrite Hw; now rewrite this_update).
  assert (Hp : page w' = set_elements (alter called id (elements (page w)))
                           (page w))
    by (rewrite Hw; now rewrite page_update).
  clearbody w'. clear Hw.
  rewrite Ht, Hp.
  split; [reflexivity|]. split; [reflexivity|]. split; [reflexivity|].
  intros Hv Hready.
  rewrite play_ready_track by (rewrite Ht; assumption || reflexivity).
  cbv zeta. rewrite Ht.
  cbn [state set_state s3Path with_cachePath with_isPlaying].
  destruct (truthy (s3Path (state (this w)))).
  - unfold playFromS3, suspend. cbn [page on_page suspended set_suspended].
    now rewrite page_update, Hp.
  - rewrite this_update. split; reflexivity.
Qed.

Lemma blocked_autoplay_drops_local_track_witness :
  let w := play None Sample.created in
  cachePath (state (this w)) = Some "blob:0"
  /\ cachePath (state (this (playFromCache_played 0 PlayNotAllowed w))) = None
  /\ audioError
       (state (this (play None (playFromCache_played 0 PlayNotAllowed w))))
     = Some "No audio path available for playback".
Proof.
  intros w.
  assert (He : elements (page w) !! 0 = Some (new_audio "blob:0"))
    by (vm_compute; reflexivity).
  pose proof (blocked_autoplay_drops_local_track 0 (new_audio "blob:0") w
                He eq_refl eq_refl) as (_ & Hs & _ & Hnext).
  split; [vm_compute; reflexivity|]. split.
  - rewrite Hs. reflexivity.
  - assert (H1 : useSystemVoice (state (this w)) = false)
      by (vm_compute; reflexivity).
    assert (H2 : audioStatus (state (this w)) = Ready)
      by (vm_compute; reflexivity).
    specialize (Hnext H1 H2).
    assert (H3 : truthy (s3Path (state (this w))) = false)
      by (vm_compute; reflexivity).
    rewrite H3 in Hnext. exact (proj2 Hnext).
Defined.

End PlaybackCoverage.

(** ** The WAV container *)

Section WavFacts.
Import Wav.
Local Open Scope Z_scope.

Lemma byte_range (k v : Z) : 0 <= byte k v < 256.
Proof. unfold byte. apply Z.mod_pos_bound. lia. Qed.

Lemma uint16_round_trip (v : Z) :
  byte 0 v + 256 * byte 1 v = v mod 65536.
Proof.
  unfold byte. change (256 ^ 0) with 1. change (256 ^ 1) with 256.
  rewrite Z.div_1_r.
  pose proof (Z.div_mod v 256 ltac:(lia)).
  pose proof (Z.mod_pos_bound v 256 ltac:(lia)).
  pose proof (Z.div_mod (v / 256) 256 ltac:(lia)).
  pose proof (Z.mod_pos_bound (v / 256) 256 ltac:(lia)).
  apply Z.mod_unique_pos with (q := v / 256 / 256); lia.
Qed.

Lemma uint32_round_trip (v : Z) :
  byte 0 v + 256 * byte 1 v + 65536 * byte 2 v + 16777216 * byte 3 v
  = v mod 4294967296.
Proof.
  unfold byte. change (256 ^ 0) with 1. change (256 ^ 1) with 256.
  change (256 ^ 2) with (256 * 256). change (256 ^ 3) with (256 * 256 * 256).
  rewrite Z.div_1_r, <- !Z.div_div by lia.
  pose proof (Z.div_mod v 256 ltac:(lia)).
  pose proof (Z.mod_pos_bound v 256 ltac:(lia)).
  pose proof (Z.div_mod (v / 256) 256 ltac:(lia)).
  pose proof (Z.mod_pos_bound (v / 256) 256 ltac:(lia)).
  pose proof (Z.div_mod (v / 256 / 256) 256 ltac:(lia)).
  pose proof (Z.mod_pos_bound (v / 256 / 256) 256 ltac:(lia)).
  pose proof (Z.div_mod (v / 256 / 256 / 256) 256 ltac:(lia)).
  pose proof (Z.mod_pos_bound (v / 256 / 256 / 256) 256 ltac:(lia)).
  apply Z.mod_unique_pos with (q := v / 256 / 256 / 256 / 256); lia.
Qed.

Lemma getInt16_bytes (v : Z) (rest : list Z) :
  -32768 <= v <= 32767 ->
  getInt16 (byte 0 v :: byte 1 v :: rest) 0 = v.
Proof.
  intros Hv. unfold getInt16, getUint16, getUint8. cbn [List.nth Nat.add].
  rewrite uint16_round_trip.
  destruct (Z.ltb_spec (v mod 65536) 32768) as [H|H].
  - destruct (Z_lt_le_dec v 0) as [Hn|Hp].
    + rewrite <- (Z.mod_add v 1 65536) in H by lia.
      rewrite Z.mod_small in H by lia. lia.
    + apply Z.mod_small. lia.
  - destruct (Z_lt_le_dec v 0) as [Hn|Hp].
    + rewrite <- (Z.mod_add v 1 65536) by lia.
      rewrite Z.mod_small by lia. lia.
    + rewrite Z.mod_small in H by lia. lia.
Qed.

(** The integral part of a rational between two integers. *)
Lemma quot_between (n : Z) (d : positive) (k : Z) :
  0 <= k ->
  - (k * Z.pos d) <= n <= k * Z.pos d ->
  - k <= Z.quot n (Z.pos d) <= k.
Proof.
  intros Hk Hn.
  pose proof (Z.quot_rem' n (Z.pos d)) as E.
  destruct (Z_lt_le_dec n 0) as [Hneg|Hpos].
  - pose proof (Z.rem_nonpos n (Z.pos d) ltac:(lia) ltac:(lia)) as R1.
    assert (Hr : - Z.pos d < Z.rem n (Z.pos d) <= 0).
    { pose proof (Z.rem_bound_abs n (Z.pos d) ltac:(lia)). lia. }
    nia.
  - pose proof (Z.rem_bound_pos n (Z.pos d) ltac:(lia) ltac:(lia)) as R1.
    nia.
Qed.

Lemma quot_sign (n : Z) (d : positive) :
  (0 <= n -> 0 <= Z.quot n (Z.pos d))
  /\ (n <= 0 -> Z.quot n (Z.pos d) <= 0).
Proof.
  split; intros H.
  - apply Z.quot_pos; lia.
  - rewrite <- (Z.opp_involutive n), Z.quot_opp_l by lia.
    pose proof (Z.quot_pos (- n) (Z.pos d) ltac:(lia) ltac:(lia)). lia.
Qed.

(** The sample written for an element: within sixteen bits, of the sign
    of the element, and at the ends of the range from 1 and from -1 on. *)
Lemma pcm16_spec (x : Sample) :
  -32768 <= pcm16 x <= 32767
  /\ match x with
     | Finite q =>
         ((0 <= q)%Q -> 0 <= pcm16 x)
         /\ ((q <= 0)%Q -> pcm16 x <= 0)
         /\ ((1 <= q)%Q -> pcm16 x = 32767)
         /\ ((q <= -1)%Q -> pcm16 x = -32768)
     | PlusInfinity => pcm16 x = 32767
     | MinusInfinity => pcm16 x = -32768
     | NotANumber => pcm16 x = 0
     end.
Proof.
  destruct x as [[n d]| | |]; try (split; [|reflexivity]; cbv; split; discriminate).
  unfold pcm16, clamp, Qle_bool, Qle. cbn [Qnum Qden].
  rewrite !Z.mul_1_r, !Z.mul_1_l.
  destruct (Z.leb_spec (Z.pos d) n) as [H1|H1].
  { change (to_integer (scale (Finite 1))) with 32767.
    split; [lia|]. repeat split; lia. }
  destruct (Z.leb_spec n (-1 * Z.pos d)) as [H2|H2].
  { change (to_integer (scale (Finite (-1)))) with (-32768).
    split; [lia|]. repeat split; lia. }
  unfold scale, Qle_bool. cbn [Qnum Qden].
  rewrite Z.mul_1_r, Z.mul_0_l.
  destruct (Z.leb_spec 0 n) as [H3|H3]; cbn [negb to_integer Qmult Qnum Qden];
    rewrite Pos.mul_1_r.
  - pose proof (quot_between (n * 32767) d 32767 ltac:(lia) ltac:(nia)) as B.
    destruct (quot_sign (n * 32767) d) as [S1 S2].
    split; [lia|]. repeat split; intros; first [lia | apply S2; lia].
  - pose proof (quot_between (n * 32768) d 32768 ltac:(lia) ltac:(nia)) as B.
    destruct (quot_sign (n * 32768) d) as [S1 S2].
    assert (Hq : Z.quot (n * 32768) (Z.pos d) <= 0) by (apply S2; lia).
    split; [lia|]. repeat split; intros; lia.
Qed.

Local Close Scope Z_scope.

Lemma set_bytes_app (pre bytes rest : list Z) :
  List.length bytes <= List.length rest ->
  set_bytes (List.length pre) bytes (pre ++ rest)
  = (pre ++ bytes) ++ List.skipn (List.length bytes) rest.
Proof.
  intros _. unfold set_bytes.
  now rewrite take_app_length, drop_app_add, <- app_assoc.
Qed.

Lemma write_samples_app (data : list Sample) :
  forall pre rest : list Z,
    2 * List.length data <= List.length rest ->
    write_samples (List.length pre) data (pre ++ rest)
    = pre ++ List.flat_map sample_bytes data
      ++ List.skipn (2 * List.length data) rest.
Proof.
  induction data as [|x data IH]; intros pre rest Hlen.
  - reflexivity.
  - cbn [write_samples]. unfold setUint16.
    cbn [List.length] in Hlen.
    rewrite (set_bytes_app pre [_; _] rest) by (cbn [List.length]; lia).
    replace (List.length pre + 2)
      with (List.length (pre ++ sample_bytes x))
      by (rewrite length_app; reflexivity).
    change [byte 0 (to_integer (scale (clamp x)));
            byte 1 (to_integer (scale (clamp x)))] with (sample_bytes x).
    change (List.length (sample_bytes x)) with 2.
    rewrite IH by (rewrite length_drop; lia).
    rewrite drop_drop, <- !app_assoc. cbn [List.flat_map List.length].
    rewrite <- app_assoc. do 3 f_equal.
    replace (2 * S (List.length data)) with (2 + 2 * List.length data) by lia.
    reflexivity.
Qed.

Lemma skipn_repeat (k n : nat) (x : Z) :
  List.skipn k (List.repeat x n) = List.repeat x (n - k).
Proof.
  revert n. induction k as [|k IH]; intros n.
  - now rewrite Nat.sub_0_r.
  - destruct n as [|n]; [reflexivity|]. apply IH.
Qed.

Lemma nth_sample_bytes (data : list Sample) (i : nat) (x : Sample)
    (rest : list Z) :
  data !! i = Some x ->
  List.skipn (2 * i) (List.flat_map sample_bytes data ++ rest)
  = sample_bytes x
    ++ List.skipn (2 * S i) (List.flat_map sample_bytes data ++ rest).
Proof.
  revert i. induction data as [|y data IH]; intros i H; [discriminate|].
  destruct i as [|i].
  - injection H as ->. reflexivity.
  - cbn [List.flat_map]. rewrite <- app_assoc.
    replace (2 * S i) with (2 + 2 * i) by lia.
    replace (2 * S (S i)) with (2 + 2 * S i) by lia.
    change (sample_bytes y ++ ?l) with (byte 0 (pcm16 y) :: byte 1 (pcm16 y) :: l).
    cbn [List.skipn Nat.add]. now apply IH.
Qed.


Lemma set_bytes_next (pre bytes : list Z) (total m offset : nat) :
  offset = List.length pre ->
  total = List.length bytes + m ->
  set_bytes offset bytes (pre ++ List.repeat 0%Z total)
  = (pre ++ bytes) ++ List.repeat 0%Z m.
Proof.
  intros -> ->. rewrite set_bytes_app by (rewrite repeat_length; lia).
  now rewrite skipn_repeat, Nat.add_comm, Nat.add_sub.
Qed.

Lemma byte_code (c : ascii) :
  byte 0 (Z.of_nat (nat_of_ascii c)) = Z.of_nat (nat_of_ascii c).
Proof.
  unfold byte. change (256 ^ 0)%Z with 1%Z. rewrite Z.div_1_r.
  apply Z.mod_small. pose proof (nat_ascii_bounded c). lia.
Qed.

Lemma writeString_next (s : string) :
  forall (pre : list Z) (total m offset : nat),
    offset = List.length pre ->
    total = String.length s + m ->
    writeString offset s (pre ++ List.repeat 0%Z total)
    = (pre ++ codes s) ++ List.repeat 0%Z m.
Proof.
  induction s as [|c s IH]; intros pre total m offset Ho Ht.
  - cbn in Ht. subst. unfold codes. cbn. now rewrite app_nil_r.
  - cbn [writeString]. unfold setUint8.
    rewrite (set_bytes_next pre _ total (String.length s + m) offset Ho)
      by (cbn in *; lia).
    rewrite (IH _ _ m) by (rewrite ?length_app; cbn; lia).
    unfold codes. cbn [list_ascii_of_string List.map].
    now rewrite byte_code, <- !app_assoc.
Qed.

(** The bytes of the file: the header, the samples of the first channel,
    and zeros for what the other channels would take. *)
Definition header_bytes (numOfChan sampleRate length : Z) : list Z :=
  codes "RIFF"
  ++ [byte 0 (32 + length); byte 1 (32 + length);
      byte 2 (32 + length); byte 3 (32 + length)]
  ++ codes "WAVE" ++ codes "fmt "
  ++ [byte 0 16; byte 1 16; byte 2 16; byte 3 16]
  ++ [byte 0 1; byte 1 1]
  ++ [byte 0 numOfChan; byte 1 numOfChan]
  ++ [byte 0 sampleRate; byte 1 sampleRate;
      byte 2 sampleRate; byte 3 sampleRate]
  ++ [byte 0 (sampleRate * 2 * numOfChan);
      byte 1 (sampleRate * 2 * numOfChan);
      byte 2 (sampleRate * 2 * numOfChan);
      byte 3 (sampleRate * 2 * numOfChan)]
  ++ [byte 0 (numOfChan * 2); byte 1 (numOfChan * 2)]
  ++ [byte 0 16; byte 1 16]
  ++ codes "data"
  ++ [byte 0 length; byte 1 length; byte 2 length; byte 3 length].

Lemma audioBufferToWav_bytes (b : AudioBuffer) :
  let numOfChan := Z.pos (numberOfChannels b) in
  let length := (Z.of_nat (List.length (channel0 b)) * numOfChan * 2)%Z in
  audioBufferToWav b
  = header_bytes numOfChan (sampleRate b) length
    ++ List.flat_map sample_bytes (channel0 b)
    ++ List.repeat 0%Z (Z.to_nat length - 2 * List.length (channel0 b)).
Proof.
  intros numOfChan length. unfold audioBufferToWav.
  fold numOfChan. fold length. cbv zeta.
  assert (Hn : 2 * List.length (channel0 b) <= Z.to_nat length).
  { subst length numOfChan.
    assert (Z.of_nat (List.length (channel0 b)) * 2
            <= Z.of_nat (List.length (channel0 b))
               * Z.pos (numberOfChannels b) * 2)%Z by nia.
    lia. }
  set (n := Z.to_nat length) in *. clearbody n. clearbody length numOfChan.
  set (data := channel0 b) in *. clearbody data.
  set (rate := sampleRate b). clearbody rate.
  unfold setUint32, setUint16.
  rewrite <- (app_nil_l (List.repeat 0%Z (44 + n))).
  rewrite (writeString_next "RIFF" _ _ (40 + n) 0) by reflexivity.
  rewrite (set_bytes_next _ _ _ (36 + n) 4) by reflexivity.
  rewrite (writeString_next "WAVE" _ _ (32 + n) 8) by reflexivity.
  rewrite (writeString_next "fmt " _ _ (28 + n) 12) by reflexivity.
  rewrite (set_bytes_next _ _ _ (24 + n) 16) by reflexivity.
  rewrite (set_bytes_next _ _ _ (22 + n) 20) by reflexivity.
  rewrite (set_bytes_next _ _ _ (20 + n) 22) by reflexivity.
  rewrite (set_bytes_next _ _ _ (16 + n) 24) by reflexivity.
  rewrite (set_bytes_next _ _ _ (12 + n) 28) by reflexivity.
  rewrite (set_bytes_next _ _ _ (10 + n) 32) by reflexivity.
  rewrite (set_bytes_next _ _ _ (8 + n) 34) by reflexivity.
  rewrite (writeString_next "data" _ _ (4 + n) 36) by reflexivity.
  rewrite (set_bytes_next _ _ _ n 40) by reflexivity.
  match goal with
  | |- write_samples 44 data (?h ++ _) = _ =>
      replace 44 with (List.length h) by reflexivity
  end.
  rewrite write_samples_app by (rewrite repeat_length; exact Hn).
  rewrite skipn_repeat. unfold header_bytes.
  rewrite <- !app_assoc. reflexivity.
Qed.

Lemma header_length (numOfChan rate length : Z) :
  List.length (header_bytes numOfChan rate length) = 44.
Proof. reflexivity. Qed.

Lemma header_fields (numOfChan rate length : Z) (rest : list Z) :
  let view := header_bytes numOfChan rate length ++ rest in
  slice 0 4 view = codes "RIFF"
  /\ getUint32 view 4 = ((32 + length) mod 4294967296)%Z
  /\ slice 8 8 view = codes "WAVEfmt "
  /\ getUint32 view 16 = 16%Z
  /\ getUint16 view 20 = 1%Z
  /\ getUint16 view 22 = (numOfChan mod 65536)%Z
  /\ getUint32 view 24 = (rate mod 4294967296)%Z
  /\ getUint32 view 28 = ((rate * 2 * numOfChan) mod 4294967296)%Z
  /\ getUint16 view 32 = ((numOfChan * 2) mod 65536)%Z
  /\ getUint16 view 34 = 16%Z
  /\ slice 36 4 view = codes "data"
  /\ getUint32 view 40 = (length mod 4294967296)%Z.
Proof.
  intros view. subst view. unfold header_bytes, codes.
  cbn [list_ascii_of_string List.map List.app].
  unfold slice, getUint32, getUint16, getUint8.
  cbn [List.nth List.firstn List.skipn Nat.add].
  rewrite !uint32_round_trip, !uint16_round_trip.
  repeat split; reflexivity.
Qed.

Lemma getInt16_drop (view : DataView) (offset : nat) :
  getInt16 view offset = getInt16 (List.skipn offset view) 0.
Proof.
  unfold getInt16, getUint16, getUint8.
  now rewrite !nth_skipn, Nat.add_0_r.
Qed.

Lemma data_length (b : AudioBuffer) :
  Z.to_nat (Z.of_nat (List.length (channel0 b))
            * Z.pos (numberOfChannels b) * 2)
  = 2 * List.length (channel0 b) * Pos.to_nat (numberOfChannels b).
Proof. lia. Qed.

End WavFacts.

Section WavCoverage.
Import Wav.

(** The file [audioBufferToWav] makes has 44 bytes and two more for
    each frame of each channel; its header reads back as the fields the
    function wrote, each reduced to the width of its field; and the
    length field at offset 4 is the length of the file less 12. *)
Theorem wav_header (b : AudioBuffer) :
  let view := audioBufferToWav b in
  let numOfChan := Z.pos (numberOfChannels b) in
  let size := Z.of_nat (List.length view) in
  List.length view
  = 44 + 2 * List.length (channel0 b) * Pos.to_nat (numberOfChannels b)
  /\ slice 0 4 view = codes "RIFF"
  /\ getUint32 view 4 = ((size - 12) mod 4294967296)%Z
  /\ slice 8 8 view = codes "WAVEfmt "
  /\ getUint32 view 16 = 16%Z
  /\ getUint16 view 20 = 1%Z
  /\ getUint16 view 22 = (numOfChan mod 65536)%Z
  /\ getUint32 view 24 = (sampleRate b mod 4294967296)%Z
  /\ getUint32 view 28 = ((sampleRate b * 2 * numOfChan) mod 4294967296)%Z
  /\ getUint16 view 32 = ((numOfChan * 2) mod 65536)%Z
  /\ getUint16 view 34 = 16%Z
  /\ slice 36 4 view = codes "data"
  /\ getUint32 view 40 = ((size - 44) mod 4294967296)%Z.
Proof.
  intros view numOfChan size.
  assert (L : List.length view
              = 44 + 2 * List.length (channel0 b)
                     * Pos.to_nat (numberOfChannels b)).
  { subst view. rewrite audioBufferToWav_bytes.
    rewrite !length_app, header_length, repeat_length, data_length.
    assert (E : List.length (List.flat_map sample_bytes (channel0 b))
                = 2 * List.length (channel0 b)).
    { induction (channel0 b) as [|x l IH]; [reflexivity|].
      cbn [List.flat_map List.length sample_bytes List.app]. lia. }
    rewrite E. nia. }
  split; [exact L|].
  assert (S : (size - 12
               = 32 + Z.of_nat (List.length (channel0 b)) * numOfChan * 2)%Z)
    by (subst size numOfChan; lia).
  assert (D : (size - 44
               = Z.of_nat (List.length (channel0 b)) * numOfChan * 2)%Z)
    by (subst size numOfChan; lia).
  rewrite S, D. subst view. rewrite audioBufferToWav_bytes.
  apply header_fields.
Qed.

(** Element [i] of the first channel is read back from the two
    bytes at offset [44 + 2 * i] as a sixteen-bit sample of the file:
    within range, of the sign of the element, [32767] from [1] on and
    [-32768] from [-1] down, and [0] for [NaN]. *)
Theorem wav_sample (b : AudioBuffer) (i : nat) (x : Sample) :
  channel0 b !! i = Some x ->
  getInt16 (audioBufferToWav b) (44 + 2 * i) = pcm16 x
  /\ (-32768 <= pcm16 x <= 32767)%Z
  /\ match x with
     | Finite q =>
         ((0 <= q)%Q -> (0 <= pcm16 x)%Z)
         /\ ((q <= 0)%Q -> (pcm16 x <= 0)%Z)
         /\ ((1 <= q)%Q -> pcm16 x = 32767%Z)
         /\ ((q <= -1)%Q -> pcm16 x = (-32768)%Z)
     | PlusInfinity => pcm16 x = 32767%Z
     | MinusInfinity => pcm16 x = (-32768)%Z
     | NotANumber => pcm16 x = 0%Z
     end.
Proof.
  intros Hx. destruct (pcm16_spec x) as [R M].
  split; [|split; assumption].
  rewrite audioBufferToWav_bytes, getInt16_drop.
  rewrite (drop_app_add' _ _ 44) by reflexivity.
  rewrite (nth_sample_bytes _ _ _ _ Hx).
  apply getInt16_bytes, R.
Qed.

(** Only the first channel is written: the samples of its frames
    follow the header one after the other, and what the length counts
    for the other channels stays zero. *)
Theorem wav_first_channel_only (b : AudioBuffer) :
  let view := audioBufferToWav b in
  let frames := List.length (channel0 b) in
  slice 44 (2 * frames) view = List.flat_map sample_bytes (channel0 b)
  /\ List.skipn (44 + 2 * frames) view
     = List.repeat 0%Z (2 * frames * (Pos.to_nat (numberOfChannels b) - 1)).
Proof.
  intros view frames. subst view frames. rewrite audioBufferToWav_bytes.
  assert (E : List.length (List.flat_map sample_bytes (channel0 b))
              = 2 * List.length (channel0 b)).
  { induction (channel0 b) as [|x l IH]; [reflexivity|].
    cbn [List.flat_map List.length sample_bytes List.app]. lia. }
  unfold slice. rewrite data_length. split.
  - rewrite (drop_app_length' _ _ 44) by reflexivity.
    rewrite <- E. apply take_app_length.
  - rewrite (drop_app_add' _ _ 44) by reflexivity.
    rewrite <- E, drop_app_length, E. f_equal. nia.
Qed.

End WavCoverage.

Lemma wav_sample_witness :
  Wav.getInt16
    (Wav.audioBufferToWav
       {| Wav.numberOfChannels := 1; Wav.sampleRate := 44100;
          Wav.channel0 := [Wav.Finite (1 # 2); Wav.Finite (- (1 # 2));
                           Wav.Finite 2; Wav.NotANumber] |}) 46
  = (-16384)%Z.
Proof.
  exact (proj1 (wav_sample
    {| Wav.numberOfChannels := 1; Wav.sampleRate := 44100;
       Wav.channel0 := [Wav.Finite (1 # 2); Wav.Finite (- (1 # 2));
                        Wav.Finite 2; Wav.NotANumber] |}
    1 (Wav.Finite (- (1 # 2))) eq_refl)).
Defined.

(** ** The record of the stories *)

Section StoriesFacts.
Import Js Model Assembler Manager Stories.

Lemma get_set_field (key : string) (v : Json) (fields : list (string * Json)) :
  get_field key (set_field key v fields) = Some v.
Proof.
  induction fields as [|[k old] rest IH]; cbn [set_field get_field].
  - now rewrite String.eqb_refl.
  - destruct (String.eqb k key) eqn:E; cbn [get_field]; now rewrite E.
Qed.

Lemma get_set_field_other (key k' : string) (v : Json)
    (fields : list (string * Json)) :
  k' <> key ->
  get_field k' (set_field key v fields) = get_field k' fields.
Proof.
  intros Hk. induction fields as [|[k old] rest IH]; cbn [set_field get_field].
  - destruct (String.eqb_spec key k'); congruence.
  - destruct (String.eqb_spec k key) as [->|Hn]; cbn [get_field].
    + destruct (String.eqb_spec key k'); congruence.
    + now rewrite IH.
Qed.

Lemma set_field_keys (key : string) (v : Json) (fields : list (string * Json)) :
  get_field key fields <> None ->
  List.map fst (set_field key v fields) = List.map fst fields.
Proof.
  induction fields as [|[k old] rest IH]; cbn [set_field get_field]; intros H.
  - congruence.
  - destruct (String.eqb k key); cbn [List.map fst]; [reflexivity|].
    now rewrite IH.
Qed.

Lemma assign_object (storyIndex : nat) (audioFilename : string)
    (stories : list Json) (fields : list (string * Json)) :
  stories !! storyIndex = Some (JObject fields) ->
  assign storyIndex audioFilename stories
  = Returned (<[storyIndex :=
       JObject (set_field "story_audio" (JString audioFilename) fields)]>
       stories).
Proof. intros H. unfold assign. now rewrite H. Qed.

Lemma default_stories_length (storyIndex : nat) :
  List.length (default_stories storyIndex) = Nat.max (storyIndex + 1) 3.
Proof. unfold default_stories. now rewrite length_map, length_seq. Qed.

Lemma default_stories_lookup (storyIndex j : nat) :
  j < Nat.max (storyIndex + 1) 3 ->
  default_stories storyIndex !! j = Some (default_story j).
Proof.
  intros H. unfold default_stories.
  assert (E : List.seq 0 (Nat.max (storyIndex + 1) 3) !! j = Some j).
  { rewrite lookup_seq. split; [reflexivity | exact H]. }
  change (List.map default_story ?l) with (default_story <$> l).
  now rewrite list_lookup_fmap, E.
Qed.

Lemma assign_object_spec (storyIndex : nat) (audioFilename : string)
    (stories : list Json) (fields : list (string * Json)) :
  stories !! storyIndex = Some (JObject fields) ->
  exists updated,
    assign storyIndex audioFilename stories = Returned updated
    /\ List.length updated = List.length stories
    /\ (forall j, j <> storyIndex -> updated !! j = stories !! j)
    /\ (exists fields',
          updated !! storyIndex = Some (JObject fields')
          /\ get_field "story_audio" fields' = Some (JString audioFilename)
          /\ forall k, k <> "story_audio" ->
               get_field k fields' = get_field k fields).
Proof.
  intros H. eexists. split; [apply (assign_object _ _ _ _ H)|].
  assert (Hlt : storyIndex < List.length stories)
    by (apply lookup_lt_is_Some; eauto).
  split; [apply length_insert|]. split.
  - intros j Hj. apply list_lookup_insert_ne. congruence.
  - eexists. split; [apply list_lookup_insert_eq; exact Hlt|]. split.
    + apply get_set_field.
    + intros k Hk. now apply get_set_field_other.
Qed.

Lemma update_stored_spec (config : AudioManagerConfig) (storyIndex : nat)
    (audioFilename : string) (storage : StoryStorage) :
  match update_stored config storyIndex audioFilename storage with
  | (writes, Returned _) =>
      writes = [] \/ exists payload, writes = [Wrote (jsonPath config) payload true]
  | (writes, Thrown _) =>
      writes = [] \/ exists payload, writes = [Wrote (jsonPath config) payload false]
  end.
Proof.
  unfold update_stored.
  destruct (stored storage) as [[| | | |stories|]|shown]; try (now left).
  destruct (storyIndex <? List.length stories); [|now left].
  destruct (assign storyIndex audioFilename stories) as [updated|e];
    [|now left].
  destruct (put_updated storage); right; eauto.
Qed.

Lemma write_new_spec (config : AudioManagerConfig)
    (artifactDescription : option Json) (storyIndex : nat)
    (audioFilename : string) (storage : StoryStorage) :
  let writes := write_new config artifactDescription storyIndex
                  audioFilename storage in
  writes = []
  \/ exists payload,
       writes = [Wrote (jsonPath config) payload (put_new storage)].
Proof.
  unfold write_new.
  destruct (if storyIndex <? _ then _ else _); [right; eauto | now left].
Qed.

End StoriesFacts.

Section StoriesCoverage.
Import Js Model Assembler Manager Stories.

Variable config : AudioManagerConfig.
Variable artifactDescription : option Json.

(** When the record is read as an array that has an object at the place
    of the story, the first thing [updateArtifactStoriesJson] does to the
    storage is to put the array back with that one property of that one
    story set: the other stories, and the other properties of the story,
    are as they were read; and when this goes through nothing else is
    written. *)
Theorem stories_update_is_local (storyIndex : nat) (audioFilename : string)
    (storage : StoryStorage) (stories : list Json)
    (fields : list (string * Json)) :
  stored storage = Returned (JArray stories) ->
  stories !! storyIndex = Some (JObject fields) ->
  exists updated rest,
    updateArtifactStoriesJson config artifactDescription storyIndex
      audioFilename storage
    = Wrote (jsonPath config) (JArray updated) (put_updated storage) :: rest
    /\ List.length updated = List.length stories
    /\ (forall j, j <> storyIndex -> updated !! j = stories !! j)
    /\ (exists fields',
          updated !! storyIndex = Some (JObject fields')
          /\ get_field "story_audio" fields' = Some (JString audioFilename)
          /\ forall k, k <> "story_audio" ->
               get_field k fields' = get_field k fields)
    /\ (put_updated storage = true -> rest = []).
Proof.
  intros Hs Hf.
  destruct (assign_object_spec storyIndex audioFilename stories fields Hf)
    as (updated & Ha & Hlen & Hother & Hstory).
  assert (Hlt : storyIndex < List.length stories)
    by (apply lookup_lt_is_Some; eauto).
  apply Nat.ltb_lt in Hlt.
  unfold updateArtifactStoriesJson, update_stored. rewrite Hs, Hlt, Ha.
  destruct (put_updated storage) eqn:Hp.
  - exists updated, []. repeat split; try assumption.
  - exists updated,
      (write_new config artifactDescription storyIndex audioFilename storage).
    repeat split; try assumption. discriminate.
Qed.

(** When what is read is not an array, or is an array that has no place
    for the story, nothing is written at all: the filename is not
    recorded and no record is made. *)
Theorem stories_left_alone (storyIndex : nat) (audioFilename : string)
    (storage : StoryStorage) (v : Json) :
  stored storage = Returned v ->
  (forall stories, v = JArray stories -> List.length stories <= storyIndex) ->
  updateArtifactStoriesJson config artifactDescription storyIndex
    audioFilename storage = [].
Proof.
  intros Hs Hv. unfold updateArtifactStoriesJson, update_stored. rewrite Hs.
  destruct v as [| | | |stories|]; try reflexivity.
  specialize (Hv stories eq_refl).
  destruct (Nat.ltb_spec storyIndex (List.length stories)); [lia|reflexivity].
Qed.

(** [updateArtifactStoriesJson] writes at most twice, to the record of the
    artifact only, and never a second time when the first went through. *)
Theorem stories_writes_bounded (storyIndex : nat) (audioFilename : string)
    (storage : StoryStorage) :
  let writes := updateArtifactStoriesJson config artifactDescription
                  storyIndex audioFilename storage in
  List.length writes <= 2
  /\ List.Forall (fun w => path_of w = jsonPath config) writes
  /\ (forall w rest, writes = w :: rest -> went_through w = true -> rest = []).
Proof.
  intros writes. subst writes. unfold updateArtifactStoriesJson.
  pose proof (update_stored_spec config storyIndex audioFilename storage) as U.
  pose proof (write_new_spec config artifactDescription storyIndex
                audioFilename storage) as N.
  destruct (update_stored config storyIndex audioFilename storage)
    as [first [[]|shown]].
  - destruct U as [->|[payload ->]].
    + repeat split; [cbn; lia | constructor | discriminate].
    + repeat split; [cbn; lia | repeat constructor |].
      now intros w rest [= <- <-].
  - destruct N as [->|[payload ->]]; destruct U as [->|[first_payload ->]];
      cbn [List.app].
    + repeat split; [cbn; lia | constructor | discriminate].
    + repeat split; [cbn; lia | repeat constructor |].
      now intros w rest [= <- <-].
    + repeat split; [cbn; lia | repeat constructor |].
      now intros w rest [= <- <-].
    + repeat split; [cbn; lia | repeat constructor |].
      intros w rest [= <- <-] H. discriminate H.
Qed.

(** When the put of the updated record fails, the function goes on as it
    does when the record cannot be read: what it writes next is made from
    the description or made up, and has nothing of the stories that were
    read. *)
Theorem failed_put_starts_anew (storyIndex : nat) (audioFilename : string)
    (storage : StoryStorage) (stories : list Json)
    (fields : list (string * Json)) (shown : string) :
  stored storage = Returned (JArray stories) ->
  stories !! storyIndex = Some (JObject fields) ->
  put_updated storage = false ->
  exists updated,
    updateArtifactStoriesJson config artifactDescription storyIndex
      audioFilename storage
    = Wrote (jsonPath config) (JArray updated) false
      :: updateArtifactStoriesJson config artifactDescription storyIndex
           audioFilename
           {| stored := Thrown shown; put_updated := false;
              put_new := put_new storage |}.
Proof.
  intros Hs Hf Hp.
  destruct (assign_object_spec storyIndex audioFilename stories fields Hf)
    as (updated & Ha & _).
  assert (Hlt : storyIndex < List.length stories)
    by (apply lookup_lt_is_Some; eauto).
  apply Nat.ltb_lt in Hlt. exists updated.
  unfold updateArtifactStoriesJson, update_stored.
  cbn [stored]. rewrite Hs, Hlt, Ha, Hp. reflexivity.
Qed.

(** When the record cannot be read and the description has no array of
    stories, one record is written, of made-up stories: three of them, or
    as many as it takes to have a place for the story; the story names the
    filename and every other one names none. *)
Theorem new_record_is_made_up (storyIndex : nat) (audioFilename : string)
    (storage : StoryStorage) (shown : string) :
  stored storage = Thrown shown ->
  (forall described,
     described_stories artifactDescription <> Some (JArray described)) ->
  exists fresh,
    updateArtifactStoriesJson config artifactDescription storyIndex
      audioFilename storage
    = [Wrote (jsonPath config) (JArray fresh) (put_new storage)]
    /\ List.length fresh = Nat.max (storyIndex + 1) 3
    /\ (forall story, fresh !! storyIndex = Some story ->
          story_audio story = Some (JString audioFilename))
    /\ fresh !! storyIndex <> None
    /\ (forall j, j <> storyIndex -> j < Nat.max (storyIndex + 1) 3 ->
          fresh !! j = Some (default_story j)
          /\ story_audio (default_story j) = Some (JString "")).
Proof.
  intros Hs Hd.
  assert (Hn : newStoriesArray artifactDescription storyIndex
               = default_stories storyIndex).
  { unfold newStoriesArray.
    destruct (described_stories artifactDescription) as [[| | | |l|]|];
      try reflexivity.
    now destruct (Hd l). }
  assert (Hlt : storyIndex < Nat.max (storyIndex + 1) 3) by lia.
  pose proof (default_stories_lookup storyIndex storyIndex Hlt) as Hl.
  destruct (assign_object_spec storyIndex audioFilename _ _ Hl)
    as (fresh & Ha & Hlen & Hother & fields' & Hstory & Haudio & _).
  exists fresh.
  unfold updateArtifactStoriesJson, update_stored, write_new.
  rewrite Hs, Hn, default_stories_length.
  apply Nat.ltb_lt in Hlt. rewrite Hlt, Ha.
  rewrite default_stories_length in Hlen.
  split; [reflexivity|]. split; [exact Hlen|]. split; [|split].
  - intros story E. rewrite Hstory in E. injection E as <-. exact Haudio.
  - now rewrite Hstory.
  - intros j Hj Hjlt. split; [|reflexivity].
    rewrite (Hother j Hj). now apply default_stories_lookup.
Qed.

(** When the record cannot be read and the description has an array of
    stories, that array is what is written: with the filename when it has
    an object at the place of the story, as it is when it has no such
    place, and nothing is written when it has [null] there. *)
Theorem new_record_from_description (storyIndex : nat)
    (audioFilename : string) (storage : StoryStorage) (shown : string)
    (described : list Json) :
  stored storage = Thrown shown ->
  described_stories artifactDescription = Some (JArray described) ->
  let writes := updateArtifactStoriesJson config artifactDescription
                  storyIndex audioFilename storage in
  (forall fields, described !! storyIndex = Some (JObject fields) ->
     writes
     = [Wrote (jsonPath config)
          (JArray (<[storyIndex :=
             JObject (set_field "story_audio" (JString audioFilename) fields)]>
             described))
          (put_new storage)])
  /\ (List.length described <= storyIndex ->
      writes = [Wrote (jsonPath config) (JArray described) (put_new storage)])
  /\ (described !! storyIndex = Some JNull -> writes = []).
Proof.
  intros Hs Hd writes. subst writes.
  unfold updateArtifactStoriesJson, update_stored, write_new, newStoriesArray.
  rewrite Hs, Hd. cbn [List.app]. repeat split.
  - intros fields Hf.
    assert (Hlt : storyIndex < List.length described)
      by (apply lookup_lt_is_Some; eauto).
    apply Nat.ltb_lt in Hlt.
    now rewrite Hlt, (assign_object _ _ _ _ Hf).
  - intros Hle.
    destruct (Nat.ltb_spec storyIndex (List.length described)); [lia|].
    reflexivity.
  - intros Hnull.
    assert (Hlt : storyIndex < List.length described)
      by (apply lookup_lt_is_Some; eauto).
    apply Nat.ltb_lt in Hlt. rewrite Hlt. unfold assign. now rewrite Hnull.
Qed.

End StoriesCoverage.

Lemma stories_update_is_local_witness :
  exists updated,
    Stories.updateArtifactStoriesJson Sample.config None 1 "story_audio_2.mp3"
      (StoryCases.reads true true)
    = [Stories.Wrote (Stories.jsonPath Sample.config) (Stories.JArray updated)
         true]
    /\ updated !! 0 = StoryCases.record !! 0.
Proof.
  destruct (stories_update_is_local Sample.config None 1 "story_audio_2.mp3"
              (StoryCases.reads true true) StoryCases.record _
              eq_refl eq_refl)
    as (updated & rest & E & _ & Hother & _ & Hrest).
  exists updated. rewrite E, (Hrest eq_refl).
  split; [reflexivity | apply Hother; discriminate].
Defined.

Lemma stories_left_alone_witness :
  Stories.updateArtifactStoriesJson Sample.config None 2 "story_audio_3.mp3"
    (StoryCases.reads true true) = [].
Proof.
  apply (stories_left_alone Sample.config None 2 "story_audio_3.mp3"
           (StoryCases.reads true true) (Stories.JArray StoryCases.record)
           eq_refl).
  intros stories [= <-]. cbn. lia.
Defined.

Lemma failed_put_starts_anew_witness :
  exists updated,
    Stories.updateArtifactStoriesJson Sample.config None 1 "story_audio_2.mp3"
      (StoryCases.reads false true)
    = [Stories.Wrote (Stories.jsonPath Sample.config) (Stories.JArray updated)
         false;
       Stories.Wrote (Stories.jsonPath Sample.config)
         (Stories.JArray
            [Stories.default_story 0;
             Stories.JObject
               [("culture", Stories.JString "Story 2");
                ("view", Stories.JString "");
                ("culture_story", Stories.JString "");
                ("story_audio", Stories.JString "story_audio_2.mp3")];
             Stories.default_story 2])
         true].
Proof.
  destruct (failed_put_starts_anew Sample.config None 1 "story_audio_2.mp3"
              (StoryCases.reads false true) StoryCases.record _ "gone"
              eq_refl eq_refl eq_refl) as (updated & E).
  exists updated. rewrite E. reflexivity.
Defined.

Lemma new_record_is_made_up_witness :
  exists fresh,
    Stories.updateArtifactStoriesJson Sample.config None 4 "story_audio_5.mp3"
      StoryCases.unreadable
    = [Stories.Wrote (Stories.jsonPath Sample.config) (Stories.JArray fresh)
         true]
    /\ List.length fresh = 5.
Proof.
  destruct (new_record_is_made_up Sample.config None 4 "story_audio_5.mp3"
              StoryCases.unreadable _ eq_refl
              ltac:(intros described; discriminate))
    as (fresh & E & Hlen & _).
  exists fresh. split; [exact E | exact Hlen].
Defined.

Lemma new_record_from_description_witness :
  Stories.updateArtifactStoriesJson Sample.config StoryCases.description 2
    "story_audio_3.mp3" StoryCases.unreadable
  = [Stories.Wrote (Stories.jsonPath Sample.config)
       (Stories.JArray [StoryCases.tale "Maya" ""; Stories.JNull]) true]
  /\ Stories.updateArtifactStoriesJson Sample.config StoryCases.description 1
       "story_audio_2.mp3" StoryCases.unreadable = [].
Proof.
  split.
  - apply (proj1 (proj2 (new_record_from_description Sample.config
                           StoryCases.description 2 "story_audio_3.mp3"
                           StoryCases.unreadable _ _ eq_refl eq_refl))).
    cbn. lia.
  - exact (proj2 (proj2 (new_record_from_description Sample.config
                           StoryCases.description 1 "story_audio_2.mp3"
                           StoryCases.unreadable _ _ eq_refl eq_refl))
             eq_refl).
Defined.
